(** * The Probit sparse-regression model of [bss/models/probit.py]

    A shallow embedding of the [Probit] class: its constructor, the two
    memoised distribution factories, the log-densities, the parameter
    updates and the MCMC driver, together with the parts of Python,
    NumPy, SciPy and cachetools that the class relies on.

    Conventions.
    - A Python float is a [pyfloat]: an exact rational or one of the
      three IEEE special values.  Arithmetic on finite values is exact
      (rounding, overflow and signed zeros are not modelled); the special
      values follow IEEE-754, which is what NumPy computes with.  The
      bytes of an array, in which the two zeros do differ, are modelled
      apart ([Float64]).
    - A method of the class is a function [world -> outcome A * world]:
      it returns a value or raises, and in both cases leaves a world
      behind (the object's attributes, the generator state and a ghost
      trace of the calls that were made).
    - [bss.mvn.Mvn] and the two samplers of [bss.samplers] are interfaces
      here (class [Externals]); so are the transcendental functions of
      SciPy and the byte-level hashes of CPython. *)

From Stdlib Require Import ZArith QArith Qreduction List Bool Lia Lqa.
From Stdlib Require String.
Import ListNotations.

Set Implicit Arguments.

(* ================================================================= *)
(** ** Python floats *)

Module PyFloat.

Inductive pyfloat : Type :=
| NaN
| NInf
| Fin (q : Q)
| PInf.

Definition Qlt_bool (x y : Q) : bool := negb (Qle_bool y x).
Definition Qsgn (q : Q) : Z := Z.sgn (Qnum q).

Definition of_Z (z : Z) : pyfloat := Fin (inject_Z z).
Definition of_nat (n : nat) : pyfloat := of_Z (Z.of_nat n).

(** An infinity of sign [pos] scaled by a finite factor of sign [s]. *)
Definition inf_signed (pos : bool) (s : Z) : pyfloat :=
  match s with
  | Z0 => NaN
  | Zpos _ => if pos then PInf else NInf
  | Zneg _ => if pos then NInf else PInf
  end.

Definition fneg (x : pyfloat) : pyfloat :=
  match x with
  | NaN => NaN
  | NInf => PInf
  | PInf => NInf
  | Fin a => Fin (Qred (- a))
  end.

Definition fadd (x y : pyfloat) : pyfloat :=
  match x, y with
  | NaN, _ | _, NaN => NaN
  | PInf, NInf | NInf, PInf => NaN
  | PInf, _ | _, PInf => PInf
  | NInf, _ | _, NInf => NInf
  | Fin a, Fin b => Fin (Qred (a + b))
  end.

Definition fsub (x y : pyfloat) : pyfloat := fadd x (fneg y).

Definition fmul (x y : pyfloat) : pyfloat :=
  match x, y with
  | NaN, _ | _, NaN => NaN
  | Fin a, Fin b => Fin (Qred (a * b))
  | Fin a, PInf | PInf, Fin a => inf_signed true (Qsgn a)
  | Fin a, NInf | NInf, Fin a => inf_signed false (Qsgn a)
  | PInf, PInf | NInf, NInf => PInf
  | PInf, NInf | NInf, PInf => NInf
  end.

(** Division as NumPy performs it: a zero divisor gives an infinity or
    NaN (with a warning), never an exception. *)
Definition fdiv (x y : pyfloat) : pyfloat :=
  match x, y with
  | NaN, _ | _, NaN => NaN
  | Fin a, Fin b =>
      if Qeq_bool b 0 then inf_signed true (Qsgn a) else Fin (Qred (a / b))
  | Fin _, PInf | Fin _, NInf => Fin 0
  | PInf, Fin b => if Qlt_bool b 0 then NInf else PInf
  | NInf, Fin b => if Qlt_bool b 0 then PInf else NInf
  | PInf, PInf | PInf, NInf | NInf, PInf | NInf, NInf => NaN
  end.

(** Comparisons: every comparison with NaN is false. *)
Definition flt (x y : pyfloat) : bool :=
  match x, y with
  | NaN, _ | _, NaN => false
  | NInf, NInf => false
  | NInf, _ => true
  | _, NInf => false
  | PInf, _ => false
  | Fin _, PInf => true
  | Fin a, Fin b => Qlt_bool a b
  end.

Definition fle (x y : pyfloat) : bool :=
  match x, y with
  | NaN, _ | _, NaN => false
  | NInf, _ => true
  | _, NInf => false
  | _, PInf => true
  | PInf, _ => false
  | Fin a, Fin b => Qle_bool a b
  end.

Definition fgt (x y : pyfloat) : bool := flt y x.
Definition fge (x y : pyfloat) : bool := fle y x.

Definition is_finite (x : pyfloat) : bool :=
  match x with Fin _ => true | _ => false end.

(** A finite number other than 0. *)
Definition is_nonzero (x : pyfloat) : bool :=
  match x with Fin q => negb (Qeq_bool q 0) | _ => false end.

(** The propositional reading of "x is a positive real number". *)
Definition positive_real (x : pyfloat) : Prop :=
  exists q, x = Fin q /\ (0 < q)%Q.

Definition nonneg_real (x : pyfloat) : Prop :=
  exists q, x = Fin q /\ (0 <= q)%Q.

End PyFloat.
Export PyFloat.

Declare Scope pyfloat_scope.
Delimit Scope pyfloat_scope with F.
Bind Scope pyfloat_scope with pyfloat.
Infix "+" := fadd : pyfloat_scope.
Infix "-" := fsub : pyfloat_scope.
Infix "*" := fmul : pyfloat_scope.
Infix "/" := fdiv : pyfloat_scope.
Infix "<?" := flt : pyfloat_scope.
Infix "<=?" := fle : pyfloat_scope.
Infix ">?" := fgt : pyfloat_scope.
Infix ">=?" := fge : pyfloat_scope.

(** Float literals of the source. *)
Definition f0 : pyfloat := Fin 0.
Definition f1 : pyfloat := Fin 1.
Definition fhalf : pyfloat := Fin (1 # 2).
Definition f1e_6 : pyfloat := Fin (1 # 1000000).
Definition f0_01 : pyfloat := Fin (1 # 100).
Definition f0_999999 : pyfloat := Fin (999999 # 1000000).

(* ================================================================= *)
(** ** CPython's hash of numbers

    [hash] of a number is defined by its value (Python reference,
    "Hashing of numeric types"): for a rational [m/n] it is
    [m * n^-1] modulo the prime [2^61 - 1], negated for a negative
    number, with [-1] replaced by [-2]. *)

Module PyHash.

Local Open Scope Z_scope.

Definition modulus : Z := 2 ^ 61 - 1.
Definition hash_inf : Z := 314159.
Definition hash_nan : Z := 0.

Fixpoint pow_mod_pos (b : Z) (e : positive) (m : Z) : Z :=
  match e with
  | xH => b mod m
  | xO e' => let r := pow_mod_pos b e' m in (r * r) mod m
  | xI e' => let r := pow_mod_pos b e' m in ((r * r) mod m * b) mod m
  end.

Definition pow_mod (b e m : Z) : Z :=
  match e with
  | Zpos p => pow_mod_pos b p m
  | _ => 1 mod m
  end.

(** [hash_fraction] of the reference, for [m/n] in lowest terms. *)
Definition hash_fraction (m n : Z) : Z :=
  let h0 :=
    if (n mod modulus =? 0)%Z then hash_inf
    else ((Z.abs m mod modulus) * pow_mod n (modulus - 2) modulus) mod modulus in
  let h1 := if (m <? 0)%Z then (- h0)%Z else h0 in
  if (h1 =? -1)%Z then (-2)%Z else h1.

Definition hash_int (z : Z) : Z := hash_fraction z 1.

Definition hash_float (x : pyfloat) : Z :=
  match x with
  | NaN => hash_nan
  | PInf => hash_inf
  | NInf => (- hash_inf)%Z
  | Fin q => let r := Qred q in hash_fraction (Qnum r) (QDen r)
  end.

End PyHash.

(* ================================================================= *)
(** ** Exceptions and outcomes *)

Inductive exn : Type :=
| LinAlgError
| ValueError
| KeyError
| IndexError
| ZeroDivisionError
| AttributeError
| RuntimeError.

Definition exn_eqb (e e' : exn) : bool :=
  match e, e' with
  | LinAlgError, LinAlgError | ValueError, ValueError | KeyError, KeyError
  | IndexError, IndexError | ZeroDivisionError, ZeroDivisionError
  | AttributeError, AttributeError | RuntimeError, RuntimeError => true
  | _, _ => false
  end.

Inductive outcome (A : Type) : Type :=
| Val (a : A)
| Exc (e : exn).
Arguments Val {A} a.
Arguments Exc {A} e.

(* ================================================================= *)
(** ** NumPy arrays *)

Definition vec := list pyfloat.
Definition matrix := list (list pyfloat).

Module Np.

Local Open Scope nat_scope.

Fixpoint zip_with {A B C} (f : A -> B -> C) (l : list A) (l' : list B) : list C :=
  match l, l' with
  | a :: t, b :: t' => f a b :: zip_with f t t'
  | _, _ => []
  end.

(** [np.zeros(n)], [np.ones((n, m))], [np.eye(n)]. *)
Definition zeros (n : nat) : vec := repeat f0 n.
Definition ones (n m : nat) : matrix := repeat (repeat f1 m) n.

Definition eye_row (n i : nat) : vec :=
  map (fun j => if Nat.eqb i j then f1 else f0) (seq 0 n).
Definition eye (n : nat) : matrix := map (eye_row n) (seq 0 n).

(** Elementwise operations on arrays of one shape. *)
Definition add (a b : matrix) : matrix := zip_with (zip_with fadd) a b.
Definition div_scalar (a : matrix) (s : pyfloat) : matrix :=
  map (map (fun x => fdiv x s)) a.
Definition scale (s : pyfloat) (a : matrix) : matrix :=
  map (map (fun x => fmul s x)) a.

(** [v > s] for an array [v] and a scalar [s]. *)
Definition gt_scalar (v : vec) (s : pyfloat) : list bool :=
  map (fun x => fgt x s) v.

(** The inner product and [np.dot(A, A.T)]. *)
Definition inner (u v : vec) : pyfloat :=
  fold_left fadd (zip_with fmul u v) f0.
Definition dot_transpose (a : matrix) : matrix :=
  map (fun r => map (fun r' => inner r r') a) a.

(** [row[mask]] keeps the entries of [row] at which [mask] is true. *)
Fixpoint compress {A} (mask : list bool) (row : list A) : list A :=
  match mask, row with
  | b :: mask', x :: row' =>
      if b then x :: compress mask' row' else compress mask' row'
  | _, _ => []
  end.

(** [a[i] = v]; an index out of range raises. *)
Definition setitem {A} (a : list A) (i : nat) (v : A) : outcome (list A) :=
  if (i <? length a)%nat then Val (firstn i a ++ v :: skipn (S i) a)
  else Exc IndexError.

(** [a[i]]. *)
Definition getitem {A} (a : list A) (i : nat) : outcome A :=
  match nth_error a i with
  | Some x => Val x
  | None => Exc IndexError
  end.

(** [a[i, :] = row] for an array with [p] columns: [row] has [p]
    entries, or one entry that is repeated. *)
Definition set_row {A} (a : list (list A)) (p i : nat) (row : list A)
  : outcome (list (list A)) :=
  if (length row =? p)%nat then setitem a i row
  else match row with
       | [x] => setitem a i (repeat x p)
       | _ => Exc ValueError
       end.

(** [np.mean(a, 0)] for a Boolean array with [p] columns. *)
Definition count_col (a : list (list bool)) (j : nat) : nat :=
  length (filter (fun row => nth j row false) a).
Definition mean_axis0 (a : list (list bool)) (p : nat) : vec :=
  map (fun j => (of_nat (count_col a j) / of_nat (length a))%F) (seq 0 p).

(** [np.argmax(a)]: the first index of the maximum, a NaN counting as
    the maximum; [None] stands for the [ValueError] on an empty array. *)
Definition exceeds (x best : pyfloat) : bool :=
  match best, x with
  | NaN, _ => false
  | _, NaN => true
  | _, _ => (best <? x)%F
  end.
Fixpoint argmax_from (best : pyfloat) (bi i : nat) (l : vec) : nat :=
  match l with
  | [] => bi
  | x :: l' =>
      if exceeds x best then argmax_from x i (S i) l'
      else argmax_from best bi (S i) l'
  end.
Definition argmax (l : vec) : option nat :=
  match l with
  | [] => None
  | x :: l' => Some (argmax_from x 0 1 l')
  end.

(** [range(lo, hi)]. *)
Definition range (lo hi : Z) : list Z :=
  map (fun k => (lo + Z.of_nat k)%Z) (seq 0 (Z.to_nat (hi - lo))).

(** [a.shape] of a two-dimensional array given by its rows. *)
Definition shape (a : matrix) : nat * nat :=
  (length a, match a with r :: _ => length r | [] => 0%nat end).

End Np.

(* ================================================================= *)
(** ** The bytes of a float64 array

    [arr.data.tobytes()] of a NumPy array of dtype float64 is the
    concatenation of the IEEE 754 binary64 patterns of its elements,
    eight bytes each, the least significant first (on the usual
    little-endian machines).  A pattern has a sign bit, eleven bits of
    exponent and fifty-two bits of fraction; the two zeros differ in
    the sign bit only. *)

Module Float64.

Local Open Scope Z_scope.

Record float64 : Type := {
  sign : bool;
  exponent : Z;     (* 0 .. 2047 *)
  fraction : Z      (* 0 .. 2^52 - 1 *)
}.

(** The number that a pattern stands for. *)
Definition value (x : float64) : pyfloat :=
  let s := if sign x then -1 else 1 in
  if exponent x =? 2047 then
    if fraction x =? 0 then (if sign x then NInf else PInf) else NaN
  else if exponent x =? 0 then
    Fin (Qred (inject_Z (s * fraction x) * Qpower 2 (-1074)))
  else
    Fin (Qred (inject_Z (s * (2 ^ 52 + fraction x)) * Qpower 2 (exponent x - 1075))).

(** The pattern as a number of 64 bits. *)
Definition bits (x : float64) : Z :=
  (if sign x then 2 ^ 63 else 0) + exponent x * 2 ^ 52 + fraction x.

Definition byte_of (z : Z) : Byte.byte :=
  match Byte.of_N (Z.to_N (z mod 256)) with
  | Some b => b
  | None => Byte.x00
  end.

Definition element_bytes (x : float64) : list Byte.byte :=
  map (fun i => byte_of (bits x / 256 ^ Z.of_nat i)) (seq 0 8).

Definition tobytes (a : list float64) : list Byte.byte :=
  flat_map element_bytes a.

(** [0.0] and [-0.0]. *)
Definition zero (negative : bool) : float64 :=
  {| sign := negative; exponent := 0; fraction := 0 |}.

(** [1.0], for comparison. *)
Definition one : float64 := {| sign := false; exponent := 1023; fraction := 0 |}.

End Float64.

(* ================================================================= *)
(** ** cachetools

    [cachetools.Cache] is the plain bounded mapping of the library (the
    class that [LRUCache], [LFUCache] and the others derive from).  Its
    items live in a [dict], which iterates in insertion order; every item
    has size 1 ([getsizeof] is not given).  It has no [__missing__], and
    its [popitem] is the one of [MutableMapping]: it removes the first
    key of the iteration. *)

Module Cachetools.

Section Cache.
Variable V : Type.

Record Cache : Type := mkCache {
  maxsize : nat;
  data : list (Z * V)
}.

Definition new (n : nat) : Cache := mkCache n [].

Definition currsize (c : Cache) : nat := length (data c).

Definition keys (c : Cache) : list Z := map fst (data c).

Fixpoint assoc (k : Z) (d : list (Z * V)) : option V :=
  match d with
  | [] => None
  | (k', v) :: d' => if (k =? k')%Z then Some v else assoc k d'
  end.

(** [d[k] = v] on a dict: an existing key keeps its place. *)
Fixpoint store (k : Z) (v : V) (d : list (Z * V)) : list (Z * V) :=
  match d with
  | [] => [(k, v)]
  | (k', v') :: d' =>
      if (k =? k')%Z then (k, v) :: d' else (k', v') :: store k v d'
  end.

(** [c[k]]; [None] stands for [KeyError]. *)
Definition getitem (c : Cache) (k : Z) : option V := assoc k (data c).

(** [c.popitem()]; [None] stands for [KeyError] on an empty cache. *)
Definition popitem (c : Cache) : option ((Z * V) * Cache) :=
  match data c with
  | [] => None
  | kv :: d' => Some (kv, mkCache (maxsize c) d')
  end.

(** [while currsize + 1 > maxsize: popitem()]. *)
Fixpoint make_room (n : nat) (d : list (Z * V)) : list (Z * V) :=
  match d with
  | [] => []
  | _ :: d' => if (n <? S (length d') + 1)%nat then make_room n d' else d
  end.

(** [c[k] = v]; [None] stands for [ValueError("value too large")]. *)
Definition setitem (c : Cache) (k : Z) (v : V) : option Cache :=
  if (maxsize c <? 1)%nat then None
  else
    let d := match assoc k (data c) with
             | None => make_room (maxsize c) (data c)
             | Some _ => data c
             end in
    Some (mkCache (maxsize c) (store k v d)).

(** What one call of a [cachedmethod] does to its cache when the
    method's result on a miss is [v]: a hit leaves the cache as it is,
    a miss stores the result (and ignores "value too large"). *)
Definition call (c : Cache) (k : Z) (v : V) : Cache :=
  match getitem c k with
  | Some _ => c
  | None => match setitem c k v with
            | Some c' => c'
            | None => c
            end
  end.

End Cache.

(** *** Two replacement policies on key sequences

    The queue lists the cached keys, next victim first.  Under
    first-in-first-out a hit changes nothing; under least-recently-used
    a hit moves the key to the back. *)

Definition mem (k : Z) (q : list Z) : bool := existsb (Z.eqb k) q.

Definition enqueue (cap : nat) (q : list Z) (k : Z) : list Z :=
  if (length q <? cap)%nat then q ++ [k] else tl q ++ [k].

Definition fifo_step (cap : nat) (q : list Z) (k : Z) : list Z :=
  if mem k q then q else enqueue cap q k.

Definition lru_step (cap : nat) (q : list Z) (k : Z) : list Z :=
  if mem k q then filter (fun k' => negb (k =? k')%Z) q ++ [k]
  else enqueue cap q k.

Definition fifo (cap : nat) (ks : list Z) : list Z := fold_left (fifo_step cap) ks [].
Definition lru (cap : nat) (ks : list Z) : list Z := fold_left (lru_step cap) ks [].

(** The cache after a sequence of memoised calls with keys [ks]. *)
Definition calls {V} (v : Z -> V) (c : Cache V) (ks : list Z) : Cache V :=
  fold_left (fun c k => call c k (v k)) ks c.

End Cachetools.

(* ================================================================= *)
(** ** Sampler strategies *)

(** A sampler's [one(x0)] as a strategy: it evaluates its log-density
    at candidates of its choice, one after the other, and finally
    returns a value or fails.  [G] is the state of the random generator,
    recorded at every step; the answers are what the log-density
    returned.  A strategy is a well-founded tree: every run ends. *)
Inductive qtree (G X : Type) : Type :=
| Ret (x : X) (g : G)
| Ask (c : X) (g : G) (k : pyfloat -> qtree G X)
| Abort (e : exn) (g : G).
Arguments Ret {G X} x g.
Arguments Ask {G X} c g k.
Arguments Abort {G X} e g.

(* ================================================================= *)
(** ** Frozen SciPy distributions *)

Module Scipy.

(** [scipy.stats.norm(loc=, scale=)]. *)
Record norm_frozen : Type := norm { norm_loc : pyfloat; norm_scale : pyfloat }.
(** [scipy.stats.gamma(a, scale=)]. *)
Record gamma_frozen : Type := gamma { gamma_a : pyfloat; gamma_scale : pyfloat }.
(** [scipy.stats.beta(a, b)]. *)
Record beta_frozen : Type := beta { beta_a : pyfloat; beta_b : pyfloat }.

(** The moments: SciPy answers NaN when the parameters are not valid
    (a shape or a scale that is not positive). *)
Definition norm_mean (d : norm_frozen) : pyfloat :=
  if (f0 <? norm_scale d)%F then norm_loc d else NaN.
Definition norm_std (d : norm_frozen) : pyfloat :=
  if (f0 <? norm_scale d)%F then norm_scale d else NaN.
Definition norm_var (d : norm_frozen) : pyfloat :=
  if (f0 <? norm_scale d)%F then (norm_scale d * norm_scale d)%F else NaN.

Definition gamma_mean (d : gamma_frozen) : pyfloat :=
  if (f0 <? gamma_a d)%F && (f0 <? gamma_scale d)%F
  then (gamma_a d * gamma_scale d)%F else NaN.

Definition beta_mean (d : beta_frozen) : pyfloat :=
  if (f0 <? beta_a d)%F && (f0 <? beta_b d)%F
  then (beta_a d / (beta_a d + beta_b d))%F else NaN.

End Scipy.
Import Scipy.

(** Python's [x / y] on two floats. *)
Definition py_div (x y : pyfloat) : outcome pyfloat :=
  match y with
  | Fin b => if Qeq_bool b 0 then Exc ZeroDivisionError else Val (x / y)%F
  | _ => Val (x / y)%F
  end.

(* ================================================================= *)
(** ** What the class imports

    [Mvn] is [bss.mvn.Mvn], the samplers are [bss.samplers]; neither is
    part of the files at hand, so they are taken as given, and so are the
    functions of SciPy, NumPy's gamma variate and CPython's hashes of
    byte strings and tuples. *)

Class Externals : Type := {
  Mvn : Type;
  rng : Type;
  (** [Mvn(cov=, min_eigenval=, jitter=)]; [None] for an argument that
      is left to the default of [Mvn]. *)
  Mvn_init : matrix -> option pyfloat -> option pyfloat -> outcome Mvn;
  Mvn_cov : Mvn -> matrix;
  Mvn_logpdf : Mvn -> vec -> pyfloat -> outcome pyfloat;
  Mvn_maha : Mvn -> vec -> outcome pyfloat;
  Mvn_whiten : Mvn -> vec -> outcome vec;
  Mvn_correlate : Mvn -> vec -> outcome vec;
  Mvn_rvs : Mvn -> rng -> outcome vec * rng;
  (** [SliceSampler(f).one(x0)] and
      [EllipticalSliceSampler(normal_dist, f).one(x0)]. *)
  SliceSampler_one : pyfloat -> rng -> qtree rng pyfloat;
  EllipticalSliceSampler_one : Mvn -> vec -> rng -> qtree rng vec;
  (** [np.random.gamma(shape, scale)]. *)
  random_gamma : pyfloat -> pyfloat -> rng -> outcome pyfloat * rng;
  (** [scipy.stats]. *)
  norm_ppf : pyfloat -> pyfloat;
  norm_logpdf : norm_frozen -> pyfloat -> pyfloat;
  gamma_logpdf : gamma_frozen -> pyfloat -> pyfloat;
  beta_logpdf : beta_frozen -> pyfloat -> pyfloat;
  (** [arr.data.tobytes()], [hash] of a [bytes] object, and the way
      [hash] of a tuple combines the hashes of its items. *)
  tobytes : vec -> list Byte.byte;
  hash_bytes : list Byte.byte -> Z;
  hash_tuple : list Z -> Z
}.

(* ================================================================= *)
(** ** A stand-in for the imports

    A small instance of [Externals] on which the model runs by
    computation.  Its [Mvn] is the covariance it was built from and is
    refused when an entry is not finite; its log-density
    divides by the sum of that covariance's entries; its samplers
    evaluate the log-density at the current value and stay there
    (the slice sampler after proposing the current value anew); its gamma variate
    is the distribution's mean.  It serves to exhibit concrete runs; no
    statement about the model depends on it. *)

Module Toy.

Definition all_finite (m : matrix) : bool := forallb (forallb is_finite) m.

Definition toy_init (cov : matrix) (_ _ : option pyfloat) : outcome matrix :=
  if all_finite cov then Val cov else Exc ValueError.

Definition toy_transform (m : matrix) (y : vec) : outcome vec :=
  if (length y =? length m)%nat then Val y else Exc LinAlgError.

Definition toy_logpdf (m : matrix) (y : vec) (nu : pyfloat) : outcome pyfloat :=
  let v := fneg (nu * Np.inner y y / fold_left fadd (concat m) f0)%F in
  Val (if is_finite v then v else f0).

Definition toy_maha (m : matrix) (y : vec) : outcome pyfloat :=
  let v := Np.inner y y in
  Val (if is_finite v && (f0 <=? v)%F then v else f0).

(** The slice sampler asks for the density at [x0], sets the level
    there, proposes [x0] and accepts it. *)
Definition toy_slice (x0 : pyfloat) (g : nat) : qtree nat pyfloat :=
  Ask x0 g (fun v0 =>
    if is_nonzero x0 then
      Ask x0 (S g) (fun v =>
        if (v0 - f0 <=? v)%F then Ret x0 (S (S g))
        else Abort RuntimeError (S (S g)))
    else Abort RuntimeError (S g)).

Definition toy_elliptical (x0 : vec) (g : nat) : qtree nat vec :=
  Ask x0 g (fun _ => Ret x0 (S g)).

Definition toy_gamma (shape scale : pyfloat) (g : nat) : outcome pyfloat * nat :=
  if (shape <? f0)%F || (scale <? f0)%F then (Exc ValueError, g)
  else (Val (shape * scale)%F, S g).

Definition externals : Externals := {|
  Mvn := matrix;
  rng := nat;
  Mvn_init := toy_init;
  Mvn_cov := fun m => m;
  Mvn_logpdf := toy_logpdf;
  Mvn_maha := toy_maha;
  Mvn_whiten := toy_transform;
  Mvn_correlate := toy_transform;
  Mvn_rvs := fun m g => (Val (Np.zeros (length m)), S g);
  SliceSampler_one := toy_slice;
  EllipticalSliceSampler_one := fun _ => toy_elliptical;
  random_gamma := toy_gamma;
  norm_ppf := fun p => (p + p)%F;
  norm_logpdf := fun _ _ => f0;
  gamma_logpdf := fun _ _ => f0;
  beta_logpdf := fun _ _ => f0;
  tobytes := fun v => repeat Byte.x00 (length v);
  hash_bytes := fun b => Z.of_nat (length b);
  hash_tuple := fun l => fold_left (fun acc h => (acc * 31 + h)%Z) l 7%Z
|}.

Definition no_mvn : @Mvn externals := ([] : matrix).

(** A second stand-in, whose [Mvn] is sensitive to the covariance it
    was built from, any covariance being taken: the distance divides by
    the first entry of the covariance, whitening divides by it and
    correlating multiplies by it (a covariance of one row and one column
    acts so, up to a square root); a variate is the vector of ones.
    Its slice sampler asks for the density at [x0], sets the level
    there, proposes the number [c] and returns it when the density at
    [c] is not below the level.  Its hash of a byte string is the
    number that the bytes spell, little end first (CPython's is seeded
    anew in every process). *)

Definition first_entry (m : matrix) : pyfloat :=
  match m with
  | (x :: _) :: _ => x
  | _ => f1
  end.

Definition scaled_maha (m : matrix) (y : vec) : outcome pyfloat :=
  let v := (Np.inner y y / first_entry m)%F in
  Val (if is_finite v && (f0 <=? v)%F then v else f0).

Definition scaled_whiten (m : matrix) (y : vec) : outcome vec :=
  if (length y =? length m)%nat
  then Val (map (fun x => (x / first_entry m)%F) y)
  else Exc LinAlgError.

Definition scaled_correlate (m : matrix) (z : vec) : outcome vec :=
  if (length z =? length m)%nat
  then Val (map (fun x => (x * first_entry m)%F) z)
  else Exc LinAlgError.

Definition propose (c x0 : pyfloat) (g : nat) : qtree nat pyfloat :=
  Ask x0 g (fun v0 =>
    Ask c (S g) (fun v =>
      if (v0 - f0 <=? v)%F then Ret c (S (S g))
      else Abort RuntimeError (S (S g)))).

Definition number_of_bytes (b : list Byte.byte) : Z :=
  fold_right (fun x acc => (Z.of_N (Byte.to_N x) + 256 * acc)%Z) 0%Z b.

Definition proposing (c : pyfloat) : Externals := {|
  Mvn := matrix;
  rng := nat;
  Mvn_init := fun cov _ _ => Val cov;
  Mvn_cov := fun m => m;
  Mvn_logpdf := toy_logpdf;
  Mvn_maha := scaled_maha;
  Mvn_whiten := scaled_whiten;
  Mvn_correlate := scaled_correlate;
  Mvn_rvs := fun m g => (Val (repeat f1 (length m)), S g);
  SliceSampler_one := propose c;
  EllipticalSliceSampler_one := fun _ => toy_elliptical;
  random_gamma := toy_gamma;
  norm_ppf := fun p => (p + p)%F;
  norm_logpdf := fun _ _ => f0;
  gamma_logpdf := fun _ _ => f0;
  beta_logpdf := fun _ _ => f0;
  tobytes := fun v => repeat Byte.x00 (length v);
  hash_bytes := number_of_bytes;
  hash_tuple := fun l => fold_left (fun acc h => (acc * 31 + h)%Z) l 7%Z
|}.

(** One sample, one predictor. *)
Definition X1 : matrix := [[f1]].
Definition Y1 : vec := [f1].
Definition R1 : matrix := [[f1]].

End Toy.

(* ================================================================= *)
(** ** The model *)

Module Model.
Import Cachetools.

(** The methods whose entry is recorded in the ghost trace. *)
Inductive method : Type :=
| m_update_parameters
| m_update_gamma
| m_update_gamma0
| m_update_lambda
| m_update_nu
| m_update_xi.

(** The ghost trace: calls that leave the class, the progress line of
    [run_mcmc] and the entries of the update methods. *)
Inductive event : Type :=
| Ev_Mvn (cov : matrix)
| Ev_SliceSampler (x0 : pyfloat)
| Ev_EllipticalSliceSampler (x0 : vec)
| Ev_random_gamma (shape scale : pyfloat)
| Ev_logger_info (i : Z) (iters : nat) (log_joint gamma0 lamb nu xi : pyfloat)
| Ev_enter (m : method).

(** An item of the tuple that [_cache_key] hashes. *)
Inductive item : Type :=
| ItemInt (z : Z)
| ItemFloat (x : pyfloat).

(** An argument of a memoised method. *)
Inductive arg : Type :=
| ArgArray (a : vec)
| ArgFloat (x : pyfloat).

(** The arguments of [__init__]. *)
Record init_args : Type := {
  arg_X : matrix;
  arg_Y : vec;
  arg_R : matrix;
  target_sparsity : pyfloat;
  gamma0_v : pyfloat;
  lambda_params : pyfloat * pyfloat;
  nu_params : pyfloat * pyfloat;
  arg_xi : option pyfloat;
  xi_prior_shape : pyfloat * pyfloat;
  arg_check_finite : bool;
  min_eigenval : pyfloat;
  jitter : pyfloat
}.

(** The signature's defaults. *)
Definition default_args (X : matrix) (Y : vec) (R : matrix) : init_args := {|
  arg_X := X; arg_Y := Y; arg_R := R;
  target_sparsity := f0_01;
  gamma0_v := f1;
  lambda_params := (f1e_6, f1e_6);
  nu_params := (f1e_6, f1e_6);
  arg_xi := Some f0_999999;
  xi_prior_shape := (f1, f1);
  arg_check_finite := true;
  min_eigenval := f0;
  jitter := f1e_6
|}.

(** Readings of the ghost trace. *)
Definition method_eqb (m m' : method) : bool :=
  match m, m' with
  | m_update_parameters, m_update_parameters
  | m_update_gamma, m_update_gamma
  | m_update_gamma0, m_update_gamma0
  | m_update_lambda, m_update_lambda
  | m_update_nu, m_update_nu
  | m_update_xi, m_update_xi => true
  | _, _ => false
  end.

Definition is_enter (m : method) (ev : event) : bool :=
  match ev with
  | Ev_enter m' => method_eqb m m'
  | _ => false
  end.

Definition is_sampler_call (ev : event) : bool :=
  match ev with
  | Ev_SliceSampler _ | Ev_EllipticalSliceSampler _ => true
  | _ => false
  end.

Definition is_Mvn (ev : event) : bool :=
  match ev with
  | Ev_Mvn _ => true
  | _ => false
  end.

(** How often method [m] was entered, how often a sampler was invoked,
    how many [Mvn] objects were constructed. *)
Definition entries (m : method) (t : list event) : nat :=
  length (filter (is_enter m) t).
Definition sampler_calls (t : list event) : nat :=
  length (filter is_sampler_call t).
Definition constructions (t : list event) : nat :=
  length (filter is_Mvn t).

Section WithExternals.
Context {E : Externals}.

(** The attributes of a [Probit] object. *)
Record Probit : Type := {
  X : matrix;
  Y : vec;
  R : Mvn;
  N : nat;
  P : nat;
  nu_a : pyfloat;
  nu_b : pyfloat;
  check_finite : bool;
  sample_xi : bool;
  _xi_distribution : option beta_frozen;
  xi : pyfloat;
  _gamma0_distribution : norm_frozen;
  gamma0 : pyfloat;
  _lambda_distribution : gamma_frozen;
  lamb : pyfloat;
  _nu_distribution : gamma_frozen;
  nu : pyfloat;
  _probit_cache : Cache Mvn;
  _ppi_cache : Cache Mvn;
  gamma : vec
}.

Record world : Type := {
  self : Probit;
  rand : rng;
  trace : list event   (* most recent first *)
}.

Definition M (A : Type) : Type := world -> outcome A * world.

Definition ret {A} (a : A) : M A := fun w => (Val a, w).
Definition raise {A} (e : exn) : M A := fun w => (Exc e, w).
Definition bind {A B} (c : M A) (k : A -> M B) : M B :=
  fun w => match c w with
           | (Val a, w') => k a w'
           | (Exc e, w') => (Exc e, w')
           end.
Definition lift {A} (o : outcome A) : M A := fun w => (o, w).

(** [try: c  except e: h]. *)
Definition try_except {A} (c : M A) (e : exn) (h : M A) : M A :=
  fun w => match c w with
           | (Val a, w') => (Val a, w')
           | (Exc e', w') => if exn_eqb e e' then h w' else (Exc e', w')
           end.

Definition with_self (f : Probit -> Probit) (w : world) : world :=
  {| self := f (self w); rand := rand w; trace := trace w |}.
Definition with_rand (g : rng) (w : world) : world :=
  {| self := self w; rand := g; trace := trace w |}.
Definition with_event (ev : event) (w : world) : world :=
  {| self := self w; rand := rand w; trace := ev :: trace w |}.

Definition get {A} (f : Probit -> A) : M A := fun w => (Val (f (self w)), w).
Definition modify (f : Probit -> Probit) : M unit :=
  fun w => (Val tt, with_self f w).
Definition tell (ev : event) : M unit :=
  fun w => (Val tt, with_event ev w).
Definition set_rand (g : rng) : M unit :=
  fun w => (Val tt, with_rand g w).
(** A call that draws from the generator. *)
Definition draw {A} (f : rng -> outcome A * rng) : M A :=
  fun w => (fst (f (rand w)), with_rand (snd (f (rand w))) w).

(** Attribute assignment, [self.f = v]. *)
Definition set_gamma (v : vec) (s : Probit) : Probit :=
  {| X := X s; Y := Y s; R := R s; N := N s; P := P s; nu_a := nu_a s; nu_b := nu_b s; check_finite := check_finite s; sample_xi := sample_xi s; _xi_distribution := _xi_distribution s; xi := xi s; _gamma0_distribution := _gamma0_distribution s; gamma0 := gamma0 s; _lambda_distribution := _lambda_distribution s; lamb := lamb s; _nu_distribution := _nu_distribution s; nu := nu s; _probit_cache := _probit_cache s; _ppi_cache := _ppi_cache s; gamma := v |}.
Definition set_gamma0 (v : pyfloat) (s : Probit) : Probit :=
  {| X := X s; Y := Y s; R := R s; N := N s; P := P s; nu_a := nu_a s; nu_b := nu_b s; check_finite := check_finite s; sample_xi := sample_xi s; _xi_distribution := _xi_distribution s; xi := xi s; _gamma0_distribution := _gamma0_distribution s; gamma0 := v; _lambda_distribution := _lambda_distribution s; lamb := lamb s; _nu_distribution := _nu_distribution s; nu := nu s; _probit_cache := _probit_cache s; _ppi_cache := _ppi_cache s; gamma := gamma s |}.
Definition set_lamb (v : pyfloat) (s : Probit) : Probit :=
  {| X := X s; Y := Y s; R := R s; N := N s; P := P s; nu_a := nu_a s; nu_b := nu_b s; check_finite := check_finite s; sample_xi := sample_xi s; _xi_distribution := _xi_distribution s; xi := xi s; _gamma0_distribution := _gamma0_distribution s; gamma0 := gamma0 s; _lambda_distribution := _lambda_distribution s; lamb := v; _nu_distribution := _nu_distribution s; nu := nu s; _probit_cache := _probit_cache s; _ppi_cache := _ppi_cache s; gamma := gamma s |}.
Definition set_nu (v : pyfloat) (s : Probit) : Probit :=
  {| X := X s; Y := Y s; R := R s; N := N s; P := P s; nu_a := nu_a s; nu_b := nu_b s; check_finite := check_finite s; sample_xi := sample_xi s; _xi_distribution := _xi_distribution s; xi := xi s; _gamma0_distribution := _gamma0_distribution s; gamma0 := gamma0 s; _lambda_distribution := _lambda_distribution s; lamb := lamb s; _nu_distribution := _nu_distribution s; nu := v; _probit_cache := _probit_cache s; _ppi_cache := _ppi_cache s; gamma := gamma s |}.
Definition set_xi (v : pyfloat) (s : Probit) : Probit :=
  {| X := X s; Y := Y s; R := R s; N := N s; P := P s; nu_a := nu_a s; nu_b := nu_b s; check_finite := check_finite s; sample_xi := sample_xi s; _xi_distribution := _xi_distribution s; xi := v; _gamma0_distribution := _gamma0_distribution s; gamma0 := gamma0 s; _lambda_distribution := _lambda_distribution s; lamb := lamb s; _nu_distribution := _nu_distribution s; nu := nu s; _probit_cache := _probit_cache s; _ppi_cache := _ppi_cache s; gamma := gamma s |}.
Definition set_probit_cache (v : Cache Mvn) (s : Probit) : Probit :=
  {| X := X s; Y := Y s; R := R s; N := N s; P := P s; nu_a := nu_a s; nu_b := nu_b s; check_finite := check_finite s; sample_xi := sample_xi s; _xi_distribution := _xi_distribution s; xi := xi s; _gamma0_distribution := _gamma0_distribution s; gamma0 := gamma0 s; _lambda_distribution := _lambda_distribution s; lamb := lamb s; _nu_distribution := _nu_distribution s; nu := nu s; _probit_cache := v; _ppi_cache := _ppi_cache s; gamma := gamma s |}.
Definition set_ppi_cache (v : Cache Mvn) (s : Probit) : Probit :=
  {| X := X s; Y := Y s; R := R s; N := N s; P := P s; nu_a := nu_a s; nu_b := nu_b s; check_finite := check_finite s; sample_xi := sample_xi s; _xi_distribution := _xi_distribution s; xi := xi s; _gamma0_distribution := _gamma0_distribution s; gamma0 := gamma0 s; _lambda_distribution := _lambda_distribution s; lamb := lamb s; _nu_distribution := _nu_distribution s; nu := nu s; _probit_cache := _probit_cache s; _ppi_cache := v; gamma := gamma s |}.

#[local] Notation "x <- c ;; k" := (bind c (fun x => k))
  (at level 61, c at next level, right associativity).
#[local] Notation "c ;;; k" := (bind c (fun _ => k))
  (at level 61, right associativity).


Definition get_rand : M rng := fun w => (Val (rand w), w).

(** [try: c  except e: (nothing)], telling whether [c] returned. *)
Definition attempt {A} (c : M A) (e : exn) : M (option A) :=
  try_except (a <- c ;; ret (Some a)) e (ret None).

(** Running a sampler's strategy against a log-density closure [f]:
    an exception of [f] leaves the sampler. *)
Fixpoint run_sampler {A} (f : A -> M pyfloat) (t : qtree rng A) : M A :=
  match t with
  | Ret x g => set_rand g ;;; ret x
  | Ask c g k => set_rand g ;;; v <- f c ;; run_sampler f (k v)
  | Abort e g => set_rand g ;;; raise e
  end.

(** [Mvn(cov=...)], recorded in the ghost trace. *)
Definition new_Mvn (cov : matrix) (min_eigenval jitter : option pyfloat) : M Mvn :=
  tell (Ev_Mvn cov) ;;; lift (Mvn_init cov min_eigenval jitter).

(* ----------------------------------------------------------------- *)
(** *** The cache key and the memoised methods *)

Definition item_hash (i : item) : Z :=
  match i with
  | ItemInt z => PyHash.hash_int z
  | ItemFloat x => PyHash.hash_float x
  end.

(** [hash(t)] for a tuple [t] of numbers. *)
Definition py_hash_tuple (t : list item) : Z := hash_tuple (map item_hash t).

Definition _cache_key (args : list arg) : Z :=
  py_hash_tuple
    (map (fun a => match a with
                   | ArgArray v => ItemInt (hash_bytes (tobytes v))
                   | ArgFloat x => ItemFloat x
                   end) args).

(** [@cachedmethod(cache=attrgetter(...), key=_cache_key)] around
    [method]: look the key up, on [KeyError] run the method and store
    its result, ignoring [ValueError]. *)
Definition cachedmethod (cache : Probit -> Cache Mvn)
    (set_cache : Cache Mvn -> Probit -> Probit)
    (k : Z) (method : M Mvn) : M Mvn :=
  c <- get cache ;;
  match getitem c k with
  | Some v => ret v
  | None =>
      v <- method ;;
      c' <- get cache ;;
      match setitem c' k v with
      | Some c'' => modify (set_cache c'') ;;; ret v
      | None => ret v
      end
  end.

Definition probit_cov (s : Probit) (xi : pyfloat) : matrix :=
  Np.add (Np.scale xi (Mvn_cov (R s))) (Np.scale (f1 - xi)%F (Np.eye (P s))).

Definition probit_distribution (xi : pyfloat) : M Mvn :=
  cachedmethod _probit_cache set_probit_cache (_cache_key [ArgFloat xi])
    (s <- get id ;; new_Mvn (probit_cov s xi) None None).

(** [(np.dot(X, X.T) + np.ones((N, N))) / lamb + np.eye(N)] for the
    masked [X]. *)
Definition ppi_cov (s : Probit) (Xm : matrix) (lamb : pyfloat) : matrix :=
  Np.add (Np.div_scalar (Np.add (Np.dot_transpose Xm) (Np.ones (N s) (N s))) lamb)
         (Np.eye (N s)).

Definition ppi_distribution (gamma : vec) (gamma0 lamb : pyfloat) : M Mvn :=
  cachedmethod _ppi_cache set_ppi_cache
    (_cache_key [ArgArray gamma; ArgFloat gamma0; ArgFloat lamb])
    (s <- get id ;;
     let mask := Np.gt_scalar gamma gamma0 in
     (* X[:, mask]: the mask has one entry per column *)
     if (length mask =? snd (Np.shape (X s)))%nat then
       new_Mvn (ppi_cov s (map (Np.compress mask) (X s)) lamb) None None
     else raise IndexError).

(* ----------------------------------------------------------------- *)
(** *** Log-densities *)

Definition log_marg_like (gamma : vec) (gamma0 lamb nu : pyfloat) : M pyfloat :=
  d <- ppi_distribution gamma gamma0 lamb ;;
  y <- get Y ;;
  lift (Mvn_logpdf d y nu).

Definition xi_logpdf (x : pyfloat) : M pyfloat :=
  d <- get _xi_distribution ;;
  match d with
  | Some d => ret (beta_logpdf d x)
  | None => raise AttributeError
  end.

(** Python's [sum] of a list of floats: it starts from [0]. *)
Definition py_sum (l : list pyfloat) : pyfloat := fold_left fadd l f0.

Definition log_joint : M pyfloat :=
  s <- get id ;;
  a <- log_marg_like (gamma s) (gamma0 s) (lamb s) (nu s) ;;
  let b := norm_logpdf (_gamma0_distribution s) (gamma0 s) in
  let c := gamma_logpdf (_nu_distribution s) (nu s) in
  let d := gamma_logpdf (_lambda_distribution s) (lamb s) in
  m <- probit_distribution (xi s) ;;
  e <- lift (Mvn_logpdf m (gamma s) f1) ;;
  f <- (if sample_xi s then xi_logpdf (xi s) else ret f0) ;;
  ret (py_sum [a; b; c; d; e; f]).

(* ----------------------------------------------------------------- *)
(** *** The parameter updates *)

Definition update_gamma : M unit :=
  tell (Ev_enter m_update_gamma) ;;;
  s <- get id ;;
  normal_dist <- probit_distribution (xi s) ;;
  let log_like_fn := fun g : vec =>
    s' <- get id ;; log_marg_like g (gamma0 s') (lamb s') (nu s') in
  tell (Ev_EllipticalSliceSampler (gamma s)) ;;;
  r <- get_rand ;;
  x <- run_sampler log_like_fn (EllipticalSliceSampler_one normal_dist (gamma s) r) ;;
  modify (set_gamma x).

Definition update_nu : M unit :=
  tell (Ev_enter m_update_nu) ;;;
  s <- get id ;;
  ppi <- ppi_distribution (gamma s) (gamma0 s) (lamb s) ;;
  distance_sq <- lift (Mvn_maha ppi (Y s)) ;;
  let post_a := (nu_a s + fhalf * of_nat (N s))%F in
  let post_b := (nu_b s + fhalf * distance_sq)%F in
  tell (Ev_random_gamma post_a (f1 / post_b)%F) ;;;
  v <- draw (random_gamma post_a (f1 / post_b)%F) ;;
  modify (set_nu v).

(** The closure [slice_fn] of [update_lambda]. *)
Definition lambda_slice_fn (l : pyfloat) : M pyfloat :=
  if (l <? f0)%F then ret NInf
  else
    s <- get id ;;
    v <- log_marg_like (gamma s) (gamma0 s) l (nu s) ;;
    ret (v + gamma_logpdf (_lambda_distribution s) l)%F.

Definition update_lambda : M unit :=
  tell (Ev_enter m_update_lambda) ;;;
  x0 <- get lamb ;;
  tell (Ev_SliceSampler x0) ;;;
  r <- get_rand ;;
  x <- run_sampler lambda_slice_fn (SliceSampler_one x0 r) ;;
  modify (set_lamb x).

(** The closure [slice_fn] of [update_gamma0]. *)
Definition gamma0_slice_fn (g0 : pyfloat) : M pyfloat :=
  s <- get id ;;
  v <- log_marg_like (gamma s) g0 (lamb s) (nu s) ;;
  ret (v + norm_logpdf (_gamma0_distribution s) g0)%F.

Definition update_gamma0 : M unit :=
  tell (Ev_enter m_update_gamma0) ;;;
  x0 <- get gamma0 ;;
  tell (Ev_SliceSampler x0) ;;;
  r <- get_rand ;;
  x <- run_sampler gamma0_slice_fn (SliceSampler_one x0 r) ;;
  modify (set_gamma0 x).

(** The closure [slice_fn] of [update_xi]; [whitened] is the variable
    of the enclosing call. *)
Definition xi_slice_fn (whitened : vec) (x : pyfloat) : M pyfloat :=
  if (x <=? f0)%F || (x >=? f1)%F then ret NInf
  else
    r <- attempt (d <- probit_distribution x ;; lift (Mvn_correlate d whitened))
                 LinAlgError ;;
    match r with
    | None => ret NInf
    | Some g =>
        s <- get id ;;
        v <- log_marg_like g (gamma0 s) (lamb s) (nu s) ;;
        p <- xi_logpdf x ;;
        ret (v + p)%F
    end.

Definition update_xi : M unit :=
  tell (Ev_enter m_update_xi) ;;;
  s <- get id ;;
  d <- probit_distribution (xi s) ;;
  whitened <- lift (Mvn_whiten d (gamma s)) ;;
  tell (Ev_SliceSampler (xi s)) ;;;
  r <- get_rand ;;
  x <- run_sampler (xi_slice_fn whitened) (SliceSampler_one (xi s) r) ;;
  modify (set_xi x) ;;;
  d' <- probit_distribution x ;;
  g <- lift (Mvn_correlate d' whitened) ;;
  modify (set_gamma g).

Definition update_parameters : M unit :=
  tell (Ev_enter m_update_parameters) ;;;
  update_gamma ;;;
  update_gamma0 ;;;
  update_lambda ;;;
  update_nu ;;;
  b <- get sample_xi ;;
  if b then update_xi else ret tt.


(* ----------------------------------------------------------------- *)
(** *** The constructor *)

(** [__init__]: the new object, or the exception that left the
    constructor.  The attribute [gamma] does not exist before the last
    statement; it is the empty array until then. *)
Definition __init__ (a : init_args) (g : rng) : outcome world :=
  match Mvn_init (arg_R a) (Some (min_eigenval a)) (Some (jitter a)) with
  | Exc e => Exc e
  | Val R_ =>
  let (N_, P_) := Np.shape (arg_X a) in
  let (nu_a_, nu_b_) := nu_params a in
  let '(sample_xi_, xi_distribution_, xi_) :=
    match arg_xi a with
    | None =>
        let d := Scipy.beta (fst (xi_prior_shape a)) (snd (xi_prior_shape a)) in
        (true, Some d, beta_mean d)
    | Some x => (false, None, x)
    end in
  let gamma0_distribution_ :=
    Scipy.norm (norm_ppf (f1 - target_sparsity a)%F) (gamma0_v a) in
  match py_div f1 (snd (lambda_params a)) with
  | Exc e => Exc e
  | Val lambda_scale =>
  let lambda_distribution_ := Scipy.gamma (fst (lambda_params a)) lambda_scale in
  match py_div f1 nu_b_ with
  | Exc e => Exc e
  | Val nu_scale =>
  let nu_distribution_ := Scipy.gamma nu_a_ nu_scale in
  let s := {|
    X := arg_X a; Y := arg_Y a; R := R_; N := N_; P := P_;
    nu_a := nu_a_; nu_b := nu_b_;
    check_finite := arg_check_finite a;
    sample_xi := sample_xi_;
    _xi_distribution := xi_distribution_;
    xi := xi_;
    _gamma0_distribution := gamma0_distribution_;
    gamma0 := norm_mean gamma0_distribution_;
    _lambda_distribution := lambda_distribution_;
    lamb := gamma_mean lambda_distribution_;
    _nu_distribution := nu_distribution_;
    nu := gamma_mean nu_distribution_;
    _probit_cache := Cachetools.new Mvn 4;
    _ppi_cache := Cachetools.new Mvn 8;
    gamma := []
  |} in
  let last :=
    d <- probit_distribution xi_ ;;
    v <- draw (Mvn_rvs d) ;;
    modify (set_gamma v) in
  match last {| self := s; rand := g; trace := [Ev_Mvn (arg_R a)] |} with
  | (Val _, w) => Val w
  | (Exc e, _) => Exc e
  end
  end end end.

(* ----------------------------------------------------------------- *)
(** *** The MCMC driver *)

(** The arrays that [run_mcmc] fills; all but the first exist in
    detailed mode only and are empty otherwise. *)
Record traces : Type := {
  logjoint_trace : vec;
  inclusion_trace : list (list bool);
  gamma0_trace : vec;
  lambda_trace : vec;
  nu_trace : vec;
  xi_trace : vec;
  loglike_trace : vec
}.

(** The dictionary that [run_mcmc] returns in detailed mode. *)
Record detailed_result : Type := {
  inclusion : vec * list bool;
  res_gamma0 : vec;
  res_lambda : vec;
  res_nu : vec;
  res_xi : vec;
  joint : vec;
  likelihood : vec
}.

Inductive mcmc_result : Type :=
| Plain (logjoint : vec)
| Detailed (d : detailed_result).

Definition initial_traces (iters p : nat) (detailed : bool) : traces :=
  if detailed then
    {| logjoint_trace := Np.zeros iters;
       inclusion_trace := repeat (repeat false p) iters;
       gamma0_trace := Np.zeros iters;
       lambda_trace := Np.zeros iters;
       nu_trace := Np.zeros iters;
       xi_trace := Np.zeros iters;
       loglike_trace := Np.zeros iters |}
  else
    {| logjoint_trace := Np.zeros iters;
       inclusion_trace := []; gamma0_trace := []; lambda_trace := [];
       nu_trace := []; xi_trace := []; loglike_trace := [] |}.

(** The statements under [if i >= 0:]. *)
Definition record_sweep (detailed : bool) (t : traces) (i : nat)
    (log_joint_ log_like : pyfloat) : M traces :=
  lj <- lift (Np.setitem (logjoint_trace t) i log_joint_) ;;
  if detailed then
    s <- get id ;;
    inc <- lift (Np.set_row (inclusion_trace t) (P s) i
                   (Np.gt_scalar (gamma s) (gamma0 s))) ;;
    g0 <- lift (Np.setitem (gamma0_trace t) i (gamma0 s)) ;;
    la <- lift (Np.setitem (lambda_trace t) i (lamb s)) ;;
    nu_ <- lift (Np.setitem (nu_trace t) i (nu s)) ;;
    xi_ <- lift (Np.setitem (xi_trace t) i (xi s)) ;;
    ll <- lift (Np.setitem (loglike_trace t) i log_like) ;;
    ret {| logjoint_trace := lj; inclusion_trace := inc; gamma0_trace := g0;
           lambda_trace := la; nu_trace := nu_; xi_trace := xi_;
           loglike_trace := ll |}
  else
    ret {| logjoint_trace := lj;
           inclusion_trace := inclusion_trace t;
           gamma0_trace := gamma0_trace t;
           lambda_trace := lambda_trace t;
           nu_trace := nu_trace t;
           xi_trace := xi_trace t;
           loglike_trace := loglike_trace t |}.

(** The body of the [for] loop. *)
Definition mcmc_step (iters : nat) (detailed : bool) (t : traces) (i : Z)
  : M traces :=
  log_joint_ <- log_joint ;;
  s <- get id ;;
  log_like <- log_marg_like (gamma s) (gamma0 s) (lamb s) (nu s) ;;
  tell (Ev_logger_info i iters log_joint_ (gamma0 s) (lamb s) (nu s) (xi s)) ;;;
  update_parameters ;;;
  if (0 <=? i)%Z then record_sweep detailed t (Z.to_nat i) log_joint_ log_like
  else ret t.

Fixpoint mcmc_loop (iters : nat) (detailed : bool) (indices : list Z)
    (t : traces) : M traces :=
  match indices with
  | [] => ret t
  | i :: rest =>
      t' <- mcmc_step iters detailed t i ;;
      mcmc_loop iters detailed rest t'
  end.

Definition run_mcmc (iters burn_in : nat) (detailed : bool) : M mcmc_result :=
  p <- get P ;;
  t <- mcmc_loop iters detailed
         (Np.range (- Z.of_nat burn_in) (Z.of_nat iters))
         (initial_traces iters p detailed) ;;
  if negb detailed then ret (Plain (logjoint_trace t))
  else
    let mean := Np.mean_axis0 (inclusion_trace t) p in
    match Np.argmax (logjoint_trace t) with
    | None => raise ValueError
    | Some j =>
        row <- lift (Np.getitem (inclusion_trace t) j) ;;
        ret (Detailed {| inclusion := (mean, row);
                         res_gamma0 := gamma0_trace t;
                         res_lambda := lambda_trace t;
                         res_nu := nu_trace t;
                         res_xi := xi_trace t;
                         joint := logjoint_trace t;
                         likelihood := loglike_trace t |})
    end.

End WithExternals.

Notation "x <- c ;; k" := (bind c (fun x => k))
  (at level 61, c at next level, right associativity).
Notation "c ;;; k" := (bind c (fun _ => k))
  (at level 61, right associativity).


(* ================================================================= *)
(** ** Notions used to state the properties *)

Section Specification.
Context {E : Externals}.

(** The attributes before the last statement of [__init__]. *)
Definition attributes_before_gamma (a : init_args) (R_ : Mvn)
    (lambda_scale nu_scale : pyfloat) : Probit :=
  let xi_dist :=
    match arg_xi a with
    | None => Some (Scipy.beta (fst (xi_prior_shape a)) (snd (xi_prior_shape a)))
    | Some _ => None
    end in
  let g0_dist := Scipy.norm (norm_ppf (f1 - target_sparsity a)%F) (gamma0_v a) in
  let l_dist := Scipy.gamma (fst (lambda_params a)) lambda_scale in
  let n_dist := Scipy.gamma (fst (nu_params a)) nu_scale in
  {| X := arg_X a; Y := arg_Y a; R := R_;
     N := fst (Np.shape (arg_X a)); P := snd (Np.shape (arg_X a));
     nu_a := fst (nu_params a); nu_b := snd (nu_params a);
     check_finite := arg_check_finite a;
     sample_xi := match arg_xi a with None => true | Some _ => false end;
     _xi_distribution := xi_dist;
     xi := match arg_xi a, xi_dist with
           | Some x, _ => x
           | None, Some d => beta_mean d
           | None, None => NaN
           end;
     _gamma0_distribution := g0_dist;
     gamma0 := norm_mean g0_dist;
     _lambda_distribution := l_dist;
     lamb := gamma_mean l_dist;
     _nu_distribution := n_dist;
     nu := gamma_mean n_dist;
     _probit_cache := Cachetools.new Mvn 4;
     _ppi_cache := Cachetools.new Mvn 8;
     gamma := [] |}.

(** The attributes that no method assigns, and the capacities of the
    caches. *)
Definition static (s : Probit) :=
  (X s, Y s, R s, N s, P s, nu_a s, nu_b s, check_finite s, sample_xi s,
   _xi_distribution s, _gamma0_distribution s, _lambda_distribution s,
   _nu_distribution s,
   maxsize (_probit_cache s), maxsize (_ppi_cache s)).

(** For a model whose [xi] is fixed: its value and how often
    [update_xi] was entered. *)
Definition xi_reading (w : world) : option (pyfloat * nat) :=
  if sample_xi (self w) then None
  else Some (xi (self w), entries m_update_xi (trace w)).

(** "A candidate outside the open interval (0,1)" and "a non-positive
    candidate": real numbers, or an infinity on that side. *)
Definition outside_unit_interval (x : pyfloat) : Prop :=
  match x with
  | Fin q => (q <= 0)%Q \/ (1 <= q)%Q
  | NInf | PInf => True
  | NaN => False
  end.

Definition non_positive (x : pyfloat) : Prop :=
  match x with
  | Fin q => (q <= 0)%Q
  | NInf => True
  | PInf | NaN => False
  end.

Definition negative (x : pyfloat) : Prop :=
  match x with
  | Fin q => (q < 0)%Q
  | NInf => True
  | PInf | NaN => False
  end.

(** Equality of two floats as numbers: Python's [==]. *)
Definition value_equal (x y : pyfloat) : Prop :=
  match x, y with
  | Fin a, Fin b => (a == b)%Q
  | PInf, PInf | NInf, NInf => True
  | _, _ => False
  end.

(** The unguarded part of [update_lambda]'s closure. *)
Definition lambda_density (l : pyfloat) : M pyfloat :=
  s <- get id ;;
  v <- log_marg_like (gamma s) (gamma0 s) l (nu s) ;;
  ret (v + gamma_logpdf (_lambda_distribution s) l)%F.

(** What one pass of the loop of [run_mcmc] yields: the two
    log-densities taken before the update and the parameters after it. *)
Record sample : Type := {
  s_joint : pyfloat;
  s_like : pyfloat;
  s_inclusion : list bool;
  s_gamma0 : pyfloat;
  s_lamb : pyfloat;
  s_nu : pyfloat;
  s_xi : pyfloat
}.

Definition sweep (iters : nat) (i : Z) : M sample :=
  log_joint_ <- log_joint ;;
  s <- get id ;;
  log_like <- log_marg_like (gamma s) (gamma0 s) (lamb s) (nu s) ;;
  tell (Ev_logger_info i iters log_joint_ (gamma0 s) (lamb s) (nu s) (xi s)) ;;;
  update_parameters ;;;
  s' <- get id ;;
  ret {| s_joint := log_joint_; s_like := log_like;
         s_inclusion := Np.gt_scalar (gamma s') (gamma0 s');
         s_gamma0 := gamma0 s'; s_lamb := lamb s'; s_nu := nu s';
         s_xi := xi s' |}.

Fixpoint sweeps (iters : nat) (indices : list Z) : M (list sample) :=
  match indices with
  | [] => ret []
  | i :: rest =>
      x <- sweep iters i ;;
      xs <- sweeps iters rest ;;
      ret (x :: xs)
  end.

(** The arrays of [run_mcmc] once the samples [kept] are recorded. *)
Definition filled (iters p : nat) (detailed : bool) (kept : list sample) : traces :=
  let rest := (iters - length kept)%nat in
  if detailed then
    {| logjoint_trace := map s_joint kept ++ Np.zeros rest;
       inclusion_trace := map s_inclusion kept ++ repeat (repeat false p) rest;
       gamma0_trace := map s_gamma0 kept ++ Np.zeros rest;
       lambda_trace := map s_lamb kept ++ Np.zeros rest;
       nu_trace := map s_nu kept ++ Np.zeros rest;
       xi_trace := map s_xi kept ++ Np.zeros rest;
       loglike_trace := map s_like kept ++ Np.zeros rest |}
  else
    {| logjoint_trace := map s_joint kept ++ Np.zeros rest;
       inclusion_trace := []; gamma0_trace := []; lambda_trace := [];
       nu_trace := []; xi_trace := []; loglike_trace := [] |}.

(** The dictionary made of the kept samples. *)
Definition detailed_of (p : nat) (kept : list sample) (j : nat) : detailed_result :=
  {| inclusion := (Np.mean_axis0 (map s_inclusion kept) p,
                   nth j (map s_inclusion kept) []);
     res_gamma0 := map s_gamma0 kept;
     res_lambda := map s_lamb kept;
     res_nu := map s_nu kept;
     res_xi := map s_xi kept;
     joint := map s_joint kept;
     likelihood := map s_like kept |}.

(** How often [update_parameters] was entered. *)
Definition sweeps_entered (w : world) : nat := entries m_update_parameters (trace w).

(** A method [c] preserves the reading [mu] of the world. *)
Definition preserves {A T} (mu : world -> T) (c : M A) : Prop :=
  forall w, mu (snd (c w)) = mu w.

(** The readings that neither the generator, nor the content of the
    caches, nor the construction of an [Mvn] can change. *)
Record insensitive {T} (mu : world -> T) : Prop := {
  ins_rand : forall g w, mu (with_rand g w) = mu w;
  ins_probit : forall c w,
    maxsize c = maxsize (_probit_cache (self w)) ->
    mu (with_self (set_probit_cache c) w) = mu w;
  ins_ppi : forall c w,
    maxsize c = maxsize (_ppi_cache (self w)) ->
    mu (with_self (set_ppi_cache c) w) = mu w;
  ins_Mvn : forall cov w, mu (with_event (Ev_Mvn cov) w) = mu w
}.

(* ----------------------------------------------------------------- *)
(** *** What the imports are taken to guarantee *)

Definition finite_vector (y : vec) : Prop := Forall (fun x => is_finite x = true) y.

Definition in_unit_interval (x : pyfloat) : Prop :=
  exists q, x = Fin q /\ (0 < q)%Q /\ (q < 1)%Q.

(** Modelled from the spec: [SliceSampler.one] (section 4.2) draws the
    level [y = f(x0) - Exp(1)], evaluates [f] at the ends of its
    bracket while stepping out, then at one candidate after the other,
    and returns a candidate [c] only when [f(c) >= y]. *)
Fixpoint accepts (y : pyfloat) (t : qtree rng pyfloat) : Prop :=
  match t with
  | Ret _ _ => False
  | Abort _ _ => True
  | Ask c _ k =>
      forall v,
        match k v with
        | Ret x _ => x = c /\ (y <=? v)%F = true
        | _ => accepts y (k v)
        end
  end.

(** Modelled from the spec: [one(x0)] first evaluates [f] at [x0] and
    sets the level an exponential variate below that value; what it
    does then is accepted by the level. *)
Definition slice_sampler_contract : Prop :=
  forall x0 g, exists g0 k,
    SliceSampler_one x0 g = Ask x0 g0 k /\
    forall v0, exists e, nonneg_real e /\ accepts (v0 - e)%F (k v0).

(** Every value that a strategy can return satisfies [Q]. *)
Fixpoint returns_only {A} (Q : A -> Prop) (t : qtree rng A) : Prop :=
  match t with
  | Ret x _ => Q x
  | Abort _ _ => True
  | Ask _ _ k => forall v, returns_only Q (k v)
  end.

(** Modelled from the spec: a candidate of [SliceSampler.one] is drawn
    uniformly from the current interval (section 4.2, step 3), whose
    ends step 2 has moved away from [x0] a bounded number of times: for
    a number [x0], what [one(x0)] returns is a number, not an infinity
    and not NaN.  This is kept apart from [slice_sampler_contract] and
    is assumed only where it is named. *)
Definition slice_sampler_returns_numbers : Prop :=
  forall x0 g,
    is_finite x0 = true ->
    returns_only (fun x => is_finite x = true) (SliceSampler_one x0 g).

(** Modelled from the spec: [EllipticalSliceSampler.one] (section 4.3)
    returns a point [x0 * cos(theta) + nu * sin(theta)] of the ellipse
    through [x0]: an array of the shape of [x0]. *)
Definition elliptical_sampler_contract : Prop :=
  forall d x0 g,
    returns_only (fun x : vec => length x = length x0)
                 (EllipticalSliceSampler_one d x0 g).

(** Modelled from the spec: [Mvn] (section 4.1).  The squared
    Mahalanobis distance of a finite vector is a non-negative number
    and its log-density, for a positive precision multiplier, a finite
    one; whitening and correlating keep the dimension, and correlating
    what the same distribution whitened succeeds; a variate has the
    dimension of the covariance, and so has the attribute [cov]. *)
Record Mvn_contract : Prop := {
  maha_nonneg : forall d y v,
    finite_vector y -> Mvn_maha d y = Val v -> nonneg_real v;
  logpdf_finite : forall d y n v,
    finite_vector y -> positive_real n -> Mvn_logpdf d y n = Val v ->
    is_finite v = true;
  whiten_length : forall d y z, Mvn_whiten d y = Val z -> length z = length y;
  correlate_length : forall d z y,
    Mvn_correlate d z = Val y -> length y = length z;
  correlate_whitened : forall d y z,
    Mvn_whiten d y = Val z -> exists y', Mvn_correlate d z = Val y';
  rvs_length : forall cov a b d g v g',
    Mvn_init cov a b = Val d -> Mvn_rvs d g = (Val v, g') ->
    length v = length cov;
  cov_length : forall cov a b d,
    Mvn_init cov a b = Val d -> length (Mvn_cov d) = length cov
}.

(** NumPy's gamma variate for a positive shape and scale is positive;
    SciPy's log-densities are finite inside the support. *)
Record library_contract : Prop := {
  gamma_variate_positive : forall a s g v g',
    positive_real a -> positive_real s ->
    random_gamma a s g = (Val v, g') -> positive_real v;
  beta_logpdf_finite : forall d x,
    positive_real (Scipy.beta_a d) -> positive_real (Scipy.beta_b d) ->
    in_unit_interval x -> is_finite (beta_logpdf d x) = true;
  gamma_logpdf_finite : forall d x,
    positive_real (Scipy.gamma_a d) -> positive_real (Scipy.gamma_scale d) ->
    positive_real x -> is_finite (gamma_logpdf d x) = true
}.

(* ----------------------------------------------------------------- *)
(** *** The invariant *)

(** The arguments that section 6 of the specification allows: [X] of
    [N] rows and [P] columns, [R] of [P] rows, positive shapes and
    rates, and an [xi] inside (0,1) or unset. *)
Definition valid_args (a : init_args) : Prop :=
  positive_real (fst (nu_params a)) /\ positive_real (snd (nu_params a)) /\
  positive_real (fst (lambda_params a)) /\ positive_real (snd (lambda_params a)) /\
  match arg_xi a with
  | Some x => in_unit_interval x
  | None => positive_real (fst (xi_prior_shape a)) /\
            positive_real (snd (xi_prior_shape a))
  end /\
  length (arg_R a) = snd (Np.shape (arg_X a)) /\
  finite_vector (arg_Y a).

(** What the constructor establishes once and for all. *)
Definition well_formed (s : Probit) : Prop :=
  P s = snd (Np.shape (X s)) /\
  finite_vector (Y s) /\
  positive_real (nu_a s) /\ positive_real (nu_b s) /\
  positive_real (Scipy.gamma_a (_lambda_distribution s)) /\
  positive_real (Scipy.gamma_scale (_lambda_distribution s)) /\
  (sample_xi s = true ->
   exists d, _xi_distribution s = Some d /\
             positive_real (Scipy.beta_a d) /\ positive_real (Scipy.beta_b d)) /\
  (1 <= maxsize (_probit_cache s))%nat.

(** The invariant of the model state. *)
Definition invariant (s : Probit) : Prop :=
  in_unit_interval (xi s) /\ positive_real (nu s) /\ positive_real (lamb s) /\
  length (gamma s) = P s.

(** The five parameters. *)
Definition params (s : Probit) :=
  (gamma s, gamma0 s, lamb s, nu s, xi s).

(** Everything but the content of the caches. *)
Definition core (w : world) := (static (self w), params (self w)).

(** Everything but the content of the caches and one parameter (for
    [update_xi]: the two that it assigns). *)
Definition but_gamma (w : world) :=
  (static (self w), gamma0 (self w), lamb (self w), nu (self w), xi (self w)).
Definition but_gamma0 (w : world) :=
  (static (self w), gamma (self w), lamb (self w), nu (self w), xi (self w)).
Definition but_lamb (w : world) :=
  (static (self w), gamma (self w), gamma0 (self w), nu (self w), xi (self w)).
Definition but_nu (w : world) :=
  (static (self w), gamma (self w), gamma0 (self w), lamb (self w), xi (self w)).
Definition but_xi_gamma (w : world) :=
  (static (self w), gamma0 (self w), lamb (self w), nu (self w)).

(* ----------------------------------------------------------------- *)
(** *** Notions for the properties beyond the specification *)

(** The three prior terms of [log_joint] that need no distribution
    object: the log-densities of [gamma0], [nu] and [lamb]. *)
Definition prior_terms (s : Probit) : list pyfloat :=
  [norm_logpdf (_gamma0_distribution s) (gamma0 s);
   gamma_logpdf (_nu_distribution s) (nu s);
   gamma_logpdf (_lambda_distribution s) (lamb s)].

(** Every run of [c] takes a world to one that [R] relates to it,
    whatever the outcome. *)
Definition steps {A} (R : world -> world -> Prop) (c : M A) : Prop :=
  forall w, R w (snd (c w)).

(** The relations that are closed under what every method may do:
    construct an [Mvn] and store in a cache what [setitem] accepts. *)
Record cache_step (R : world -> world -> Prop) : Prop := {
  cs_refl : forall w, R w w;
  cs_trans : forall w1 w2 w3, R w1 w2 -> R w2 w3 -> R w1 w3;
  cs_Mvn : forall cov w, R w (with_event (Ev_Mvn cov) w);
  cs_probit : forall w k v c,
    setitem (_probit_cache (self w)) k v = Some c ->
    R w (with_self (set_probit_cache c) w);
  cs_ppi : forall w k v c,
    setitem (_ppi_cache (self w)) k v = Some c ->
    R w (with_self (set_ppi_cache c) w)
}.

(** Beyond that, closed under the generator's moves, the events of the
    updates and the assignments to the five parameters. *)
Record update_step (R : world -> world -> Prop) : Prop := {
  us_cache : cache_step R;
  us_rand : forall g w, R w (with_rand g w);
  us_event : forall ev w, R w (with_event ev w);
  us_gamma : forall v w, R w (with_self (set_gamma v) w);
  us_gamma0 : forall v w, R w (with_self (set_gamma0 v) w);
  us_lamb : forall v w, R w (with_self (set_lamb v) w);
  us_nu : forall v w, R w (with_self (set_nu v) w);
  us_xi : forall v w, R w (with_self (set_xi v) w)
}.

(** The generator is where it was and the ghost trace has grown by
    constructions of [Mvn] only. *)
Definition constructed_only (w w' : world) : Prop :=
  rand w' = rand w /\
  exists new, trace w' = new ++ trace w /\ forallb is_Mvn new = true.

(** The caches have the capacities [n] and [m] and hold no more items
    than that. *)
Definition within_capacity (n m : nat) (w : world) : Prop :=
  maxsize (_probit_cache (self w)) = n /\ maxsize (_ppi_cache (self w)) = m /\
  (currsize (_probit_cache (self w)) <= n)%nat /\
  (currsize (_ppi_cache (self w)) <= m)%nat.

(** Everything but the content of the caches and [xi]. *)
Definition but_xi (w : world) :=
  (static (self w), gamma (self w), gamma0 (self w), lamb (self w), nu (self w)).

(** When [c] raises, the reading [mu] is what it was. *)
Definition unchanged_on_failure {A T} (mu : world -> T) (c : M A) : Prop :=
  forall w e, fst (c w) = Exc e -> mu (snd (c w)) = mu w.

(** The methods entered, most recent first. *)
Definition entered (t : list event) : list method :=
  flat_map (fun ev => match ev with Ev_enter m => [m] | _ => [] end) t.

(** The methods that a sweep enters, in the order of the calls. *)
Definition sweep_order (s : Probit) : list method :=
  [m_update_parameters; m_update_gamma; m_update_gamma0; m_update_lambda;
   m_update_nu] ++ (if sample_xi s then [m_update_xi] else []).

(** The entry [m[i, j]] of an array given by its rows. *)
Definition entry (m : matrix) (i j : nat) : pyfloat := nth j (nth i m []) NaN.

(** An array of [n] rows and [n] columns. *)
Definition is_square (n : nat) (m : matrix) : Prop :=
  length m = n /\ Forall (fun r => length r = n) m.

Definition is_symmetric (m : matrix) : Prop :=
  forall i j, entry m i j = entry m j i.

(** The array of [n] rows and [n] columns with the entries [f i j]. *)
Definition tabulate (n : nat) (f : nat -> nat -> pyfloat) : matrix :=
  map (fun i => map (f i) (seq 0 n)) (seq 0 n).

(** The object with another value of the attribute [check_finite],
    which no method assigns. *)
Definition set_check_finite (v : bool) (s : Probit) : Probit :=
  {| X := X s; Y := Y s; R := R s; N := N s; P := P s; nu_a := nu_a s;
     nu_b := nu_b s; check_finite := v; sample_xi := sample_xi s;
     _xi_distribution := _xi_distribution s; xi := xi s;
     _gamma0_distribution := _gamma0_distribution s; gamma0 := gamma0 s;
     _lambda_distribution := _lambda_distribution s; lamb := lamb s;
     _nu_distribution := _nu_distribution s; nu := nu s;
     _probit_cache := _probit_cache s; _ppi_cache := _ppi_cache s;
     gamma := gamma s |}.

(** The arguments with another value of [check_finite]. *)
Definition with_check_finite (v : bool) (a : init_args) : init_args :=
  {| arg_X := arg_X a; arg_Y := arg_Y a; arg_R := arg_R a;
     target_sparsity := target_sparsity a; gamma0_v := gamma0_v a;
     lambda_params := lambda_params a; nu_params := nu_params a;
     arg_xi := arg_xi a; xi_prior_shape := xi_prior_shape a;
     arg_check_finite := v; min_eigenval := min_eigenval a;
     jitter := jitter a |}.

(** [c] runs alike whatever [check_finite] is: the same outcome, and
    the same world but for that attribute. *)
Definition oblivious {A} (c : M A) : Prop :=
  forall b w,
    c (with_self (set_check_finite b) w)
    = (fst (c w), with_self (set_check_finite b) (snd (c w))).

(** The indices of the progress lines written by [logger.info], most
    recent first. *)
Definition logged (t : list event) : list Z :=
  flat_map (fun ev => match ev with
                      | Ev_logger_info i _ _ _ _ _ _ => [i]
                      | _ => []
                      end) t.

(** [run_mcmc] for the integers that Python passes: [np.zeros(iters)]
    raises [ValueError] for a negative [iters], before anything else
    is done; [range(-burn_in, iters)] starts above 0 for a negative
    [burn_in]. *)
Definition run_mcmc_int (iters burn_in : Z) (detailed : bool) : M mcmc_result :=
  if (iters <? 0)%Z then raise ValueError
  else
    let n := Z.to_nat iters in
    p <- get P ;;
    t <- mcmc_loop n detailed (Np.range (- burn_in) iters)
           (initial_traces n p detailed) ;;
    if negb detailed then ret (Plain (logjoint_trace t))
    else
      let mean := Np.mean_axis0 (inclusion_trace t) p in
      match Np.argmax (logjoint_trace t) with
      | None => raise ValueError
      | Some j =>
          row <- lift (Np.getitem (inclusion_trace t) j) ;;
          ret (Detailed {| inclusion := (mean, row);
                           res_gamma0 := gamma0_trace t;
                           res_lambda := lambda_trace t;
                           res_nu := nu_trace t;
                           res_xi := xi_trace t;
                           joint := logjoint_trace t;
                           likelihood := loglike_trace t |})
      end.

(** The sample that the arrays of [run_mcmc] hold where nothing was
    recorded. *)
Definition zero_sample (p : nat) : sample :=
  {| s_joint := f0; s_like := f0; s_inclusion := repeat false p;
     s_gamma0 := f0; s_lamb := f0; s_nu := f0; s_xi := f0 |}.

(* ----------------------------------------------------------------- *)
(** *** The script [bss/scripts/run.py] *)

(** What [parse_args] returns. *)
Record options : Type := {
  file_pattern : String.string;
  opt_iters : Z;
  opt_burnin : Z
}.

(** The defaults of [parse_args]: [--iters] 50 and [--burnin] 1000;
    [--file_pattern] is required. *)
Definition default_options (pattern : String.string) : options :=
  {| file_pattern := pattern; opt_iters := 50; opt_burnin := 1000 |}.

(** [main], for the options that [parse_args] returned; [load_data]
    is [bss.data.load_data], which is not part of the files at hand.
    The result of [run_mcmc] is dropped. *)
Definition main (load_data : String.string -> outcome (matrix * vec * matrix))
    (opts : options) (g : rng) : outcome world :=
  match load_data (file_pattern opts) with
  | Exc e => Exc e
  | Val (X_, y, R_) =>
      match __init__ (default_args X_ y R_) g with
      | Exc e => Exc e
      | Val w =>
          match run_mcmc_int (opt_iters opts) (opt_burnin opts) false w with
          | (Val _, w') => Val w'
          | (Exc e, _) => Exc e
          end
      end
  end.

(** The calls that leave the class for a sampler or for NumPy's gamma
    variate, most recent first. *)
Definition drawn (t : list event) : list event :=
  filter (fun ev => match ev with
                    | Ev_SliceSampler _ | Ev_EllipticalSliceSampler _
                    | Ev_random_gamma _ _ => true
                    | _ => false
                    end) t.

(* ----------------------------------------------------------------- *)
(** *** The covariances entry by entry, and what the key reads *)

(** Row [i] of [X[:, gamma > gamma0]]. *)
Definition masked_row (s : Probit) (g : vec) (g0 : pyfloat) (i : nat) : vec :=
  Np.compress (Np.gt_scalar g g0) (nth i (X s) []).

(** The covariance of the PPI distribution as the docstring of
    [ppi_distribution] gives it, entry by entry: the inner product of
    the rows [i] and [j] of the masked [X], plus one, over [lamb], and
    one more on the diagonal. *)
Definition ppi_covariance (s : Probit) (g : vec) (g0 l : pyfloat) : matrix :=
  tabulate (N s) (fun i j =>
    ((Np.inner (masked_row s g g0 i) (masked_row s g g0 j) + f1) / l
     + (if Nat.eqb i j then f1 else f0))%F).

(** The covariance of the probit distribution as the docstring of
    [probit_distribution] gives it, entry by entry:
    [xi * R.cov + (1 - xi) * I]. *)
Definition probit_covariance (s : Probit) (x : pyfloat) : matrix :=
  tabulate (P s) (fun i j =>
    (x * entry (Mvn_cov (R s)) i j
     + (f1 - x) * (if Nat.eqb i j then f1 else f0))%F).

(** [2 ** -62]: a number of (0,1) with the hash of [0.5]. *)
Definition two_pow_minus_62 : pyfloat := Fin (1 # 4611686018427387904).

(** What [_cache_key] reads of an argument: of an array its bytes, a
    float as it is. *)
Definition arg_content (a : arg) : list Byte.byte + pyfloat :=
  match a with
  | ArgArray v => inl (tobytes v)
  | ArgFloat x => inr x
  end.

(** The key of arguments given by their content: the hash of the tuple
    whose items are the hashes of the byte strings and the floats. *)
Definition key_of_content (l : list (list Byte.byte + pyfloat)) : Z :=
  py_hash_tuple
    (map (fun c => match c with
                   | inl b => ItemInt (hash_bytes b)
                   | inr x => ItemFloat x
                   end) l).

(** The same content: the same bytes, or floats that are equal as
    numbers. *)
Definition content_equal (c c' : list Byte.byte + pyfloat) : Prop :=
  match c, c' with
  | inl b, inl b' => b = b'
  | inr x, inr y => value_equal x y
  | _, _ => False
  end.

End Specification.

(* ================================================================= *)
(** ** Concrete models *)

Module Examples.

(** A model of one sample and one predictor, with the defaults. *)
Definition args1 : init_args := default_args Toy.X1 Toy.Y1 Toy.R1.

(** The same with a sampled [xi]. *)
Definition args_sampled : init_args := {|
  arg_X := Toy.X1; arg_Y := Toy.Y1; arg_R := Toy.R1;
  target_sparsity := f0_01; gamma0_v := f1;
  lambda_params := (f1e_6, f1e_6); nu_params := (f1e_6, f1e_6);
  arg_xi := None; xi_prior_shape := (f1, f1);
  arg_check_finite := true; min_eigenval := f0; jitter := f1e_6
|}.

(** The same with [gamma0_v = 2]. *)
Definition args_v2 : init_args := {|
  arg_X := Toy.X1; arg_Y := Toy.Y1; arg_R := Toy.R1;
  target_sparsity := f0_01; gamma0_v := Fin 2;
  lambda_params := (f1e_6, f1e_6); nu_params := (f1e_6, f1e_6);
  arg_xi := Some f0_999999; xi_prior_shape := (f1, f1);
  arg_check_finite := true; min_eigenval := f0; jitter := f1e_6
|}.

Definition init1 : outcome (@world Toy.externals) :=
  @__init__ Toy.externals args1 0%nat.
Definition init_sampled : outcome (@world Toy.externals) :=
  @__init__ Toy.externals args_sampled 0%nat.
Definition init_v2 : outcome (@world Toy.externals) :=
  @__init__ Toy.externals args_v2 0%nat.

(** The value of an outcome, or a default. *)
Definition val_or {A} (d : A) (o : outcome A) : A :=
  match o with
  | Val a => a
  | Exc _ => d
  end.

Definition blank : @world Toy.externals :=
  {| self := attributes_before_gamma args1 Toy.no_mvn f0 f0;
     rand := 0%nat; trace := [] |}.

(** The three models after construction. *)
Definition w1 : @world Toy.externals := val_or blank init1.
Definition w_sampled : @world Toy.externals := val_or blank init_sampled.
Definition w_v2 : @world Toy.externals := val_or blank init_v2.

(** A rate of zero in the prior of [lamb]. *)
Definition args_zero_rate : init_args := {|
  arg_X := Toy.X1; arg_Y := Toy.Y1; arg_R := Toy.R1;
  target_sparsity := f0_01; gamma0_v := f1;
  lambda_params := (f1e_6, f0); nu_params := (f1e_6, f1e_6);
  arg_xi := Some f0_999999; xi_prior_shape := (f1, f1);
  arg_check_finite := true; min_eigenval := f0; jitter := f1e_6
|}.

(** The data files of every pattern hold the model of one predictor. *)
Definition load_one (_ : String.string)
  : outcome (matrix * vec * matrix) := Val (Toy.X1, Toy.Y1, Toy.R1).

(** One burn-in pass and two iterations. *)
Definition options_1_2 : options :=
  {| file_pattern := String.EmptyString; opt_iters := 2; opt_burnin := 1 |}.

(** The model under the second stand-in, whose slice sampler proposes
    [c]. *)
Definition blank_proposing (c : pyfloat) : @world (Toy.proposing c) :=
  {| self := @attributes_before_gamma (Toy.proposing c) args1 ([] : matrix) f0 f0;
     rand := 0%nat; trace := [] |}.

Definition w_proposing (c : pyfloat) (a : init_args) : @world (Toy.proposing c) :=
  val_or (blank_proposing c) (@__init__ (Toy.proposing c) a 0%nat).

(** The model of one predictor after construction, its sampler
    proposing [0.0]. *)
Definition w_zero : @world (Toy.proposing f0) := w_proposing f0 args1.

(** The same with [gamma = [-3/2]] and the threshold [-2]: the
    predictor is included. *)
Definition w_included : @world (Toy.proposing f0) :=
  with_self (set_gamma0 (Fin (-2))) (with_self (set_gamma [Fin (-3 # 2)]) w_zero).

(** A sampled [xi] and a prior covariance other than the identity. *)
Definition args_sampled_2 : init_args := {|
  arg_X := Toy.X1; arg_Y := Toy.Y1; arg_R := [[Fin 2]];
  target_sparsity := f0_01; gamma0_v := f1;
  lambda_params := (f1e_6, f1e_6); nu_params := (f1e_6, f1e_6);
  arg_xi := None; xi_prior_shape := (f1, f1);
  arg_check_finite := true; min_eigenval := f0; jitter := f1e_6
|}.

(** That model after construction, its sampler proposing [2 ** -62]. *)
Definition w_tiny : @world (Toy.proposing two_pow_minus_62) :=
  w_proposing two_pow_minus_62 args_sampled_2.
End Examples.

(* ================================================================= *)
(** ** Reasoning about methods *)

Lemma setitem_maxsize {V} (c c' : Cache V) k v :
  setitem c k v = Some c' -> maxsize c' = maxsize c.
Proof.
  unfold setitem. destruct (maxsize c <? 1)%nat; [discriminate|].
  intros H. inversion H. reflexivity.
Qed.

Lemma assoc_store {V} k (v : V) d : assoc k (store k v d) = Some v.
Proof.
  induction d as [|[k' v'] d IH]; simpl.
  - rewrite Z.eqb_refl. reflexivity.
  - destruct (k =? k')%Z eqn:Hk; simpl.
    + rewrite Z.eqb_refl. reflexivity.
    + rewrite Hk. exact IH.
Qed.

Lemma setitem_getitem {V} (c c' : Cache V) k v :
  setitem c k v = Some c' -> getitem c' k = Some v.
Proof.
  unfold setitem, getitem. destruct (maxsize c <? 1)%nat; [discriminate|].
  intros H. inversion H. simpl. apply assoc_store.
Qed.

Lemma setitem_some {V} (c : Cache V) k v :
  (1 <= maxsize c)%nat -> exists c', setitem c k v = Some c'.
Proof.
  intros H. unfold setitem.
  destruct (maxsize c <? 1)%nat eqn:Hm.
  - apply Nat.ltb_lt in Hm. lia.
  - eexists. reflexivity.
Qed.


(* ----------------------------------------------------------------- *)
(** *** The replacement policy of [cachetools.Cache] *)

Lemma assoc_mem {V} k (d : list (Z * V)) :
  mem k (map fst d) = match assoc k d with Some _ => true | None => false end.
Proof.
  induction d as [|[k' v'] d IH]; simpl; [reflexivity|].
  destruct (k =? k')%Z; simpl; auto.
Qed.

Lemma store_fresh {V} k (v : V) d :
  assoc k d = None -> store k v d = d ++ [(k, v)].
Proof.
  induction d as [|[k' v'] d IH]; simpl; [reflexivity|].
  destruct (k =? k')%Z; [discriminate|]. intros H. rewrite IH; auto.
Qed.

Lemma assoc_tl {V} k (d : list (Z * V)) :
  assoc k d = None -> assoc k (tl d) = None.
Proof.
  destruct d as [|[k' v'] d]; simpl; auto.
  destruct (k =? k')%Z; [discriminate|auto].
Qed.

Lemma make_room_spare {V} n (d : list (Z * V)) :
  (length d < n)%nat -> make_room n d = d.
Proof.
  destruct d as [|x d]; [reflexivity|]. cbn [make_room]. simpl length. intros H.
  destruct (n <? S (length d) + 1)%nat eqn:Hlt; [|reflexivity].
  apply Nat.ltb_lt in Hlt. lia.
Qed.

Lemma make_room_full {V} n (d : list (Z * V)) :
  (1 <= n)%nat -> length d = n -> make_room n d = tl d.
Proof.
  destruct d as [|x d]; [reflexivity|]. cbn [make_room tl]. simpl length.
  intros Hn H.
  destruct (n <? S (length d) + 1)%nat eqn:Hlt.
  - apply make_room_spare. lia.
  - apply Nat.ltb_ge in Hlt. lia.
Qed.

(** One memoised call on a cache that is within its capacity: the keys
    move as under first-in-first-out. *)
Lemma call_fifo_step {V} (c : Cache V) k v :
  (1 <= maxsize c)%nat -> (length (data c) <= maxsize c)%nat ->
  keys (call c k v) = fifo_step (maxsize c) (keys c) k /\
  maxsize (call c k v) = maxsize c /\
  (length (data (call c k v)) <= maxsize c)%nat.
Proof.
  intros Hn Hlen. unfold call, getitem, fifo_step, keys.
  rewrite assoc_mem. destruct (assoc k (data c)) as [v'|] eqn:Ha.
  - auto.
  - unfold setitem. destruct (maxsize c <? 1)%nat eqn:Hlt.
    { apply Nat.ltb_lt in Hlt. lia. }
    rewrite Ha. simpl. unfold enqueue. rewrite length_map.
    destruct (length (data c) <? maxsize c)%nat eqn:Hfull.
    + apply Nat.ltb_lt in Hfull. rewrite make_room_spare by exact Hfull.
      rewrite store_fresh by exact Ha. rewrite map_app, length_app. simpl.
      repeat split; auto. lia.
    + apply Nat.ltb_ge in Hfull.
      rewrite make_room_full by lia.
      rewrite store_fresh by (apply assoc_tl; exact Ha).
      rewrite map_app, length_app. simpl.
      destruct (data c) as [|x d]; simpl in *; repeat split; auto; lia.
Qed.

Lemma calls_fifo {V} (v : Z -> V) ks :
  forall c, (1 <= maxsize c)%nat -> (length (data c) <= maxsize c)%nat ->
  keys (calls v c ks) = fold_left (fifo_step (maxsize c)) ks (keys c).
Proof.
  induction ks as [|k ks IH]; intros c Hn Hlen; simpl; [reflexivity|].
  destruct (call_fifo_step c k (v k) Hn Hlen) as (Hk & Hm & Hl).
  unfold calls in *. simpl. rewrite IH; rewrite ?Hm; auto.
  rewrite Hk. reflexivity.
Qed.

(** A run on which the two policies part: after the keys 1, 2, 3, 4
    were stored and 1 was used again, storing 5 evicts 1, the key used
    last, where least-recently-used evicts 2. *)
Lemma lru_is_not_the_policy :
  ~ (forall (ks : list Z) (k : Z),
       In k (keys (calls (fun _ => tt) (Cachetools.new unit 4) ks))
       <-> In k (lru 4 ks)).
Proof.
  intros H. specialize (H [1; 2; 3; 4; 1; 5]%Z 1%Z).
  vm_compute in H. destruct H as [_ H].
  assert (Hin : 3%Z = 1%Z \/ 4%Z = 1%Z \/ 1%Z = 1%Z \/ 5%Z = 1%Z \/ False) by tauto.
  specialize (H Hin). repeat (destruct H as [H|H]; [discriminate|]). exact H.
Qed.

Section Proofs.
Context {E : Externals}.

Lemma bind_val {A B} (c : M A) (k : A -> M B) w a w1 :
  c w = (Val a, w1) -> bind c k w = k a w1.
Proof. intros H. unfold bind. rewrite H. reflexivity. Qed.

Lemma bind_exc {A B} (c : M A) (k : A -> M B) w e w1 :
  c w = (Exc e, w1) -> bind c k w = (Exc e, w1).
Proof. intros H. unfold bind. rewrite H. reflexivity. Qed.

Lemma bind_inv {A B} (c : M A) (k : A -> M B) w o w' :
  bind c k w = (o, w') ->
  (exists a w1, c w = (Val a, w1) /\ k a w1 = (o, w')) \/
  (exists e, c w = (Exc e, w') /\ o = Exc e).
Proof.
  unfold bind. destruct (c w) as [[a|e] w1].
  - intros H. left. exists a, w1. auto.
  - intros H. inversion H; subst. right. exists e. auto.
Qed.

Section Preserves.
Context {T : Type} (mu : world -> T).

Lemma preserves_ret {A} (a : A) : preserves mu (ret a).
Proof. intro w. reflexivity. Qed.

Lemma preserves_raise {A} e : preserves mu (@raise _ A e).
Proof. intro w. reflexivity. Qed.

Lemma preserves_lift {A} (o : outcome A) : preserves mu (lift o).
Proof. intro w. reflexivity. Qed.

Lemma preserves_get {A} (f : Probit -> A) : preserves mu (get f).
Proof. intro w. reflexivity. Qed.

Lemma preserves_get_rand : preserves mu get_rand.
Proof. intro w. reflexivity. Qed.

Lemma preserves_bind {A B} (c : M A) (k : A -> M B) :
  preserves mu c -> (forall a, preserves mu (k a)) -> preserves mu (bind c k).
Proof.
  intros Hc Hk w. unfold bind. specialize (Hc w).
  destruct (c w) as [[a|e] w1]; simpl in *.
  - rewrite Hk. exact Hc.
  - exact Hc.
Qed.

Lemma preserves_try_except {A} (c h : M A) e :
  preserves mu c -> preserves mu h -> preserves mu (try_except c e h).
Proof.
  intros Hc Hh w. unfold try_except. specialize (Hc w).
  destruct (c w) as [[a|e'] w1]; simpl in *; auto.
  destruct (exn_eqb e e'); simpl; auto. rewrite Hh. exact Hc.
Qed.

Lemma preserves_attempt {A} (c : M A) e :
  preserves mu c -> preserves mu (attempt c e).
Proof.
  intros Hc. unfold attempt. apply preserves_try_except.
  - apply preserves_bind; auto. intros a. apply preserves_ret.
  - apply preserves_ret.
Qed.

Lemma preserves_if {A} (b : bool) (c c' : M A) :
  preserves mu c -> preserves mu c' -> preserves mu (if b then c else c').
Proof. destruct b; auto. Qed.

Lemma preserves_set_rand g : insensitive mu -> preserves mu (set_rand g).
Proof. intros H w. apply (ins_rand H). Qed.

Lemma preserves_draw {A} (f : rng -> outcome A * rng) :
  insensitive mu -> preserves mu (draw f).
Proof. intros H w. apply (ins_rand H). Qed.

Lemma preserves_new_Mvn cov a b : insensitive mu -> preserves mu (new_Mvn cov a b).
Proof.
  intros H. unfold new_Mvn. apply preserves_bind.
  - intro w. apply (ins_Mvn H).
  - intros _. apply preserves_lift.
Qed.

Lemma preserves_run_sampler {A} (f : A -> M pyfloat) (t : qtree rng A) :
  insensitive mu -> (forall c, preserves mu (f c)) -> preserves mu (run_sampler f t).
Proof.
  intros H Hf. induction t as [x g|c g k IH|e g]; simpl.
  - apply preserves_bind; [apply preserves_set_rand; auto|intros; apply preserves_ret].
  - apply preserves_bind; [apply preserves_set_rand; auto|intros _].
    apply preserves_bind; auto.
  - apply preserves_bind; [apply preserves_set_rand; auto|intros; apply preserves_raise].
Qed.

Lemma preserves_cachedmethod cache set_cache k method :
  (forall c w, maxsize c = maxsize (cache (self w)) ->
               mu (with_self (set_cache c) w) = mu w) ->
  preserves mu method ->
  preserves mu (cachedmethod cache set_cache k method).
Proof.
  intros Hset Hm w. unfold cachedmethod, bind, get, modify, ret. simpl.
  destruct (getitem (cache (self w)) k); simpl; auto.
  specialize (Hm w). destruct (method w) as [[v|e] w1]; simpl in *; auto.
  destruct (setitem (cache (self w1)) k v) as [c''|] eqn:Hs; simpl; auto.
  rewrite Hset; auto. apply setitem_maxsize in Hs. exact Hs.
Qed.

Lemma preserves_probit_distribution x :
  insensitive mu -> preserves mu (probit_distribution x).
Proof.
  intros H. unfold probit_distribution. apply preserves_cachedmethod.
  - apply (ins_probit H).
  - apply preserves_bind; [apply preserves_get|intros; apply preserves_new_Mvn; auto].
Qed.

Lemma preserves_ppi_distribution g g0 l :
  insensitive mu -> preserves mu (ppi_distribution g g0 l).
Proof.
  intros H. unfold ppi_distribution. apply preserves_cachedmethod.
  - apply (ins_ppi H).
  - apply preserves_bind; [apply preserves_get|intros s].
    apply preserves_if; [apply preserves_new_Mvn; auto|apply preserves_raise].
Qed.

Lemma preserves_log_marg_like g g0 l n :
  insensitive mu -> preserves mu (log_marg_like g g0 l n).
Proof.
  intros H. unfold log_marg_like.
  apply preserves_bind; [apply preserves_ppi_distribution; auto|intros d].
  apply preserves_bind; [apply preserves_get|intros; apply preserves_lift].
Qed.


Lemma preserves_xi_logpdf x : preserves mu (xi_logpdf x).
Proof.
  unfold xi_logpdf. apply preserves_bind; [apply preserves_get|intros [d|]].
  - apply preserves_ret.
  - apply preserves_raise.
Qed.

End Preserves.

(** Stepping through a method, towards the side conditions on [tell]
    and [modify]. *)
Ltac frame_step :=
  match goal with
  | |- preserves _ (bind _ _) => apply preserves_bind; [|intro]
  | |- preserves _ (ret _) => apply preserves_ret
  | |- preserves _ (raise _) => apply preserves_raise
  | |- preserves _ (lift _) => apply preserves_lift
  | |- preserves _ (get _) => apply preserves_get
  | |- preserves _ get_rand => apply preserves_get_rand
  | |- preserves _ (draw _) => apply preserves_draw
  | |- preserves _ (attempt _ _) => apply preserves_attempt
  | |- preserves _ (run_sampler _ _) => apply preserves_run_sampler; [|intro]
  | |- preserves _ (probit_distribution _) => apply preserves_probit_distribution
  | |- preserves _ (ppi_distribution _ _ _) => apply preserves_ppi_distribution
  | |- preserves _ (log_marg_like _ _ _ _) => apply preserves_log_marg_like
  | |- preserves _ (xi_logpdf _) => apply preserves_xi_logpdf
  | |- preserves _ (if _ then _ else _) => apply preserves_if
  | |- preserves _ (match ?x with _ => _ end) => destruct x
  end.

Ltac frame := repeat frame_step; try assumption.

Section Frames.
Context {T : Type} (mu : world -> T) (Hins : insensitive mu).

Lemma preserves_log_joint : preserves mu log_joint.
Proof. unfold log_joint. frame. Qed.

Lemma preserves_lambda_slice_fn l : preserves mu (lambda_slice_fn l).
Proof. unfold lambda_slice_fn. frame. Qed.

Lemma preserves_gamma0_slice_fn g0 : preserves mu (gamma0_slice_fn g0).
Proof. unfold gamma0_slice_fn. frame. Qed.

Lemma preserves_xi_slice_fn wh x : preserves mu (xi_slice_fn wh x).
Proof. unfold xi_slice_fn. frame. Qed.

(** The readings that, beyond that, no event [ev] with [allowed ev]
    can change. *)
Variable allowed : event -> bool.
Hypothesis Hev : forall ev w, allowed ev = true -> mu (with_event ev w) = mu w.

Lemma preserves_tell ev : allowed ev = true -> preserves mu (tell ev).
Proof. intros H w. apply Hev, H. Qed.

Lemma preserves_update_gamma :
  allowed (Ev_enter m_update_gamma) = true ->
  (forall x, allowed (Ev_EllipticalSliceSampler x) = true) ->
  (forall x w, mu (with_self (set_gamma x) w) = mu w) ->
  preserves mu update_gamma.
Proof.
  intros H1 H2 H3. unfold update_gamma. frame; try (apply preserves_tell; auto).
  intro w. apply H3.
Qed.

Lemma preserves_update_gamma0 :
  allowed (Ev_enter m_update_gamma0) = true ->
  (forall x, allowed (Ev_SliceSampler x) = true) ->
  (forall x w, mu (with_self (set_gamma0 x) w) = mu w) ->
  preserves mu update_gamma0.
Proof.
  intros H1 H2 H3. unfold update_gamma0. frame; try (apply preserves_tell; auto).
  - apply preserves_gamma0_slice_fn.
  - intro w. apply H3.
Qed.

Lemma preserves_update_lambda :
  allowed (Ev_enter m_update_lambda) = true ->
  (forall x, allowed (Ev_SliceSampler x) = true) ->
  (forall x w, mu (with_self (set_lamb x) w) = mu w) ->
  preserves mu update_lambda.
Proof.
  intros H1 H2 H3. unfold update_lambda. frame; try (apply preserves_tell; auto).
  - apply preserves_lambda_slice_fn.
  - intro w. apply H3.
Qed.

Lemma preserves_update_nu :
  allowed (Ev_enter m_update_nu) = true ->
  (forall a b, allowed (Ev_random_gamma a b) = true) ->
  (forall x w, mu (with_self (set_nu x) w) = mu w) ->
  preserves mu update_nu.
Proof.
  intros H1 H2 H3. unfold update_nu. frame; try (apply preserves_tell; auto).
  intro w. apply H3.
Qed.

Lemma preserves_update_xi :
  allowed (Ev_enter m_update_xi) = true ->
  (forall x, allowed (Ev_SliceSampler x) = true) ->
  (forall x w, mu (with_self (set_xi x) w) = mu w) ->
  (forall x w, mu (with_self (set_gamma x) w) = mu w) ->
  preserves mu update_xi.
Proof.
  intros H1 H2 H3 H4. unfold update_xi. frame; try (apply preserves_tell; auto).
  - apply preserves_xi_slice_fn.
  - intro w. apply H3.
  - intro w. apply H4.
Qed.


(** The driver, for a reading that a sweep preserves. *)
Hypothesis Hsweep : preserves mu update_parameters.
Hypothesis Hlog : forall i n a b c d e, allowed (Ev_logger_info i n a b c d e) = true.

Lemma preserves_record_sweep detailed t i a b :
  preserves mu (record_sweep detailed t i a b).
Proof. unfold record_sweep. frame. Qed.

Lemma preserves_mcmc_step iters detailed t i :
  preserves mu (mcmc_step iters detailed t i).
Proof.
  unfold mcmc_step. frame.
  - apply preserves_log_joint.
  - apply preserves_tell, Hlog.
  - apply preserves_record_sweep.
Qed.

Lemma preserves_mcmc_loop iters detailed indices :
  forall t, preserves mu (mcmc_loop iters detailed indices t).
Proof.
  induction indices as [|i rest IH]; intros t; simpl.
  - apply preserves_ret.
  - apply preserves_bind; [apply preserves_mcmc_step|intros; apply IH].
Qed.

Lemma preserves_run_mcmc iters burn_in detailed :
  preserves mu (run_mcmc iters burn_in detailed).
Proof.
  unfold run_mcmc. apply preserves_bind; [apply preserves_get|intros p].
  apply preserves_bind; [apply preserves_mcmc_loop|intros t]. frame.
Qed.

End Frames.

(* ----------------------------------------------------------------- *)
(** *** The constructor's result *)

Lemma init_inversion a g w :
  __init__ a g = Val w ->
  exists R_ ls ns,
    Mvn_init (arg_R a) (Some (min_eigenval a)) (Some (jitter a)) = Val R_ /\
    py_div f1 (snd (lambda_params a)) = Val ls /\
    py_div f1 (snd (nu_params a)) = Val ns /\
    (d <- probit_distribution (xi (attributes_before_gamma a R_ ls ns)) ;;
     v <- draw (Mvn_rvs d) ;;
     modify (set_gamma v))
      {| self := attributes_before_gamma a R_ ls ns; rand := g;
         trace := [Ev_Mvn (arg_R a)] |} = (Val tt, w).
Proof.
  unfold __init__. intros H.
  destruct (Mvn_init (arg_R a) _ _) as [R_|e]; [|discriminate].
  destruct (Np.shape (arg_X a)) as [N_ P_] eqn:Hshape.
  destruct (nu_params a) as [na nb] eqn:Hnu.
  destruct (py_div f1 (snd (lambda_params a))) as [ls|e]; [|destruct (arg_xi a); discriminate].
  destruct (py_div f1 nb) as [ns|e] eqn:Hns; [|destruct (arg_xi a); discriminate].
  exists R_, ls, ns. repeat split; auto.
  unfold attributes_before_gamma. rewrite Hshape, Hnu. simpl fst; simpl snd.
  destruct (arg_xi a) as [x|]; simpl in *.
  - match type of H with
    | match ?c with _ => _ end = _ =>
        match goal with |- ?c' = _ => change c' with c; destruct c as [[[]|e] w'] end
    end; [|discriminate]. inversion H; subst. reflexivity.
  - match type of H with
    | match ?c with _ => _ end = _ =>
        match goal with |- ?c' = _ => change c' with c; destruct c as [[[]|e] w'] end
    end; [|discriminate]. inversion H; subst. reflexivity.
Qed.


(** A reading of the attributes that the last statement of [__init__]
    cannot change is the one of [attributes_before_gamma]. *)
Lemma init_reading {T} (f : Probit -> T) a g w :
  (forall c s, maxsize c = maxsize (_probit_cache s) -> f (set_probit_cache c s) = f s) ->
  (forall v s, f (set_gamma v s) = f s) ->
  __init__ a g = Val w ->
  exists R_ ls ns,
    Mvn_init (arg_R a) (Some (min_eigenval a)) (Some (jitter a)) = Val R_ /\
    py_div f1 (snd (lambda_params a)) = Val ls /\
    py_div f1 (snd (nu_params a)) = Val ns /\
    f (self w) = f (attributes_before_gamma a R_ ls ns).
Proof.
  intros Hc Hg H. apply init_inversion in H.
  destruct H as (R_ & ls & ns & H1 & H2 & H3 & H).
  exists R_, ls, ns. repeat split; auto.
  set (w0 := {| self := _; rand := g; trace := _ |}) in H.
  set (c := bind _ _) in H.
  assert (Hp : preserves (fun w => f (self w)) c).
  { subst c. apply preserves_bind.
    - unfold probit_distribution. apply preserves_cachedmethod.
      + intros c w1 Hm. simpl. apply Hc, Hm.
      + apply preserves_bind; [apply preserves_get|intros s1].
        unfold new_Mvn. apply preserves_bind; [|intros; apply preserves_lift].
        intro w1. reflexivity.
    - intros d. apply preserves_bind.
      + intro w1. reflexivity.
      + intros v w1. simpl. apply Hg. }
  specialize (Hp w0). rewrite H in Hp. exact Hp.
Qed.


(* ----------------------------------------------------------------- *)
(** *** What no method changes *)

Lemma entries_cons m ev t :
  is_enter m ev = false -> entries m (ev :: t) = entries m t.
Proof. intros H. unfold entries. simpl. rewrite H. reflexivity. Qed.

Lemma static_insensitive : insensitive (fun w => static (self w)).
Proof.
  split; intros; try reflexivity.
  - unfold static. simpl. rewrite H. reflexivity.
  - unfold static. simpl. rewrite H. reflexivity.
Qed.

Lemma static_update_parameters :
  preserves (fun w => static (self w)) update_parameters.
Proof.
  pose proof static_insensitive as Hins.
  assert (Hev : forall ev w, (fun _ : event => true) ev = true ->
                  static (self (with_event ev w)) = static (self w))
    by reflexivity.
  unfold update_parameters.
  apply preserves_bind; [intro w; reflexivity|intros _].
  apply preserves_bind;
    [eapply preserves_update_gamma; eauto; reflexivity|intros _].
  apply preserves_bind;
    [eapply preserves_update_gamma0; eauto; reflexivity|intros _].
  apply preserves_bind;
    [eapply preserves_update_lambda; eauto; reflexivity|intros _].
  apply preserves_bind;
    [eapply preserves_update_nu; eauto; reflexivity|intros _].
  apply preserves_bind; [apply preserves_get|intros b].
  apply preserves_if; [|apply preserves_ret].
  eapply preserves_update_xi; eauto; reflexivity.
Qed.

Lemma static_run_mcmc iters burn_in detailed :
  preserves (fun w => static (self w)) (run_mcmc iters burn_in detailed).
Proof.
  eapply preserves_run_mcmc with (allowed := fun _ => true).
  - apply static_insensitive.
  - reflexivity.
  - apply static_update_parameters.
  - reflexivity.
Qed.

(* ----------------------------------------------------------------- *)
(** *** A fixed [xi] *)

Lemma xi_reading_insensitive : insensitive xi_reading.
Proof. split; intros; reflexivity. Qed.

Lemma xi_reading_event ev w :
  negb (is_enter m_update_xi ev) = true ->
  xi_reading (with_event ev w) = xi_reading w.
Proof.
  intros H. apply negb_true_iff in H. unfold xi_reading. simpl.
  rewrite entries_cons; auto.
Qed.

Lemma xi_reading_update_parameters : preserves xi_reading update_parameters.
Proof.
  pose proof xi_reading_insensitive as Hins.
  pose proof xi_reading_event as Hev.
  set (allowed := fun ev => negb (is_enter m_update_xi ev)).
  unfold update_parameters.
  apply preserves_bind; [intro w; apply Hev; reflexivity|intros _].
  apply preserves_bind;
    [apply preserves_update_gamma with (allowed := allowed); auto; reflexivity
    |intros _].
  apply preserves_bind;
    [apply preserves_update_gamma0 with (allowed := allowed); auto; reflexivity
    |intros _].
  apply preserves_bind;
    [apply preserves_update_lambda with (allowed := allowed); auto; reflexivity
    |intros _].
  apply preserves_bind;
    [apply preserves_update_nu with (allowed := allowed); auto; reflexivity
    |intros _].
  intro w. unfold bind, get. simpl.
  destruct (sample_xi (self w)) eqn:Hs; [|reflexivity].
  unfold xi_reading. rewrite Hs.
  assert (Hst : preserves (fun w => static (self w)) update_xi).
  { eapply preserves_update_xi with (allowed := fun _ => true);
      try reflexivity. apply static_insensitive. }
  specialize (Hst w). simpl in Hst.
  assert (Hs' : sample_xi (self (snd (update_xi w))) = sample_xi (self w)).
  { unfold static in Hst. congruence. }
  rewrite Hs', Hs. reflexivity.
Qed.

Lemma xi_reading_run_mcmc iters burn_in detailed :
  preserves xi_reading (run_mcmc iters burn_in detailed).
Proof.
  eapply preserves_run_mcmc with (allowed := fun ev => negb (is_enter m_update_xi ev)).
  - apply xi_reading_insensitive.
  - apply xi_reading_event.
  - apply xi_reading_update_parameters.
  - reflexivity.
Qed.



(* ----------------------------------------------------------------- *)
(** *** Comparisons *)

Lemma Qlt_bool_iff a b : Qlt_bool a b = true <-> (a < b)%Q.
Proof.
  unfold Qlt_bool. rewrite negb_true_iff. split.
  - intros H. apply Qnot_le_lt. intros Hle.
    apply Qle_bool_iff in Hle. congruence.
  - intros H. destruct (Qle_bool b a) eqn:Hb; auto.
    apply Qle_bool_iff in Hb. exfalso. apply (Qlt_not_le _ _ H Hb).
Qed.

Lemma flt_Fin a b : (Fin a <? Fin b)%F = true <-> (a < b)%Q.
Proof. apply Qlt_bool_iff. Qed.

Lemma fle_Fin a b : (Fin a <=? Fin b)%F = true <-> (a <= b)%Q.
Proof. apply Qle_bool_iff. Qed.

Lemma flt_zero_negative x : (x <? f0)%F = true <-> negative x.
Proof.
  destruct x as [| |q|]; simpl; try (split; [discriminate|tauto]); try tauto.
  apply flt_Fin.
Qed.

Lemma xi_guard_outside x :
  ((x <=? f0)%F || (x >=? f1)%F = true) <-> outside_unit_interval x.
Proof.
  destruct x as [| |q|]; simpl; try (split; [discriminate|tauto]); try tauto.
  unfold fge, fle, f0, f1. rewrite orb_true_iff, !Qle_bool_iff. tauto.
Qed.

(* ----------------------------------------------------------------- *)
(** *** The prior of [gamma0] *)

Lemma init_gamma0 a g w :
  __init__ a g = Val w ->
  _gamma0_distribution (self w)
    = Scipy.norm (norm_ppf (f1 - target_sparsity a)%F) (gamma0_v a) /\
  gamma0 (self w) = norm_mean (_gamma0_distribution (self w)).
Proof.
  intros H.
  destruct (init_reading (fun s => (_gamma0_distribution s, gamma0 s)) a g)
    with (w := w) as (R_ & ls & ns & _ & _ & _ & Hr); auto.
  unfold attributes_before_gamma in Hr. simpl in Hr. inversion Hr as [[H1 H2]].
  rewrite H1. auto.
Qed.

(** C3.  The constructor passes [gamma0_v] as the [scale] of the
    normal prior of [gamma0], that is as its standard deviation: with
    [gamma0_v = 2] the prior's variance is 4.  The prior's mean is the
    inverse normal CDF of [1 - target_sparsity], and [gamma0] starts
    there. *)
Theorem gamma0_v_is_the_standard_deviation a g w :
  gamma0_v a = Fin 2 ->
  __init__ a g = Val w ->
  norm_var (_gamma0_distribution (self w)) = Fin 4 /\
  norm_std (_gamma0_distribution (self w)) = gamma0_v a /\
  norm_mean (_gamma0_distribution (self w)) = norm_ppf (f1 - target_sparsity a)%F /\
  gamma0 (self w) = norm_ppf (f1 - target_sparsity a)%F.
Proof.
  intros Hv H. apply init_gamma0 in H. destruct H as [Hd Hg].
  rewrite Hg, Hd. unfold norm_var, norm_std, norm_mean. simpl.
  rewrite Hv. repeat split; reflexivity.
Qed.

(* ----------------------------------------------------------------- *)
(** *** The closure of [update_lambda] *)

Lemma lambda_slice_fn_negative l w :
  negative l -> lambda_slice_fn l w = (Val NInf, w).
Proof.
  intros H. apply flt_zero_negative in H. unfold lambda_slice_fn.
  rewrite H. reflexivity.
Qed.

Lemma lambda_slice_fn_otherwise l w :
  ~ negative l -> lambda_slice_fn l w = lambda_density l w.
Proof.
  intros H. unfold lambda_slice_fn. destruct (l <? f0)%F eqn:Hl.
  - exfalso. apply H, flt_zero_negative, Hl.
  - reflexivity.
Qed.

(** A miss in the PPI cache constructs the distribution; when the
    constructor raises, so does the memoised method. *)
Lemma ppi_distribution_raises g g0 l w e :
  getitem (_ppi_cache (self w))
    (_cache_key [ArgArray g; ArgFloat g0; ArgFloat l]) = None ->
  length g = snd (Np.shape (X (self w))) ->
  Mvn_init (ppi_cov (self w) (map (Np.compress (Np.gt_scalar g g0)) (X (self w))) l)
    None None = Exc e ->
  fst (ppi_distribution g g0 l w) = Exc e.
Proof.
  intros Hmiss Hlen Hinit.
  assert (Hm : length (Np.gt_scalar g g0) = length g) by apply length_map.
  unfold ppi_distribution, cachedmethod, bind, get. cbv beta iota.
  cbn [fst snd id]. rewrite Hmiss, Hm, Hlen, Nat.eqb_refl.
  unfold new_Mvn, bind, tell, lift, id. rewrite Hinit. reflexivity.
Qed.

(** C4.  The closure of [update_lambda] returns minus infinity, with
    no effect, for a negative candidate, and the marginal likelihood
    plus the prior log-density for every other candidate.  The candidate
    0 is among the latter: the guard is [lamb < 0].  There the closure
    asks for the PPI distribution of [lamb = 0], and when that
    distribution is not cached and [Mvn] refuses the covariance, which
    was divided by zero, the exception leaves the closure. *)
Theorem lambda_slice_fn_zero_not_rejected w :
  (forall l, negative l -> lambda_slice_fn l w = (Val NInf, w)) /\
  (forall l, ~ negative l -> lambda_slice_fn l w = lambda_density l w) /\
  lambda_slice_fn f0 w = lambda_density f0 w /\
  (forall e,
     getitem (_ppi_cache (self w))
       (_cache_key [ArgArray (gamma (self w)); ArgFloat (gamma0 (self w));
                    ArgFloat f0]) = None ->
     length (gamma (self w)) = snd (Np.shape (X (self w))) ->
     Mvn_init
       (ppi_cov (self w)
          (map (Np.compress (Np.gt_scalar (gamma (self w)) (gamma0 (self w))))
               (X (self w))) f0) None None = Exc e ->
     fst (lambda_slice_fn f0 w) = Exc e).
Proof.
  split; [intros; apply lambda_slice_fn_negative; auto|].
  split; [intros; apply lambda_slice_fn_otherwise; auto|].
  split; [reflexivity|].
  intros e Hmiss Hlen Hinit.
  change (lambda_slice_fn f0 w) with (lambda_density f0 w).
  unfold lambda_density, log_marg_like.
  pose proof (ppi_distribution_raises _ _ _ _ Hmiss Hlen Hinit) as Hp.
  unfold bind at 1. unfold get at 1. simpl.
  unfold bind at 1. unfold bind at 1.
  destruct (ppi_distribution _ _ _ w) as [[d|e'] w1]; simpl in *.
  - discriminate.
  - congruence.
Qed.


(* ----------------------------------------------------------------- *)
(** *** The memoised methods *)

Section Cached.
Variables (cache : Probit -> Cache Mvn) (set_cache : Cache Mvn -> Probit -> Probit).
Hypothesis get_set : forall c s, cache (set_cache c s) = c.
Variables (k : Z) (method : M Mvn).
(** The method itself leaves the cache alone. *)
Hypothesis method_cache : preserves (fun w => cache (self w)) method.

Lemma cachedmethod_hit w d :
  getitem (cache (self w)) k = Some d ->
  cachedmethod cache set_cache k method w = (Val d, w).
Proof.
  intros H. unfold cachedmethod, bind, get. simpl. rewrite H. reflexivity.
Qed.

Lemma cachedmethod_miss w d w1 :
  getitem (cache (self w)) k = None ->
  method w = (Val d, w1) ->
  cachedmethod cache set_cache k method w
  = (Val d, with_self (set_cache (call (cache (self w)) k d)) w1)
  \/ (maxsize (cache (self w)) = 0%nat /\
      cachedmethod cache set_cache k method w = (Val d, w1)).
Proof.
  intros Hmiss Hm. unfold cachedmethod, bind, get. simpl. rewrite Hmiss, Hm.
  pose proof (method_cache w) as Hc. rewrite Hm in Hc. simpl in Hc.
  rewrite Hc. unfold call. rewrite Hmiss.
  destruct (setitem (cache (self w)) k d) as [c'|] eqn:Hs.
  - left. reflexivity.
  - right. split; [|reflexivity]. unfold setitem in Hs.
    destruct (maxsize (cache (self w)) <? 1)%nat eqn:Hlt; [|discriminate].
    apply Nat.ltb_lt in Hlt. lia.
Qed.

(** After a call that returned, the result sits in the cache. *)
Lemma cachedmethod_cached w d w1 :
  (1 <= maxsize (cache (self w)))%nat ->
  cachedmethod cache set_cache k method w = (Val d, w1) ->
  getitem (cache (self w1)) k = Some d.
Proof.
  intros Hmax. unfold cachedmethod, bind, get. simpl.
  destruct (getitem (cache (self w)) k) as [d'|] eqn:Hg.
  - intros H. inversion H; subst. exact Hg.
  - pose proof (method_cache w) as Hc.
    destruct (method w) as [[v|e] w'] eqn:Hm; simpl in *; [|discriminate].
    destruct (setitem_some (cache (self w')) k v) as [c' Hs];
      [rewrite Hc; exact Hmax|].
    rewrite Hs. unfold modify, ret. simpl. intros H. inversion H; subst.
    simpl. rewrite get_set. eapply setitem_getitem; eauto.
Qed.

(** A call that returned acted on the cache as [call] does. *)
Lemma cachedmethod_call w d w1 :
  cachedmethod cache set_cache k method w = (Val d, w1) ->
  cache (self w1) = call (cache (self w)) k d.
Proof.
  unfold cachedmethod, call, bind, get. simpl.
  destruct (getitem (cache (self w)) k) as [d'|] eqn:Hg.
  - intros H. inversion H; subst. reflexivity.
  - pose proof (method_cache w) as Hc.
    destruct (method w) as [[v|e] w'] eqn:Hm; simpl in *; [|discriminate].
    rewrite Hc. destruct (setitem (cache (self w)) k v) as [c'|] eqn:Hs.
    + unfold modify, ret. simpl. intros H. inversion H; subst.
      simpl. rewrite ?Hs. apply get_set.
    + unfold ret. intros H. inversion H; subst. rewrite ?Hs. exact Hc.
Qed.

End Cached.

Lemma probit_method_cache x :
  preserves (fun w => _probit_cache (self w))
            (s <- get id ;; new_Mvn (probit_cov s x) None None).
Proof. intro w. reflexivity. Qed.

Lemma ppi_method_cache g g0 l :
  preserves (fun w => _ppi_cache (self w))
    (s <- get id ;;
     if (length (Np.gt_scalar g g0) =? snd (Np.shape (X s)))%nat
     then new_Mvn (ppi_cov s (map (Np.compress (Np.gt_scalar g g0)) (X s)) l) None None
     else raise IndexError).
Proof.
  intro w. unfold bind, get. simpl.
  destruct (_ =? _)%nat; reflexivity.
Qed.

Lemma probit_distribution_cached x w d w1 :
  (1 <= maxsize (_probit_cache (self w)))%nat ->
  probit_distribution x w = (Val d, w1) ->
  getitem (_probit_cache (self w1)) (_cache_key [ArgFloat x]) = Some d.
Proof.
  intros Hmax H.
  eapply cachedmethod_cached with (set_cache := set_probit_cache);
    [intros c s; destruct s; reflexivity|apply probit_method_cache
    |exact Hmax|exact H].
Qed.

Lemma ppi_distribution_cached g g0 l w d w1 :
  (1 <= maxsize (_ppi_cache (self w)))%nat ->
  ppi_distribution g g0 l w = (Val d, w1) ->
  getitem (_ppi_cache (self w1))
    (_cache_key [ArgArray g; ArgFloat g0; ArgFloat l]) = Some d.
Proof.
  intros Hmax H.
  eapply cachedmethod_cached with (set_cache := set_ppi_cache);
    [intros c s; destruct s; reflexivity|apply ppi_method_cache
    |exact Hmax|exact H].
Qed.

Lemma probit_distribution_hit x w d :
  getitem (_probit_cache (self w)) (_cache_key [ArgFloat x]) = Some d ->
  probit_distribution x w = (Val d, w).
Proof. apply cachedmethod_hit. Qed.

Lemma ppi_distribution_hit g g0 l w d :
  getitem (_ppi_cache (self w))
    (_cache_key [ArgArray g; ArgFloat g0; ArgFloat l]) = Some d ->
  ppi_distribution g g0 l w = (Val d, w).
Proof. apply cachedmethod_hit. Qed.

(* ----------------------------------------------------------------- *)
(** *** The cache key *)

Lemma hash_float_value_equal x y :
  value_equal x y -> PyHash.hash_float x = PyHash.hash_float y.
Proof.
  destruct x as [| |a|], y as [| |b|]; simpl; try tauto.
  intros H. rewrite (Qred_complete _ _ H). reflexivity.
Qed.

Lemma cache_key_of_content args :
  _cache_key args = key_of_content (map arg_content args).
Proof.
  unfold _cache_key, key_of_content. rewrite map_map. f_equal.
  apply map_ext. intros [v|x]; reflexivity.
Qed.

Lemma key_of_equal_content l l' :
  Forall2 content_equal l l' -> key_of_content l = key_of_content l'.
Proof.
  intros H. unfold key_of_content, py_hash_tuple. f_equal.
  induction H as [|a b l l' Hab _ IH]; simpl; [reflexivity|].
  f_equal; [|exact IH].
  destruct a as [u|x], b as [v|y]; simpl in *; try tauto.
  - rewrite Hab. reflexivity.
  - apply hash_float_value_equal, Hab.
Qed.

(** C9 (amended).  [_cache_key] reads of an array its bytes and
    nothing else, and a float as it is: the key is the hash of the
    tuple of the hashes of the byte strings and of the floats.  So
    arguments of the same content, arrays of the same bytes and floats
    that are equal as numbers, have one key; and once a memoised method
    has returned, a call with arguments of the same content returns the
    cached distribution and does nothing else: no [Mvn] is constructed
    and the cache stays as it is. *)
Theorem cache_key_reads_bytes_and_numbers :
  (forall args, _cache_key args = key_of_content (map arg_content args)) /\
  (forall l l', Forall2 content_equal l l' ->
     key_of_content l = key_of_content l') /\
  (forall w x x' d w1,
     value_equal x x' ->
     (1 <= maxsize (_probit_cache (self w)))%nat ->
     probit_distribution x w = (Val d, w1) ->
     probit_distribution x' w1 = (Val d, w1)) /\
  (forall w g g' g0 g0' l l' d w1,
     tobytes g = tobytes g' -> value_equal g0 g0' -> value_equal l l' ->
     (1 <= maxsize (_ppi_cache (self w)))%nat ->
     ppi_distribution g g0 l w = (Val d, w1) ->
     ppi_distribution g' g0' l' w1 = (Val d, w1)).
Proof.
  split; [apply cache_key_of_content|].
  split; [apply key_of_equal_content|]. split.
  - intros w x x' d w1 Hx Hmax H.
    apply probit_distribution_cached in H; auto.
    apply probit_distribution_hit.
    rewrite cache_key_of_content in *. cbn [map arg_content] in *.
    rewrite <- (@key_of_equal_content [inr x] [inr x']); auto.
  - intros w g g' g0 g0' l l' d w1 Hg Hg0 Hl Hmax H.
    apply ppi_distribution_cached in H; auto.
    apply ppi_distribution_hit.
    rewrite cache_key_of_content in *. cbn [map arg_content] in *.
    rewrite <- (@key_of_equal_content [inl (tobytes g); inr g0; inr l]
                  [inl (tobytes g'); inr g0'; inr l']); auto.
Qed.


(* ----------------------------------------------------------------- *)
(** *** [update_xi] *)

Lemma xi_slice_fn_outside wh x w :
  outside_unit_interval x -> xi_slice_fn wh x w = (Val NInf, w).
Proof.
  intros H. apply xi_guard_outside in H. unfold xi_slice_fn.
  rewrite H. reflexivity.
Qed.

Lemma xi_slice_fn_LinAlgError wh x w w' :
  ~ outside_unit_interval x ->
  (d <- probit_distribution x ;; lift (Mvn_correlate d wh)) w
    = (Exc LinAlgError, w') ->
  xi_slice_fn wh x w = (Val NInf, w').
Proof.
  intros Hx H. unfold xi_slice_fn.
  destruct ((x <=? f0)%F || (x >=? f1)%F) eqn:Hg.
  - exfalso. apply Hx, xi_guard_outside, Hg.
  - unfold attempt, try_except. unfold bind at 1. unfold bind at 1.
    rewrite H. reflexivity.
Qed.

(** What [update_xi] does once the slice sampler has returned. *)
Lemma update_xi_returned w d w1 wh x w2 d' w3 g :
  probit_distribution (xi (self w)) (with_event (Ev_enter m_update_xi) w)
    = (Val d, w1) ->
  Mvn_whiten d (gamma (self w)) = Val wh ->
  run_sampler (xi_slice_fn wh) (SliceSampler_one (xi (self w)) (rand w1))
    (with_event (Ev_SliceSampler (xi (self w))) w1) = (Val x, w2) ->
  probit_distribution x (with_self (set_xi x) w2) = (Val d', w3) ->
  Mvn_correlate d' wh = Val g ->
  update_xi w = (Val tt, with_self (set_gamma g) w3).
Proof.
  intros H1 H2 H3 H4 H5.
  unfold update_xi.
  unfold bind at 1. unfold tell at 1.
  unfold bind at 1. unfold get at 1. unfold id. cbn [self with_event].
  rewrite (bind_val _ _ _ H1).
  unfold bind at 1. unfold lift at 1. rewrite H2.
  unfold bind at 1. unfold tell at 1.
  unfold bind at 1. unfold get_rand at 1. cbn [rand with_event].
  rewrite (bind_val _ _ _ H3).
  unfold bind at 1. unfold modify at 1.
  rewrite (bind_val _ _ _ H4).
  unfold bind at 1. unfold lift at 1. rewrite H5.
  reflexivity.
Qed.

(* ----------------------------------------------------------------- *)
(** *** [update_nu] *)

Lemma half_of_nat n : (fhalf * of_nat n)%F = (of_nat n / Fin 2)%F.
Proof.
  unfold fhalf, of_nat, of_Z, fmul, fdiv.
  change (Qeq_bool 2 0) with false. cbv iota. f_equal.
  apply Qred_complete. field.
Qed.

Lemma sampler_calls_cons ev t :
  is_sampler_call ev = false -> sampler_calls (ev :: t) = sampler_calls t.
Proof. intros H. unfold sampler_calls. simpl. rewrite H. reflexivity. Qed.

Lemma update_nu_calls_no_sampler :
  preserves (fun w => sampler_calls (trace w)) update_nu.
Proof.
  apply preserves_update_nu with (allowed := fun ev => negb (is_sampler_call ev));
    try reflexivity.
  - split; intros; reflexivity.
  - intros ev w H. apply negb_true_iff in H. simpl. apply sampler_calls_cons, H.
Qed.

(** What [update_nu] does once the PPI distribution is fetched, the
    distance taken and the variate drawn. *)
Lemma update_nu_returned w d w1 m v g' :
  ppi_distribution (gamma (self w)) (gamma0 (self w)) (lamb (self w))
    (with_event (Ev_enter m_update_nu) w) = (Val d, w1) ->
  Mvn_maha d (Y (self w)) = Val m ->
  let shape := (nu_a (self w) + of_nat (N (self w)) / Fin 2)%F in
  let rate := (nu_b (self w) + fhalf * m)%F in
  random_gamma shape (f1 / rate)%F (rand w1) = (Val v, g') ->
  update_nu w
    = (Val tt,
       with_self (set_nu v)
         (with_rand g' (with_event (Ev_random_gamma shape (f1 / rate)%F) w1))).
Proof.
  intros H1 H2 shape rate H3.
  unfold update_nu.
  unfold bind at 1. unfold tell at 1.
  unfold bind at 1. unfold get at 1. unfold id. cbn [self with_event].
  rewrite (bind_val _ _ _ H1).
  unfold bind at 1. unfold lift at 1. rewrite H2.
  rewrite half_of_nat. fold shape. fold rate.
  unfold bind at 1. unfold tell at 1.
  unfold bind at 1. unfold draw at 1. cbn [rand with_event].
  rewrite H3. reflexivity.
Qed.


(* ----------------------------------------------------------------- *)
(** *** The two caches *)

Lemma init_capacities a g w :
  __init__ a g = Val w ->
  maxsize (_probit_cache (self w)) = 4%nat /\
  maxsize (_ppi_cache (self w)) = 8%nat.
Proof.
  intros H.
  assert (Hr : exists R_ ls ns,
             Mvn_init (arg_R a) (Some (min_eigenval a)) (Some (jitter a)) = Val R_ /\
             py_div f1 (snd (lambda_params a)) = Val ls /\
             py_div f1 (snd (nu_params a)) = Val ns /\
             (maxsize (_probit_cache (self w)), maxsize (_ppi_cache (self w)))
             = (4%nat, 8%nat)).
  { apply (init_reading
             (fun s => (maxsize (_probit_cache s), maxsize (_ppi_cache s))) a g);
      auto; intros c s Hc; simpl; rewrite Hc; reflexivity. }
  destruct Hr as (R_ & ls & ns & _ & _ & _ & Hr). inversion Hr. auto.
Qed.

(** C5 (amended).  The probit cache is made with capacity 4 and the
    PPI cache with capacity 8.  A memoised call acts on its cache as
    [call] does, and a cache filled by such calls holds the keys that
    first-in-first-out replacement holds: a miss on a full cache evicts
    the entry that was stored first, and a hit does not renew an
    entry. *)
Theorem caches_evict_first_stored :
  (forall a g w, __init__ a g = Val w ->
     maxsize (_probit_cache (self w)) = 4%nat /\
     maxsize (_ppi_cache (self w)) = 8%nat) /\
  (forall w x d w1, probit_distribution x w = (Val d, w1) ->
     _probit_cache (self w1)
     = call (_probit_cache (self w)) (_cache_key [ArgFloat x]) d) /\
  (forall w g g0 l d w1, ppi_distribution g g0 l w = (Val d, w1) ->
     _ppi_cache (self w1)
     = call (_ppi_cache (self w))
         (_cache_key [ArgArray g; ArgFloat g0; ArgFloat l]) d) /\
  (forall (v : Z -> Mvn) ks,
     keys (calls v (Cachetools.new Mvn 4) ks) = fifo 4 ks /\
     keys (calls v (Cachetools.new Mvn 8) ks) = fifo 8 ks).
Proof.
  split; [apply init_capacities|]. split; [|split].
  - intros w x d w1 H.
    eapply cachedmethod_call with (set_cache := set_probit_cache);
      [intros c s; destruct s; reflexivity|apply probit_method_cache|exact H].
  - intros w g g0 l d w1 H.
    eapply cachedmethod_call with (set_cache := set_ppi_cache);
      [intros c s; destruct s; reflexivity|apply ppi_method_cache|exact H].
  - intros v ks. split; apply calls_fifo; simpl; lia.
Qed.

(* ----------------------------------------------------------------- *)
(** *** Two thresholds with one key *)

Lemma hash_float_minus_one_minus_two :
  PyHash.hash_float (Fin (-1)) = PyHash.hash_float (Fin (-2)).
Proof. vm_compute. reflexivity. Qed.

Lemma cache_key_minus_one_minus_two g l :
  _cache_key [ArgArray g; ArgFloat (Fin (-1)); ArgFloat l]
  = _cache_key [ArgArray g; ArgFloat (Fin (-2)); ArgFloat l].
Proof.
  unfold _cache_key, py_hash_tuple. cbn [map item_hash].
  rewrite hash_float_minus_one_minus_two. reflexivity.
Qed.

(** A miss in the PPI cache constructs the distribution from the
    masked covariance. *)
Lemma ppi_distribution_on_miss g g0 l w :
  getitem (_ppi_cache (self w))
    (_cache_key [ArgArray g; ArgFloat g0; ArgFloat l]) = None ->
  length g = snd (Np.shape (X (self w))) ->
  fst (ppi_distribution g g0 l w)
  = Mvn_init
      (ppi_cov (self w) (map (Np.compress (Np.gt_scalar g g0)) (X (self w))) l)
      None None.
Proof.
  intros Hmiss Hlen.
  assert (Hm : length (Np.gt_scalar g g0) = length g) by apply length_map.
  unfold ppi_distribution, cachedmethod, bind, get. cbv beta iota.
  cbn [fst snd id]. rewrite Hmiss, Hm, Hlen, Nat.eqb_refl.
  unfold new_Mvn, bind, tell, lift, id.
  destruct (Mvn_init _ None None) as [d|e]; [|reflexivity].
  destruct (setitem _ _ d); reflexivity.
Qed.

(** C2.  [_cache_key] gives the thresholds -1 and -2 one key, for
    [hash(-1.0) == hash(-2.0)].  So when the PPI distribution of
    [(gamma, -1, lamb)] has been fetched, [log_marg_like] of
    [(gamma, -2, lamb, nu)] is the log-density under that cached
    distribution, the one whose covariance keeps the columns with
    [gamma > -1], and no distribution is constructed for the columns
    with [gamma > -2]. *)
Theorem log_marg_like_stale_after_collision w g l n d :
  getitem (_ppi_cache (self w))
    (_cache_key [ArgArray g; ArgFloat (Fin (-1)); ArgFloat l]) = None ->
  (1 <= maxsize (_ppi_cache (self w)))%nat ->
  length g = snd (Np.shape (X (self w))) ->
  Mvn_init
    (ppi_cov (self w)
       (map (Np.compress (Np.gt_scalar g (Fin (-1)))) (X (self w))) l)
    None None = Val d ->
  let w1 := snd (ppi_distribution g (Fin (-1)) l w) in
  log_marg_like g (Fin (-2)) l n w1 = (Mvn_logpdf d (Y (self w1)) n, w1).
Proof.
  intros Hmiss Hmax Hlen Hinit w1.
  pose proof (ppi_distribution_on_miss g (Fin (-1)) l w Hmiss Hlen) as Hfst.
  rewrite Hinit in Hfst.
  assert (Hrun : ppi_distribution g (Fin (-1)) l w = (Val d, w1)).
  { subst w1. destruct (ppi_distribution g (Fin (-1)) l w) as [o w']. simpl in *.
    rewrite Hfst. reflexivity. }
  apply ppi_distribution_cached in Hrun; auto.
  rewrite cache_key_minus_one_minus_two in Hrun.
  unfold log_marg_like.
  rewrite (bind_val _ _ _ (ppi_distribution_hit _ _ _ _ Hrun)).
  reflexivity.
Qed.

(* ----------------------------------------------------------------- *)
(** *** The driver *)

Lemma map_seq_offset {A} n :
  forall (f : nat -> A) a,
    map f (seq a n) = map (fun k => f (a + k)%nat) (seq 0 n).
Proof.
  induction n as [|n IH]; intros f a; simpl; [reflexivity|].
  rewrite Nat.add_0_r. f_equal.
  rewrite (IH f (S a)), (IH (fun k => f (a + k)%nat) 1%nat).
  apply map_ext. intros k. f_equal. lia.
Qed.

Lemma range_split b n :
  Np.range (- Z.of_nat b) (Z.of_nat n)
  = map (fun k => (Z.of_nat k - Z.of_nat b)%Z) (seq 0 b) ++ map Z.of_nat (seq 0 n).
Proof.
  unfold Np.range.
  replace (Z.to_nat (Z.of_nat n - - Z.of_nat b)) with (b + n)%nat by lia.
  rewrite seq_app, map_app. f_equal.
  - apply map_ext. intros k. lia.
  - simpl. rewrite map_seq_offset. apply map_ext. intros k. lia.
Qed.

Lemma firstn_length_app {A} (a l : list A) : firstn (length a) (a ++ l) = a.
Proof. induction a as [|x a IH]; simpl; [destruct l; reflexivity|]. rewrite IH. reflexivity. Qed.

Lemma skipn_S_length_app {A} (a l : list A) z :
  skipn (S (length a)) (a ++ z :: l) = l.
Proof. induction a as [|x a IH]; simpl; auto. Qed.

Lemma setitem_at {A} (a l : list A) (z v : A) :
  Np.setitem (a ++ z :: l) (length a) v = Val ((a ++ [v]) ++ l).
Proof.
  unfold Np.setitem.
  rewrite firstn_length_app, skipn_S_length_app, <- app_assoc, length_app.
  destruct (length a <? length a + length (z :: l))%nat eqn:H; [reflexivity|].
  apply Nat.ltb_ge in H. simpl in H. lia.
Qed.


(** Inverting a method that returned. *)
Tactic Notation "binv" hyp(H) "as" ident(a) ident(w) ident(Hn) :=
  let e := fresh "e" in
  apply bind_inv in H;
  destruct H as [(a & w & Hn & H)|(e & Hn & H)]; [|discriminate H].

Lemma sweep_static iters i :
  preserves (fun w => static (self w)) (sweep iters i).
Proof.
  unfold sweep.
  apply preserves_bind; [apply preserves_log_joint, static_insensitive|intros lj].
  apply preserves_bind; [apply preserves_get|intros s].
  apply preserves_bind;
    [apply preserves_log_marg_like, static_insensitive|intros ll].
  apply preserves_bind; [intro w; reflexivity|intros _].
  apply preserves_bind; [apply static_update_parameters|intros _].
  apply preserves_bind; [apply preserves_get|intros s'].
  apply preserves_ret.
Qed.

Lemma filled_nil iters p detailed :
  initial_traces iters p detailed = filled iters p detailed [].
Proof.
  unfold initial_traces, filled. simpl. rewrite Nat.sub_0_r.
  destruct detailed; reflexivity.
Qed.

Lemma setitem_filled {A} (f : sample -> A) kept x z iters v :
  f x = v ->
  (length kept < iters)%nat ->
  Np.setitem (map f kept ++ repeat z (iters - length kept)) (length kept) v
  = Val (map f (kept ++ [x]) ++ repeat z (iters - length (kept ++ [x]))).
Proof.
  intros Hv H. subst v. rewrite length_app. simpl.
  replace (iters - length kept)%nat with (S (iters - (length kept + 1)))%nat by lia.
  simpl. rewrite <- (length_map f kept) at 2. rewrite setitem_at, map_app.
  reflexivity.
Qed.

Lemma record_sweep_filled iters p detailed kept lj ll w :
  P (self w) = p ->
  (length kept < iters)%nat ->
  (detailed = true -> length (gamma (self w)) = p) ->
  record_sweep detailed (filled iters p detailed kept) (length kept) lj ll w
  = (Val (filled iters p detailed
            (kept ++ [{| s_joint := lj; s_like := ll;
                         s_inclusion := Np.gt_scalar (gamma (self w)) (gamma0 (self w));
                         s_gamma0 := gamma0 (self w); s_lamb := lamb (self w);
                         s_nu := nu (self w); s_xi := xi (self w) |}])), w).
Proof.
  intros Hp Hlen Hg. unfold record_sweep, filled, Np.zeros.
  set (x := {| s_joint := lj |}).
  destruct detailed; cbn [logjoint_trace inclusion_trace gamma0_trace
    lambda_trace nu_trace xi_trace loglike_trace].
  - unfold bind, lift, get, ret, id.
    rewrite (setitem_filled s_joint kept x f0 (v := lj)) by (auto; reflexivity).
    unfold Np.set_row. unfold Np.gt_scalar at 1. rewrite length_map, Hp, Hg by reflexivity.
    rewrite Nat.eqb_refl.
    rewrite (setitem_filled s_inclusion kept x (repeat false p)
               (v := Np.gt_scalar (gamma (self w)) (gamma0 (self w))))
      by (auto; reflexivity).
    rewrite (setitem_filled s_gamma0 kept x f0 (v := gamma0 (self w))) by (auto; reflexivity).
    rewrite (setitem_filled s_lamb kept x f0 (v := lamb (self w))) by (auto; reflexivity).
    rewrite (setitem_filled s_nu kept x f0 (v := nu (self w))) by (auto; reflexivity).
    rewrite (setitem_filled s_xi kept x f0 (v := xi (self w))) by (auto; reflexivity).
    rewrite (setitem_filled s_like kept x f0 (v := ll)) by (auto; reflexivity).
    reflexivity.
  - unfold bind, lift, ret.
    rewrite (setitem_filled s_joint kept x f0 (v := lj)) by (auto; reflexivity).
    reflexivity.
Qed.


Lemma sweep_inversion iters i w x w' :
  sweep iters i w = (Val x, w') ->
  exists lj w1 ll w2,
    log_joint w = (Val lj, w1) /\
    log_marg_like (gamma (self w1)) (gamma0 (self w1)) (lamb (self w1))
      (nu (self w1)) w1 = (Val ll, w2) /\
    update_parameters
      (with_event (Ev_logger_info i iters lj (gamma0 (self w1)) (lamb (self w1))
                     (nu (self w1)) (xi (self w1))) w2) = (Val tt, w') /\
    x = {| s_joint := lj; s_like := ll;
           s_inclusion := Np.gt_scalar (gamma (self w')) (gamma0 (self w'));
           s_gamma0 := gamma0 (self w'); s_lamb := lamb (self w');
           s_nu := nu (self w'); s_xi := xi (self w') |}.
Proof.
  unfold sweep. intros H.
  binv H as lj w1 H1.
  binv H as s w1' Hs. unfold get, id in Hs. inversion Hs; subst; clear Hs.
  binv H as ll w2 H2.
  binv H as u w3 Ht. unfold tell in Ht. inversion Ht; subst; clear Ht.
  binv H as u' w4 H3. destruct u'.
  binv H as s' w5 Hs. unfold get, id in Hs. inversion Hs; subst; clear Hs.
  unfold ret in H. inversion H; subst; clear H.
  do 4 eexists. repeat split; eauto.
Qed.

Lemma mcmc_step_of_sweep iters detailed t i w x w' :
  sweep iters i w = (Val x, w') ->
  mcmc_step iters detailed t i w
  = (if (0 <=? i)%Z
     then record_sweep detailed t (Z.to_nat i) (s_joint x) (s_like x)
     else ret t) w'.
Proof.
  intros H. apply sweep_inversion in H.
  destruct H as (lj & w1 & ll & w2 & H1 & H2 & H3 & Hx). subst x. simpl.
  unfold mcmc_step.
  rewrite (bind_val _ _ _ H1).
  unfold bind at 1. unfold get at 1. unfold id.
  rewrite (bind_val _ _ _ H2).
  unfold bind at 1. unfold tell at 1.
  rewrite (bind_val _ _ _ H3). reflexivity.
Qed.

Lemma mcmc_step_kept iters p detailed kept w x w' :
  sweep iters (Z.of_nat (length kept)) w = (Val x, w') ->
  P (self w) = p ->
  (length kept < iters)%nat ->
  (detailed = true -> length (s_inclusion x) = p) ->
  mcmc_step iters detailed (filled iters p detailed kept)
    (Z.of_nat (length kept)) w
  = (Val (filled iters p detailed (kept ++ [x])), w').
Proof.
  intros H Hp Hlen Hinc.
  erewrite mcmc_step_of_sweep by exact H.
  assert (Hp' : P (self w') = p).
  { pose proof (sweep_static iters (Z.of_nat (length kept)) w) as Hs.
    rewrite H in Hs. simpl in Hs. unfold static in Hs. congruence. }
  replace (0 <=? Z.of_nat (length kept))%Z with true
    by (symmetry; apply Z.leb_le; lia).
  rewrite Nat2Z.id.
  apply sweep_inversion in H.
  destruct H as (lj & w1 & ll & w2 & H1 & H2 & H3 & Hx).
  rewrite record_sweep_filled; auto.
  - subst x. reflexivity.
  - intros Hd. specialize (Hinc Hd). subst x. simpl in Hinc.
    unfold Np.gt_scalar in Hinc. rewrite length_map in Hinc. exact Hinc.
Qed.

Lemma mcmc_step_burn_in iters detailed t i w x w' :
  (i < 0)%Z ->
  sweep iters i w = (Val x, w') ->
  mcmc_step iters detailed t i w = (Val t, w').
Proof.
  intros Hi H. erewrite mcmc_step_of_sweep by exact H.
  replace (0 <=? i)%Z with false by (symmetry; apply Z.leb_gt; lia).
  reflexivity.
Qed.

Lemma sweeps_inversion iters i rest w xs w' :
  sweeps iters (i :: rest) w = (Val xs, w') ->
  exists x w1 xs',
    sweep iters i w = (Val x, w1) /\
    sweeps iters rest w1 = (Val xs', w') /\ xs = x :: xs'.
Proof.
  simpl. intros H. binv H as x w1 H1. binv H as xs' w2 H2.
  unfold ret in H. inversion H; subst. eauto 6.
Qed.

Lemma mcmc_loop_burn_in iters detailed t indices :
  Forall (fun i => (i < 0)%Z) indices ->
  forall w xs w',
    sweeps iters indices w = (Val xs, w') ->
    mcmc_loop iters detailed indices t w = (Val t, w') /\
    length xs = length indices.
Proof.
  induction 1 as [|i rest Hi _ IH]; intros w xs w' H.
  - simpl in *. unfold ret in *. inversion H; subst. auto.
  - apply sweeps_inversion in H. destruct H as (x & w1 & xs' & H1 & H2 & ->).
    simpl. erewrite bind_val by (eapply mcmc_step_burn_in; eauto).
    destruct (IH _ _ _ H2) as [IH1 IH2]. simpl. auto.
Qed.

Lemma mcmc_loop_kept iters p detailed n :
  forall kept w xs w',
    P (self w) = p ->
    (length kept + n <= iters)%nat ->
    sweeps iters (map Z.of_nat (seq (length kept) n)) w = (Val xs, w') ->
    (detailed = true -> Forall (fun x => length (s_inclusion x) = p) xs) ->
    mcmc_loop iters detailed (map Z.of_nat (seq (length kept) n))
      (filled iters p detailed kept) w
    = (Val (filled iters p detailed (kept ++ xs)), w') /\
    length xs = n.
Proof.
  induction n as [|n IH]; intros kept w xs w' Hp Hlen H Hinc.
  - simpl in *. unfold ret in *. inversion H; subst. rewrite app_nil_r. auto.
  - cbn [seq map] in H. apply sweeps_inversion in H.
    destruct H as (x & w1 & xs' & H1 & H2 & ->).
    assert (Hp1 : P (self w1) = p).
    { pose proof (sweep_static iters (Z.of_nat (length kept)) w) as Hs.
      rewrite H1 in Hs. simpl in Hs. unfold static in Hs. congruence. }
    cbn [seq map mcmc_loop].
    erewrite bind_val
      by (eapply mcmc_step_kept with (p := p); eauto; try lia;
          intros Hd; exact (Forall_inv (Hinc Hd))).
    replace (S (length kept)) with (length (kept ++ [x])) in *
      by (rewrite length_app; simpl; lia).
    destruct (IH (kept ++ [x]) w1 xs' w' Hp1) as [IH1 IH2]; auto.
    + rewrite length_app. simpl. lia.
    + intros Hd. apply (Forall_inv_tail (Hinc Hd)).
    + rewrite IH1, <- app_assoc. simpl. auto.
Qed.


Lemma sweeps_app_inversion iters l1 :
  forall l2 w xs w',
    sweeps iters (l1 ++ l2) w = (Val xs, w') ->
    exists xs1 w1 xs2,
      sweeps iters l1 w = (Val xs1, w1) /\
      sweeps iters l2 w1 = (Val xs2, w') /\ xs = xs1 ++ xs2.
Proof.
  induction l1 as [|i l1 IH]; intros l2 w xs w' H.
  - exists [], w, xs. auto.
  - rewrite <- app_comm_cons in H. apply sweeps_inversion in H.
    destruct H as (x & w1 & xs' & H1 & H2 & ->).
    destruct (IH _ _ _ _ H2) as (xs1 & w2 & xs2 & H3 & H4 & ->).
    exists (x :: xs1), w2, xs2. repeat split; auto.
    simpl. rewrite (bind_val _ _ _ H1), (bind_val _ _ _ H3). reflexivity.
Qed.

Lemma mcmc_loop_app iters detailed l1 :
  forall l2 t w,
    mcmc_loop iters detailed (l1 ++ l2) t w
    = bind (mcmc_loop iters detailed l1 t) (mcmc_loop iters detailed l2) w.
Proof.
  induction l1 as [|i l1 IH]; intros l2 t w; simpl; [reflexivity|].
  unfold bind.
  destruct (mcmc_step iters detailed t i w) as [[t'|e] w1]; [|reflexivity].
  rewrite IH. reflexivity.
Qed.

(* ----------------------------------------------------------------- *)


Lemma sweeps_entered_insensitive : insensitive sweeps_entered.
Proof. split; intros; reflexivity. Qed.

Lemma sweeps_entered_event ev w :
  negb (is_enter m_update_parameters ev) = true ->
  sweeps_entered (with_event ev w) = sweeps_entered w.
Proof.
  intros H. apply negb_true_iff in H. unfold sweeps_entered. simpl.
  apply entries_cons, H.
Qed.

Lemma update_parameters_entered w :
  sweeps_entered (snd (update_parameters w)) = S (sweeps_entered w).
Proof.
  pose proof sweeps_entered_insensitive as Hins.
  pose proof sweeps_entered_event as Hev.
  set (allowed := fun ev => negb (is_enter m_update_parameters ev)).
  unfold update_parameters. unfold bind at 1. unfold tell at 1.
  match goal with
  | |- sweeps_entered (snd (?rest ?w1)) = _ =>
      assert (Hrest : preserves sweeps_entered rest)
  end.
  { apply preserves_bind;
      [apply preserves_update_gamma with (allowed := allowed); auto; reflexivity
      |intros _].
    apply preserves_bind;
      [apply preserves_update_gamma0 with (allowed := allowed); auto; reflexivity
      |intros _].
    apply preserves_bind;
      [apply preserves_update_lambda with (allowed := allowed); auto; reflexivity
      |intros _].
    apply preserves_bind;
      [apply preserves_update_nu with (allowed := allowed); auto; reflexivity
      |intros _].
    apply preserves_bind; [apply preserves_get|intros b].
    apply preserves_if; [|apply preserves_ret].
    apply preserves_update_xi with (allowed := allowed); auto; reflexivity. }
  rewrite Hrest. reflexivity.
Qed.

Lemma sweep_entered iters i w x w' :
  sweep iters i w = (Val x, w') ->
  sweeps_entered w' = S (sweeps_entered w).
Proof.
  intros H. apply sweep_inversion in H.
  destruct H as (lj & w1 & ll & w2 & H1 & H2 & H3 & _).
  pose proof (update_parameters_entered
                (with_event (Ev_logger_info i iters lj (gamma0 (self w1))
                   (lamb (self w1)) (nu (self w1)) (xi (self w1))) w2)) as Hu.
  rewrite H3 in Hu. simpl in Hu. rewrite Hu. f_equal.
  rewrite sweeps_entered_event by reflexivity.
  pose proof (preserves_log_marg_like (gamma (self w1)) (gamma0 (self w1))
                (lamb (self w1)) (nu (self w1)) sweeps_entered_insensitive w1) as Hl.
  rewrite H2 in Hl. simpl in Hl. rewrite Hl.
  pose proof (preserves_log_joint sweeps_entered_insensitive w) as Hj.
  rewrite H1 in Hj. exact Hj.
Qed.

Lemma sweeps_entered_length iters indices :
  forall w xs w',
    sweeps iters indices w = (Val xs, w') ->
    sweeps_entered w' = (sweeps_entered w + length indices)%nat /\
    length xs = length indices.
Proof.
  induction indices as [|i rest IH]; intros w xs w' H.
  - simpl in H. unfold ret in H. inversion H; subst. simpl. split; auto; lia.
  - apply sweeps_inversion in H. destruct H as (x & w1 & xs' & H1 & H2 & ->).
    apply sweep_entered in H1. destruct (IH _ _ _ H2) as [IH1 IH2].
    simpl. split; lia.
Qed.


(* ----------------------------------------------------------------- *)
(** *** The order of floats and [np.argmax] *)

Lemma fle_refl x : x <> NaN -> (x <=? x)%F = true.
Proof.
  destruct x; simpl; try congruence; auto. intros _.
  apply Qle_bool_iff. apply Qle_refl.
Qed.

Lemma flt_fle x y : (x <? y)%F = true -> (x <=? y)%F = true.
Proof.
  destruct x, y; simpl; try congruence; auto.
  intros H. apply Qlt_bool_iff in H. apply Qle_bool_iff. apply Qlt_le_weak, H.
Qed.

Lemma not_flt_fle x y :
  x <> NaN -> y <> NaN -> (x <? y)%F = false -> (y <=? x)%F = true.
Proof.
  destruct x, y; simpl; try congruence; auto. intros _ _ H.
  apply Qle_bool_iff. apply Qnot_lt_le. intros Hlt.
  apply Qlt_bool_iff in Hlt. congruence.
Qed.

Lemma fle_trans x y z :
  (x <=? y)%F = true -> (y <=? z)%F = true -> (x <=? z)%F = true.
Proof.
  destruct x, y, z; simpl; try congruence; auto.
  rewrite !Qle_bool_iff. apply Qle_trans.
Qed.

Lemma exceeds_flt x best :
  x <> NaN -> best <> NaN -> Np.exceeds x best = (best <? x)%F.
Proof. destruct x, best; simpl; congruence. Qed.

Lemma argmax_from_spec l :
  forall pre best bi,
    Forall (fun x => x <> NaN) (pre ++ l) ->
    (bi < length pre)%nat ->
    nth bi pre NaN = best ->
    (forall x, In x pre -> (x <=? best)%F = true) ->
    let j := Np.argmax_from best bi (length pre) l in
    (j < length (pre ++ l))%nat /\
    forall x, In x (pre ++ l) -> (x <=? nth j (pre ++ l) NaN)%F = true.
Proof.
  induction l as [|x l IH]; intros pre best bi Hnan Hbi Hbest Hmax; simpl.
  - rewrite app_nil_r in *. rewrite Hbest. split; auto.
  - assert (Hx : x <> NaN).
    { rewrite Forall_forall in Hnan. apply Hnan, in_or_app. right. left. reflexivity. }
    assert (Hb : best <> NaN).
    { rewrite Forall_forall in Hnan. subst best. apply Hnan, in_or_app. left.
      apply nth_In, Hbi. }
    replace (pre ++ x :: l) with ((pre ++ [x]) ++ l) in *
      by (rewrite <- app_assoc; reflexivity).
    replace (S (length pre)) with (length (pre ++ [x]))
      by (rewrite length_app; simpl; lia).
    rewrite exceeds_flt by assumption.
    destruct (best <? x)%F eqn:Hlt.
    + apply IH; auto.
      * rewrite length_app. simpl. lia.
      * rewrite app_nth2, Nat.sub_diag by lia. reflexivity.
      * intros y Hy. apply in_app_or in Hy. destruct Hy as [Hy|[Hy|[]]].
        -- eapply fle_trans; [apply Hmax, Hy|apply flt_fle, Hlt].
        -- subst y. apply fle_refl, Hx.
    + apply IH; auto.
      * rewrite length_app. simpl. lia.
      * rewrite app_nth1 by lia. exact Hbest.
      * intros y Hy. apply in_app_or in Hy. destruct Hy as [Hy|[Hy|[]]].
        -- apply Hmax, Hy.
        -- subst y. apply not_flt_fle; auto.
Qed.

Lemma argmax_from_bound l :
  forall best bi i, (bi < i)%nat ->
    (Np.argmax_from best bi i l < i + length l)%nat.
Proof.
  induction l as [|x l IH]; intros best bi i H; simpl; [lia|].
  destruct (Np.exceeds x best).
  - specialize (IH x i (S i)). lia.
  - specialize (IH best bi (S i)). lia.
Qed.

Lemma argmax_some l :
  l <> [] ->
  exists j, Np.argmax l = Some j /\ (j < length l)%nat /\
    (Forall (fun x => x <> NaN) l ->
     forall x, In x l -> (x <=? nth j l NaN)%F = true).
Proof.
  destruct l as [|x l]; [congruence|]. intros _.
  exists (Np.argmax_from x 0 1 l). split; [reflexivity|]. split.
  - pose proof (argmax_from_bound l x (bi := 0) (i := 1)). simpl. lia.
  - intros Hnan.
    destruct (argmax_from_spec l [x] (best := x) (bi := 0)) as [_ H]; auto.
    + intros y [Hy|[]]. subst y. apply fle_refl.
      rewrite Forall_forall in Hnan. apply Hnan. left. reflexivity.
Qed.


Lemma sweeps_static iters indices :
  preserves (fun w => static (self w)) (sweeps iters indices).
Proof.
  induction indices as [|i rest IH]; simpl.
  - apply preserves_ret.
  - apply preserves_bind; [apply sweep_static|intros x].
    apply preserves_bind; [apply IH|intros xs]. apply preserves_ret.
Qed.


(** With [iters = 0] the detailed mode ends in the [ValueError] of
    [np.argmax] on an empty trace. *)
Lemma run_mcmc_detailed_without_iterations w :
  run_mcmc 0 0 true w = (Exc ValueError, w).
Proof. reflexivity. Qed.

(* ----------------------------------------------------------------- *)
(** *** Signs of floats *)

Lemma Qeq_bool_pos q : (0 < q)%Q -> Qeq_bool q 0 = false.
Proof.
  intros H. destruct (Qeq_bool q 0) eqn:Hq; auto.
  apply Qeq_bool_eq in Hq. rewrite Hq in H. exfalso. apply (Qlt_irrefl 0), H.
Qed.

Lemma positive_flt x : positive_real x -> (f0 <? x)%F = true.
Proof. intros (q & -> & H). apply Qlt_bool_iff, H. Qed.

Lemma positive_mul a b :
  positive_real a -> positive_real b -> positive_real (a * b)%F.
Proof.
  intros (p & -> & Hp) (q & -> & Hq). eexists. split; [reflexivity|].
  rewrite Qred_correct. apply Qmult_lt_0_compat; assumption.
Qed.

Lemma positive_inverse b : positive_real b -> positive_real (f1 / b)%F.
Proof.
  intros (q & -> & Hq). unfold fdiv, f1. rewrite Qeq_bool_pos by exact Hq.
  eexists. split; [reflexivity|]. rewrite Qred_correct.
  unfold Qdiv. rewrite Qmult_1_l. apply Qinv_lt_0_compat, Hq.
Qed.

Lemma py_div_positive b : positive_real b -> py_div f1 b = Val (f1 / b)%F.
Proof.
  intros (q & -> & Hq). unfold py_div. rewrite Qeq_bool_pos by exact Hq.
  reflexivity.
Qed.

Lemma positive_add_nonneg a b :
  positive_real a -> nonneg_real b -> positive_real (a + b)%F.
Proof.
  intros (p & -> & Hp) (q & -> & Hq). eexists. split; [reflexivity|].
  rewrite Qred_correct. lra.
Qed.

Lemma nonneg_half b : nonneg_real b -> nonneg_real (fhalf * b)%F.
Proof.
  intros (q & -> & Hq). eexists. split; [reflexivity|].
  rewrite Qred_correct. lra.
Qed.

Lemma nonneg_of_nat n : nonneg_real (of_nat n).
Proof.
  eexists. split; [reflexivity|]. unfold Qle. simpl. lia.
Qed.

Lemma gamma_mean_positive a s :
  positive_real a -> positive_real s ->
  positive_real (Scipy.gamma_mean (Scipy.gamma a s)).
Proof.
  intros Ha Hs. unfold Scipy.gamma_mean.
  cbn [Scipy.gamma_a Scipy.gamma_scale].
  rewrite (positive_flt Ha), (positive_flt Hs). cbn [andb].
  apply positive_mul; assumption.
Qed.

Lemma beta_mean_inside a b :
  positive_real a -> positive_real b ->
  in_unit_interval (Scipy.beta_mean (Scipy.beta a b)).
Proof.
  intros Ha Hb. unfold Scipy.beta_mean.
  cbn [Scipy.beta_a Scipy.beta_b].
  rewrite (positive_flt Ha), (positive_flt Hb). cbn [andb].
  destruct Ha as (p & -> & Hp), Hb as (q & -> & Hq).
  unfold fadd, fdiv.
  assert (Hs : (0 < Qred (p + q))%Q) by (rewrite Qred_correct; lra).
  rewrite Qeq_bool_pos by exact Hs.
  eexists. split; [reflexivity|]. rewrite !Qred_correct. split.
  - apply Qlt_shift_div_l; lra.
  - apply Qlt_shift_div_r; lra.
Qed.

Lemma finite_add a b :
  is_finite a = true -> is_finite b = true -> is_finite (a + b)%F = true.
Proof. destruct a, b; simpl; congruence. Qed.

(** A level below a finite density is finite, and what lies above it
    is not minus infinity. *)
Lemma above_level v0 e v :
  is_finite v0 = true -> nonneg_real e -> (v0 - e <=? v)%F = true -> v <> NInf.
Proof.
  intros Hv0 (q & -> & _). destruct v0; try discriminate.
  destruct v; simpl; congruence.
Qed.

Lemma finite_not_negative x :
  is_finite x = true -> ~ negative x -> nonneg_real x.
Proof.
  destruct x as [| |q|]; simpl; try discriminate. intros _ Hn.
  exists q. split; [reflexivity|]. apply Qnot_lt_le, Hn.
Qed.

Lemma finite_inside x :
  is_finite x = true -> ~ outside_unit_interval x -> in_unit_interval x.
Proof.
  destruct x as [| |q|]; simpl; try discriminate. intros _ Hn.
  exists q. split; [reflexivity|]. split.
  - apply Qnot_le_lt. tauto.
  - apply Qnot_le_lt. tauto.
Qed.

Lemma positive_finite x : positive_real x -> is_finite x = true.
Proof. intros (q & -> & _). reflexivity. Qed.

Lemma inside_finite x : in_unit_interval x -> is_finite x = true.
Proof. intros (q & -> & _). reflexivity. Qed.

Lemma inside_not_outside x : in_unit_interval x -> ~ outside_unit_interval x.
Proof.
  intros (q & -> & H0 & H1). simpl. intros [H|H].
  - apply (Qlt_not_le _ _ H0 H).
  - apply (Qlt_not_le _ _ H1 H).
Qed.

Lemma positive_not_negative x : positive_real x -> ~ negative x.
Proof. intros (q & -> & H). simpl. intros Hn. apply (Qlt_irrefl 0). lra. Qed.


(* ----------------------------------------------------------------- *)
(** *** Frames *)

Ltac insensitive_reading :=
  split; intros;
  match goal with
  | H : maxsize _ = maxsize _ |- _ =>
      unfold core, but_gamma, but_gamma0, but_lamb, but_nu, but_xi_gamma, static;
      simpl; rewrite H; reflexivity
  | _ => reflexivity
  end.

Lemma core_insensitive : insensitive core.
Proof. insensitive_reading. Qed.
Lemma but_gamma_insensitive : insensitive but_gamma.
Proof. insensitive_reading. Qed.
Lemma but_gamma0_insensitive : insensitive but_gamma0.
Proof. insensitive_reading. Qed.
Lemma but_lamb_insensitive : insensitive but_lamb.
Proof. insensitive_reading. Qed.
Lemma but_nu_insensitive : insensitive but_nu.
Proof. insensitive_reading. Qed.
Lemma but_xi_gamma_insensitive : insensitive but_xi_gamma.
Proof. insensitive_reading. Qed.

Lemma well_formed_static s s' :
  static s' = static s -> well_formed s -> well_formed s'.
Proof.
  unfold static, well_formed. intros H. injection H as ?.
  repeat match goal with Heq : _ = _ |- _ => rewrite Heq; clear Heq end.
  auto.
Qed.

(** What a method that returned did to a reading it preserves. *)
Lemma preserved {A T} (mu : world -> T) (c : M A) w o w' :
  preserves mu c -> c w = (o, w') -> mu w' = mu w.
Proof. intros Hp H. specialize (Hp w). rewrite H in Hp. exact Hp. Qed.

(* ----------------------------------------------------------------- *)
(** *** What a sampler returns *)

Lemma run_sampler_accepts (f : pyfloat -> M pyfloat) y t :
  accepts y t ->
  forall w x w',
    run_sampler f t w = (Val x, w') ->
    exists w1 v w2, f x w1 = (Val v, w2) /\ (y <=? v)%F = true.
Proof.
  induction t as [x0 g|c g k IH|e g]; simpl; intros Hacc w x w' H.
  - contradiction.
  - binv H as u w0 Hr. binv H as v w1 Hf.
    specialize (Hacc v). specialize (IH v).
    destruct (k v) as [x1 g1|c1 g1 k1|e1 g1] eqn:Hk.
    + destruct Hacc as (-> & Hle). simpl in H.
      unfold bind, set_rand, ret in H. inversion H; subst. eauto 6.
    + eapply IH; eauto.
    + simpl in H. unfold bind, set_rand, raise in H. discriminate H.
  - unfold bind, set_rand, raise in H. discriminate H.
Qed.

Lemma run_sampler_returns {A} (Q : A -> Prop) (f : A -> M pyfloat) t :
  returns_only Q t ->
  forall w x w', run_sampler f t w = (Val x, w') -> Q x.
Proof.
  induction t as [x0 g|c g k IH|e g]; simpl; intros HQ w x w' H.
  - unfold bind, set_rand, ret in H. inversion H; subst. exact HQ.
  - binv H as u w0 Hr. binv H as v w1 Hf. eapply IH; eauto.
  - unfold bind, set_rand, raise in H. discriminate H.
Qed.


(* ----------------------------------------------------------------- *)
(** *** The updates keep the invariant *)

Section Contracts.
Hypothesis Hslice : slice_sampler_contract.
Hypothesis Hess : elliptical_sampler_contract.
Hypothesis Hmvn : Mvn_contract.
Hypothesis Hlib : library_contract.

Lemma static_of_core w w' : core w' = core w -> static (self w') = static (self w).
Proof. unfold core. congruence. Qed.

Lemma log_marg_like_finite g g0 l n w a w' :
  finite_vector (Y (self w)) -> positive_real n ->
  log_marg_like g g0 l n w = (Val a, w') ->
  is_finite a = true.
Proof.
  intros HY Hn H. unfold log_marg_like in H.
  binv H as d w1 Hd. binv H as y w2 Hy.
  unfold get in Hy. inversion Hy; subst; clear Hy.
  unfold lift in H. inversion H as [[Hl Hw]]; subst.
  assert (Hs : static (self w') = static (self w)).
  { eapply (preserved (mu := fun w => static (self w))); [|exact Hd].
    apply preserves_ppi_distribution, static_insensitive. }
  assert (HY' : finite_vector (Y (self w'))).
  { unfold static in Hs. injection Hs as ?. congruence. }
  eapply (logpdf_finite Hmvn); eauto.
Qed.

(** The density of [lamb] at a positive number is finite. *)
Lemma lambda_slice_fn_finite l w v w' :
  well_formed (self w) -> positive_real (nu (self w)) -> positive_real l ->
  lambda_slice_fn l w = (Val v, w') -> is_finite v = true.
Proof.
  intros Hwf Hnu Hl H.
  rewrite lambda_slice_fn_otherwise in H by (apply positive_not_negative, Hl).
  unfold lambda_density in H.
  binv H as s w1 Hs. unfold get, id in Hs. inversion Hs; subst; clear Hs.
  binv H as a w2 Ha. unfold ret in H. inversion H; subst; clear H.
  destruct Hwf as (_ & HY & _ & _ & Hla & Hls & _).
  apply finite_add.
  - eapply log_marg_like_finite; [| |exact Ha]; auto.
  - apply (gamma_logpdf_finite Hlib); auto.
Qed.

(** [update_lambda] from a positive [lamb]: what it assigns is not
    negative, the guard of its closure sees to that; [0] passes the
    guard. *)
Lemma update_lambda_keeps w w' :
  well_formed (self w) -> positive_real (nu (self w)) ->
  positive_real (lamb (self w)) ->
  update_lambda w = (Val tt, w') ->
  but_lamb w' = but_lamb w /\ ~ negative (lamb (self w')) /\
  (slice_sampler_returns_numbers -> nonneg_real (lamb (self w'))).
Proof.
  intros Hwf Hnu Hlamb H.
  assert (Hbut : but_lamb w' = but_lamb w).
  { eapply preserved; [|exact H].
    apply preserves_update_lambda with (allowed := fun _ => true);
      try reflexivity. apply but_lamb_insensitive. }
  split; [exact Hbut|].
  unfold update_lambda in H.
  binv H as u w1 Ht. unfold tell in Ht. inversion Ht; subst; clear Ht.
  binv H as x0 w1 Hx. unfold get in Hx. inversion Hx; subst; clear Hx.
  binv H as u w1 Ht. unfold tell in Ht. inversion Ht; subst; clear Ht.
  binv H as r w1 Hr. unfold get_rand in Hr. inversion Hr; subst; clear Hr.
  binv H as x w2 Hrun. unfold modify in H. inversion H; subst; clear H.
  simpl in *.
  assert (Hneg : ~ negative x).
  { destruct (Hslice (lamb (self w)) (rand w)) as (g0 & k & Htree & Hk).
    rewrite Htree in Hrun. simpl in Hrun.
    binv Hrun as u w3 Hr. unfold set_rand in Hr. inversion Hr; subst; clear Hr.
    binv Hrun as v0 w3 Hf0.
    destruct (Hk v0) as (e & He & Hacc).
    destruct (run_sampler_accepts lambda_slice_fn _ _ Hacc _ Hrun)
      as (w4 & v & w5 & Hf & Hle).
    assert (Hv0 : is_finite v0 = true).
    { eapply lambda_slice_fn_finite; [| | |exact Hf0]; auto. }
    intros Hneg. rewrite lambda_slice_fn_negative in Hf by exact Hneg.
    inversion Hf; subst. eapply above_level; eauto. }
  split; [exact Hneg|].
  intros Hnum. apply finite_not_negative; [|exact Hneg].
  apply (run_sampler_returns (fun x => is_finite x = true) _ _
           (Hnum (lamb (self w)) (rand w) (positive_finite Hlamb)) _ Hrun).
Qed.


Lemma update_gamma0_keeps w w' o :
  update_gamma0 w = (o, w') -> but_gamma0 w' = but_gamma0 w.
Proof.
  intros H. eapply preserved; [|exact H].
  apply preserves_update_gamma0 with (allowed := fun _ => true);
    try reflexivity. apply but_gamma0_insensitive.
Qed.

Lemma update_gamma_keeps w w' :
  update_gamma w = (Val tt, w') ->
  but_gamma w' = but_gamma w /\ length (gamma (self w')) = length (gamma (self w)).
Proof.
  intros H. split.
  { eapply preserved; [|exact H].
    apply preserves_update_gamma with (allowed := fun _ => true);
      try reflexivity. apply but_gamma_insensitive. }
  unfold update_gamma in H.
  binv H as u w1 Ht. unfold tell in Ht. inversion Ht; subst; clear Ht.
  binv H as s w1 Hs. unfold get, id in Hs. inversion Hs; subst; clear Hs.
  binv H as d w1 Hd.
  binv H as u w2 Ht. unfold tell in Ht. inversion Ht; subst; clear Ht.
  binv H as r w2 Hr. unfold get_rand in Hr. inversion Hr; subst; clear Hr.
  binv H as x w2 Hrun. unfold modify in H. inversion H; subst; clear H.
  simpl in *.
  apply (run_sampler_returns (fun x : vec => length x = length (gamma (self w)))
           _ _ (Hess d (gamma (self w)) (rand w1)) _ Hrun).
Qed.

Lemma update_nu_keeps w w' :
  well_formed (self w) ->
  update_nu w = (Val tt, w') ->
  but_nu w' = but_nu w /\ positive_real (nu (self w')).
Proof.
  intros Hwf H. split.
  { eapply preserved; [|exact H].
    apply preserves_update_nu with (allowed := fun _ => true);
      try reflexivity. apply but_nu_insensitive. }
  destruct Hwf as (_ & HY & Hna & Hnb & _).
  unfold update_nu in H.
  binv H as u w1 Ht. unfold tell in Ht. inversion Ht; subst; clear Ht.
  binv H as s w1 Hs. unfold get, id in Hs. inversion Hs; subst; clear Hs.
  binv H as d w1 Hd.
  binv H as m w2 Hm. unfold lift in Hm. inversion Hm as [[Hm' Hw]]; subst; clear Hm.
  binv H as u w3 Ht. unfold tell in Ht. inversion Ht; subst; clear Ht.
  binv H as v w4 Hv. unfold modify in H. inversion H; subst; clear H.
  unfold draw in Hv. cbn [self rand with_event with_rand] in *.
  destruct (random_gamma _ _ _) as [o g'] eqn:Hdraw. cbn [fst snd] in Hv.
  inversion Hv; subst; clear Hv.
  eapply (gamma_variate_positive Hlib); [| |exact Hdraw].
  - apply positive_add_nonneg; [exact Hna|apply nonneg_half, nonneg_of_nat].
  - apply positive_inverse, positive_add_nonneg; [exact Hnb|].
    apply nonneg_half. eapply (maha_nonneg Hmvn); eauto.
Qed.

(** The density of [xi] at the current value is finite: its probit
    distribution has just been fetched and has whitened [gamma]. *)
Lemma xi_slice_fn_finite wh x0 w d y v w' :
  well_formed (self w) -> sample_xi (self w) = true ->
  positive_real (nu (self w)) -> in_unit_interval x0 ->
  getitem (_probit_cache (self w)) (_cache_key [ArgFloat x0]) = Some d ->
  Mvn_whiten d y = Val wh ->
  xi_slice_fn wh x0 w = (Val v, w') -> is_finite v = true.
Proof.
  intros Hwf Hsx Hnu Hx0 Hhit Hwh H.
  unfold xi_slice_fn in H.
  destruct ((x0 <=? f0)%F || (x0 >=? f1)%F) eqn:Hg.
  { exfalso. apply (inside_not_outside Hx0), xi_guard_outside, Hg. }
  destruct (correlate_whitened Hmvn _ _ Hwh) as (y' & Hy').
  assert (Hatt : attempt (d0 <- probit_distribution x0 ;;
                          lift (Mvn_correlate d0 wh)) LinAlgError w
                 = (Val (Some y'), w)).
  { assert (H1 : (d0 <- probit_distribution x0 ;;
                   lift (Mvn_correlate d0 wh)) w = (Val y', w)).
    { rewrite (bind_val _ _ _ (probit_distribution_hit _ _ Hhit)).
      unfold lift. rewrite Hy'. reflexivity. }
    unfold attempt, try_except. rewrite (bind_val _ _ _ H1). reflexivity. }
  rewrite (bind_val _ _ _ Hatt) in H.
  binv H as s w1 Hs. unfold get, id in Hs. injection Hs as <- <-.
  binv H as a w2 Ha. binv H as p w3 Hp.
  unfold ret in H. injection H as <- <-.
  assert (Hs2 : static (self w2) = static (self w)).
  { eapply (preserved (mu := fun w => static (self w))); [|exact Ha].
    apply preserves_log_marg_like, static_insensitive. }
  apply finite_add.
  - destruct Hwf as (_ & HY & _). eapply log_marg_like_finite; [| |exact Ha]; auto.
  - unfold xi_logpdf in Hp. binv Hp as dist w4 Hd.
    unfold get in Hd. injection Hd as <- <-.
    destruct Hwf as (_ & _ & _ & _ & _ & _ & Hxi & _).
    destruct (Hxi Hsx) as (d1 & Hd1 & Ha1 & Hb1).
    assert (Hdist : _xi_distribution (self w2) = _xi_distribution (self w)).
    { unfold static in Hs2. injection Hs2 as ?. congruence. }
    rewrite Hdist, Hd1 in Hp. unfold ret in Hp. injection Hp as <- _.
    apply (beta_logpdf_finite Hlib); auto.
Qed.

(** [update_xi] from an [xi] inside (0,1): what it assigns is not
    outside (0,1). *)
Lemma update_xi_keeps w w' :
  well_formed (self w) -> sample_xi (self w) = true ->
  in_unit_interval (xi (self w)) -> positive_real (nu (self w)) ->
  update_xi w = (Val tt, w') ->
  but_xi_gamma w' = but_xi_gamma w /\
  ~ outside_unit_interval (xi (self w')) /\
  (slice_sampler_returns_numbers -> in_unit_interval (xi (self w'))) /\
  length (gamma (self w')) = length (gamma (self w)).
Proof.
  intros Hwf Hsx Hxi Hnu H. split.
  { eapply preserved; [|exact H].
    apply preserves_update_xi with (allowed := fun _ => true);
      try reflexivity. apply but_xi_gamma_insensitive. }
  unfold update_xi in H.
  binv H as u w1 Ht. unfold tell in Ht. injection Ht as <- <-.
  binv H as s w1 Hs. unfold get, id in Hs. injection Hs as <- <-.
  binv H as d w1 Hd. cbn [self with_event] in Hd.
  binv H as wh w2 Hwh. unfold lift in Hwh. injection Hwh as Hwh <-.
  binv H as u w2 Ht. unfold tell in Ht. injection Ht as <- <-.
  binv H as r w2 Hr. unfold get_rand in Hr. injection Hr as <- <-.
  binv H as x w2 Hrun.
  binv H as u w3 Hm. unfold modify in Hm. injection Hm as <- <-.
  binv H as d' w3 Hd'.
  binv H as g w4 Hg. unfold lift in Hg. injection Hg as Hg <-.
  unfold modify in H. injection H as <-.
  cbn [self with_event with_self rand gamma xi set_gamma] in *.
  assert (Hcore : core w1 = core (with_event (Ev_enter m_update_xi) w)).
  { eapply preserved; [|exact Hd].
    apply preserves_probit_distribution, core_insensitive. }
  assert (Hst1 : static (self w1) = static (self w))
    by (apply static_of_core in Hcore; exact Hcore).
  assert (Hwf1 : well_formed (self w1)) by (eapply well_formed_static; eauto).
  assert (Hhit : getitem (_probit_cache (self w1))
                   (_cache_key [ArgFloat (xi (self w))]) = Some d).
  { eapply probit_distribution_cached; [|exact Hd].
    destruct Hwf as (_ & _ & _ & _ & _ & _ & _ & Hmax). exact Hmax. }
  assert (Hnu1 : positive_real (nu (self w1))).
  { unfold core, params in Hcore. injection Hcore as ?. simpl in *. congruence. }
  assert (Hsx1 : sample_xi (self w1) = true).
  { unfold static in Hst1. injection Hst1 as ?. congruence. }
  assert (Hxi3 : xi (self w3) = x).
  { assert (Hp : preserves (fun w => xi (self w)) (probit_distribution x))
      by (apply preserves_probit_distribution; split; intros; reflexivity).
    specialize (Hp (with_self (set_xi x) w2)). rewrite Hd' in Hp.
    exact Hp. }
  assert (Hout : ~ outside_unit_interval x).
  { destruct (Hslice (xi (self w)) (rand w1)) as (g0 & k & Htree & Hk).
    pose proof Hrun as Hrun'.
    rewrite Htree in Hrun'. simpl in Hrun'.
    binv Hrun' as u w5 Hr. unfold set_rand in Hr. injection Hr as <- <-.
    binv Hrun' as v0 w5 Hf0.
    destruct (Hk v0) as (e & He & Hacc).
    destruct (run_sampler_accepts (xi_slice_fn wh) _ _ Hacc _ Hrun')
      as (w6 & v & w7 & Hf & Hle).
    assert (Hv0 : is_finite v0 = true).
    { eapply xi_slice_fn_finite; [| | | | |exact Hwh|exact Hf0]; eauto. }
    intros Hout. rewrite xi_slice_fn_outside in Hf by exact Hout.
    injection Hf as <- _. eapply above_level; eauto. }
  simpl. rewrite Hxi3.
  split; [exact Hout|]. split.
  - intros Hnum. apply finite_inside; [|exact Hout].
    apply (run_sampler_returns (fun x => is_finite x = true) _ _
             (Hnum (xi (self w)) (rand w1) (inside_finite Hxi)) _ Hrun).
  - rewrite (correlate_length Hmvn _ _ Hg).
    apply (whiten_length Hmvn _ _ Hwh).
Qed.


(* ----------------------------------------------------------------- *)
(** *** One sweep *)

Lemma static_P s s' : static s' = static s -> P s' = P s.
Proof. unfold static. intros H. injection H as ?. assumption. Qed.

Lemma static_sample_xi s s' : static s' = static s -> sample_xi s' = sample_xi s.
Proof. unfold static. intros H. injection H as ?. assumption. Qed.

Tactic Notation "components5" hyp(E) "as" ident(S) ident(A) ident(B) ident(C) ident(D) :=
  pose proof (f_equal (fun t => fst (fst (fst (fst t)))) E) as S;
  pose proof (f_equal (fun t => snd (fst (fst (fst t)))) E) as A;
  pose proof (f_equal (fun t => snd (fst (fst t))) E) as B;
  pose proof (f_equal (fun t => snd (fst t)) E) as C;
  pose proof (f_equal (fun t => snd t) E) as D;
  cbn [fst snd] in S, A, B, C, D; clear E.

Tactic Notation "components4" hyp(E) "as" ident(S) ident(A) ident(B) ident(C) :=
  pose proof (f_equal (fun t => fst (fst (fst t))) E) as S;
  pose proof (f_equal (fun t => snd (fst (fst t))) E) as A;
  pose proof (f_equal (fun t => snd (fst t)) E) as B;
  pose proof (f_equal (fun t => snd t) E) as C;
  cbn [fst snd] in S, A, B, C; clear E.

(** One sweep from a state that satisfies the invariant. *)
Lemma update_parameters_keeps w w' :
  well_formed (self w) -> invariant (self w) ->
  update_parameters w = (Val tt, w') ->
  well_formed (self w') /\
  length (gamma (self w')) = P (self w') /\
  positive_real (nu (self w')) /\
  ~ negative (lamb (self w')) /\
  ~ outside_unit_interval (xi (self w')) /\
  (slice_sampler_returns_numbers ->
   nonneg_real (lamb (self w')) /\ in_unit_interval (xi (self w'))).
Proof.
  intros Hwf (Hxi & Hnu & Hla & Hlen) H.
  unfold update_parameters in H.
  binv H as u0 w0 Ht. unfold tell in Ht. injection Ht as <- <-.
  binv H as u1 w1 H1. destruct u1.
  binv H as u2 w2 H2. destruct u2.
  binv H as u3 w3 H3. destruct u3.
  binv H as u4 w4 H4. destruct u4.
  binv H as b w5 Hb. unfold get in Hb. injection Hb as <- <-.
  (* update_gamma *)
  apply update_gamma_keeps in H1. destruct H1 as (E1 & L1).
  unfold but_gamma in E1. components5 E1 as S1 G1 A1 N1 X1.
  cbn [self with_event] in S1, G1, A1, N1, X1, L1.
  assert (Hwf1 : well_formed (self w1)) by (apply (well_formed_static S1 Hwf)).
  (* update_gamma0 *)
  apply update_gamma0_keeps in H2.
  unfold but_gamma0 in H2. components5 H2 as S2 G2 A2 N2 X2.
  assert (Hwf2 : well_formed (self w2)) by (apply (well_formed_static S2 Hwf1)).
  assert (Hnu2 : positive_real (nu (self w2))) by (rewrite N2, N1; exact Hnu).
  assert (Hla2 : positive_real (lamb (self w2))) by (rewrite A2, A1; exact Hla).
  (* update_lambda *)
  apply update_lambda_keeps in H3; auto. destruct H3 as (E3 & Hla3 & Hla3').
  unfold but_lamb in E3. components5 E3 as S3 G3 Z3 N3 X3.
  assert (Hwf3 : well_formed (self w3)) by (apply (well_formed_static S3 Hwf2)).
  (* update_nu *)
  apply update_nu_keeps in H4; auto. destruct H4 as (E4 & Hnu4).
  unfold but_nu in E4. components5 E4 as S4 G4 Z4 A4 X4.
  assert (Hwf4 : well_formed (self w4)) by (apply (well_formed_static S4 Hwf3)).
  assert (Hxi4 : in_unit_interval (xi (self w4)))
    by (rewrite X4, X3, X2, X1; exact Hxi).
  assert (Hlen4 : length (gamma (self w4)) = P (self w4)).
  { rewrite G4, G3, G2, L1, (static_P S4), (static_P S3), (static_P S2),
      (static_P S1). exact Hlen. }
  assert (Hla4 : ~ negative (lamb (self w4))) by (rewrite A4; exact Hla3).
  assert (Hla4' : slice_sampler_returns_numbers -> nonneg_real (lamb (self w4)))
    by (rewrite A4; exact Hla3').
  (* update_xi *)
  destruct (sample_xi (self w4)) eqn:Hsx.
  - apply update_xi_keeps in H; auto. destruct H as (E5 & Hxi5 & Hxi5' & L5).
    unfold but_xi_gamma in E5. components4 E5 as S5 Z5 A5 N5.
    split; [apply (well_formed_static S5 Hwf4)|].
    rewrite L5, A5, N5, (static_P S5). auto 10.
  - unfold ret in H. injection H as <-.
    split; [exact Hwf4|]. split; [exact Hlen4|]. split; [exact Hnu4|].
    split; [exact Hla4|]. split; [apply inside_not_outside, Hxi4|].
    intros Hnum. split; [apply Hla4', Hnum|exact Hxi4].
Qed.

(* ----------------------------------------------------------------- *)
(** *** The constructor *)

Lemma length_zip_with {A B C} (f : A -> B -> C) l l' :
  length (Np.zip_with f l l') = Nat.min (length l) (length l').
Proof.
  revert l'. induction l as [|a l IH]; intros [|b l']; simpl; auto.
Qed.

Lemma length_probit_cov s x :
  length (Mvn_cov (R s)) = P s -> length (probit_cov s x) = P s.
Proof.
  intros H. unfold probit_cov, Np.add, Np.scale, Np.eye.
  rewrite length_zip_with, !length_map, length_seq, H. apply Nat.min_id.
Qed.

(** On a miss the probit distribution is constructed from
    [probit_cov]. *)
Lemma probit_distribution_on_miss x w d w1 :
  getitem (_probit_cache (self w)) (_cache_key [ArgFloat x]) = None ->
  probit_distribution x w = (Val d, w1) ->
  Mvn_init (probit_cov (self w) x) None None = Val d.
Proof.
  intros Hmiss. unfold probit_distribution, cachedmethod, bind, get.
  cbv beta iota. cbn [fst snd id]. rewrite Hmiss.
  unfold new_Mvn, bind, tell, lift, id.
  destruct (Mvn_init _ None None) as [d'|e]; [|discriminate].
  destruct (setitem _ _ d'); unfold modify, ret; intros H; congruence.
Qed.

Lemma attributes_well_formed a R_ :
  valid_args a ->
  well_formed (attributes_before_gamma a R_ (f1 / snd (lambda_params a))%F
                 (f1 / snd (nu_params a))%F).
Proof.
  intros (Hna & Hnb & Hla & Hlb & Hxi & _ & HY).
  unfold well_formed, attributes_before_gamma.
  cbn [P X Y nu_a nu_b _lambda_distribution _xi_distribution sample_xi
       _probit_cache Scipy.gamma_a Scipy.gamma_scale maxsize Cachetools.new].
  repeat split; auto.
  - apply positive_inverse, Hlb.
  - destruct (arg_xi a); [discriminate|]. intros _.
    eexists. split; [reflexivity|]. exact Hxi.
Qed.

Lemma attributes_invariant a R_ :
  valid_args a ->
  let s := attributes_before_gamma a R_ (f1 / snd (lambda_params a))%F
             (f1 / snd (nu_params a))%F in
  in_unit_interval (xi s) /\ positive_real (nu s) /\ positive_real (lamb s).
Proof.
  intros (Hna & Hnb & Hla & Hlb & Hxi & _ & HY).
  unfold attributes_before_gamma.
  cbn [xi nu lamb _nu_distribution _lambda_distribution]. repeat split.
  - destruct (arg_xi a); [exact Hxi|]. apply beta_mean_inside; tauto.
  - apply gamma_mean_positive; [exact Hna|apply positive_inverse, Hnb].
  - apply gamma_mean_positive; [exact Hla|apply positive_inverse, Hlb].
Qed.

Lemma init_keeps a g w :
  valid_args a -> __init__ a g = Val w ->
  well_formed (self w) /\ invariant (self w).
Proof.
  intros Hv H.
  assert (Hv' := Hv). destruct Hv' as (Hna & Hnb & Hla & Hlb & Hxi & HR & HY).
  destruct (init_inversion _ _ H) as (R_ & ls & ns & HR_ & Hls & Hns & Hlast).
  rewrite (py_div_positive Hlb) in Hls. injection Hls as <-.
  rewrite (py_div_positive Hnb) in Hns. injection Hns as <-.
  set (s0 := attributes_before_gamma a R_ _ _) in Hlast.
  set (w0 := {| self := s0; rand := g; trace := _ |}) in Hlast.
  binv Hlast as d w1 Hd. binv Hlast as v w2 Hdraw.
  unfold modify in Hlast. injection Hlast as <-.
  assert (Hcore : core w1 = core w0).
  { eapply preserved; [|exact Hd].
    apply preserves_probit_distribution, core_insensitive. }
  unfold draw in Hdraw.
  destruct (Mvn_rvs d (rand w1)) as [o g'] eqn:Hrvs. cbn [fst snd] in Hdraw.
  injection Hdraw as -> <-.
  assert (Hst : static (self w1) = static s0)
    by (apply static_of_core in Hcore; exact Hcore).
  assert (Hpar : params (self w1) = params s0)
    by (apply (f_equal snd) in Hcore; exact Hcore).
  split.
  - eapply well_formed_static; [|apply (attributes_well_formed R_ Hv)].
    exact Hst.
  - destruct (attributes_invariant R_ Hv) as (I1 & I2 & I3).
    fold s0 in I1, I2, I3.
    unfold params in Hpar. injection Hpar as _ _ E3 E4 E5.
    unfold invariant. cbn [self with_self with_rand set_gamma xi nu lamb gamma P].
    rewrite E3, E4, E5, (static_P Hst).
    repeat split; auto.
    apply probit_distribution_on_miss in Hd; [|reflexivity].
    rewrite (rvs_length Hmvn _ _ _ _ Hd Hrvs).
    apply length_probit_cov. subst w0 s0. cbn.
    rewrite (cov_length Hmvn _ _ _ HR_). exact HR.
Qed.


End Contracts.


(* ================================================================= *)
(** ** Properties beyond the specification *)

(* ----------------------------------------------------------------- *)
(** *** [log_joint] and the two caches *)

Lemma probit_distribution_ppi_cache x :
  preserves (fun w => _ppi_cache (self w)) (probit_distribution x).
Proof.
  unfold probit_distribution. apply preserves_cachedmethod.
  - intros c w _. reflexivity.
  - intro w. unfold bind, get, new_Mvn, bind, tell, lift, id.
    destruct (Mvn_init _ _ _); reflexivity.
Qed.

(** What a call of [log_joint] that returned has computed, and what it
    leaves in the caches. *)
Lemma log_joint_cached w v w1 :
  (1 <= maxsize (_ppi_cache (self w)))%nat ->
  log_joint w = (Val v, w1) ->
  exists dp a m e f,
    core w1 = core w /\
    getitem (_ppi_cache (self w1))
      (_cache_key [ArgArray (gamma (self w)); ArgFloat (gamma0 (self w));
                   ArgFloat (lamb (self w))]) = Some dp /\
    Mvn_logpdf dp (Y (self w)) (nu (self w)) = Val a /\
    ((1 <= maxsize (_probit_cache (self w)))%nat ->
     getitem (_probit_cache (self w1)) (_cache_key [ArgFloat (xi (self w))])
     = Some m) /\
    Mvn_logpdf m (gamma (self w)) f1 = Val e /\
    (if sample_xi (self w) then xi_logpdf (xi (self w)) else ret f0) w1
      = (Val f, w1) /\
    v = py_sum (a :: prior_terms (self w) ++ [e; f]).
Proof.
  intros Hc2 H.
  assert (Hcore : core w1 = core w).
  { eapply preserved; [|exact H]. apply preserves_log_joint, core_insensitive. }
  unfold log_joint in H.
  binv H as s w0 Hs. unfold get, id in Hs. injection Hs as <- <-.
  binv H as a wA Ha. unfold log_marg_like in Ha.
  binv Ha as dp wB Hdp. binv Ha as y wC Hy. unfold get in Hy.
  injection Hy as <- <-. unfold lift in Ha. injection Ha as Ha <-.
  binv H as m wD Hm. binv H as e wE He. unfold lift in He.
  injection He as He <-. binv H as f wF Hf. unfold ret in H.
  injection H as <- <-.
  assert (HsB : static (self wB) = static (self w)).
  { eapply (preserved (mu := fun w => static (self w))); [|exact Hdp].
    apply preserves_ppi_distribution, static_insensitive. }
  assert (HwF : wF = wD).
  { destruct (sample_xi (self w)).
    - unfold xi_logpdf, bind, get in Hf.
      destruct (_xi_distribution (self wD)); unfold ret, raise in Hf; congruence.
    - unfold ret in Hf. congruence. }
  subst wF.
  exists dp, a, m, e, f. split; [exact Hcore|].
  split.
  { erewrite (preserved (mu := fun w => _ppi_cache (self w)));
      [|apply probit_distribution_ppi_cache|exact Hm].
    eapply ppi_distribution_cached; [exact Hc2|exact Hdp]. }
  split.
  { rewrite <- Ha. f_equal. unfold static in HsB.
    apply (f_equal (fun t => snd (fst (fst (fst (fst (fst (fst (fst (fst (fst
             (fst (fst (fst (fst t))))))))))))))) in HsB.
    cbn [fst snd] in HsB. symmetry. exact HsB. }
  split.
  { intros Hc1. eapply probit_distribution_cached; [|exact Hm].
    unfold static in HsB.
    apply (f_equal (fun t => snd (fst t))) in HsB. cbn [fst snd] in HsB.
    rewrite HsB. exact Hc1. }
  split; [exact He|]. split; [exact Hf|]. reflexivity.
Qed.


Lemma core_components w w' :
  core w' = core w ->
  static (self w') = static (self w) /\
  gamma (self w') = gamma (self w) /\ gamma0 (self w') = gamma0 (self w) /\
  lamb (self w') = lamb (self w) /\ nu (self w') = nu (self w) /\
  xi (self w') = xi (self w).
Proof.
  unfold core, params. intros H.
  pose proof (f_equal fst H) as Hs. pose proof (f_equal snd H) as Hp.
  cbn [fst snd] in Hs, Hp. injection Hp as ? ? ? ? ?. auto 10.
Qed.

Lemma static_components s s' :
  static s' = static s ->
  Y s' = Y s /\ sample_xi s' = sample_xi s /\
  _xi_distribution s' = _xi_distribution s /\
  _gamma0_distribution s' = _gamma0_distribution s /\
  _lambda_distribution s' = _lambda_distribution s /\
  _nu_distribution s' = _nu_distribution s.
Proof. unfold static. intros H. injection H as ?. auto 10. Qed.

(** X1.  [log_joint] can be repeated: right after a call that returned
    [v], a second call returns [v] again and leaves the object, the
    generator and the ghost trace as they are; both distributions come
    from the caches and no [Mvn] is constructed. *)
Theorem log_joint_repeatable w v w1 :
  (1 <= maxsize (_probit_cache (self w)))%nat ->
  (1 <= maxsize (_ppi_cache (self w)))%nat ->
  log_joint w = (Val v, w1) ->
  log_joint w1 = (Val v, w1).
Proof.
  intros Hc1 Hc2 H.
  destruct (@log_joint_cached w v w1 Hc2 H)
    as (dp & a & m & e & f & Hcore & Hppi & Ha & Hprobit & He & Hf & ->).
  specialize (Hprobit Hc1).
  destruct (core_components Hcore) as (Hst & Hg & Hg0 & Hl & Hn & Hx).
  destruct (static_components Hst) as (HY & Hsx & Hxd & Hgd & Hld & Hnd).
  unfold log_joint, prior_terms.
  unfold bind at 1. unfold get at 1. unfold id.
  rewrite Hg, Hg0, Hl, Hn, Hx, Hsx, Hgd, Hld, Hnd.
  assert (Hll : log_marg_like (gamma (self w)) (gamma0 (self w)) (lamb (self w))
                  (nu (self w)) w1 = (Val a, w1)).
  { unfold log_marg_like.
    rewrite (bind_val _ _ _ (ppi_distribution_hit _ _ _ _ Hppi)).
    unfold bind, get, lift. rewrite HY, Ha. reflexivity. }
  rewrite (bind_val _ _ _ Hll).
  rewrite (bind_val _ _ _ (probit_distribution_hit _ _ Hprobit)).
  unfold bind at 1. unfold lift at 1. rewrite He.
  rewrite (bind_val _ _ _ Hf). reflexivity.
Qed.

(** X2.  In the loop of [run_mcmc], [log_like] is computed right after
    [log_joint]: that second evaluation is served by the PPI cache,
    constructs nothing, and gives the first of the six terms that
    [log_joint] has just added up.  The other five are the three prior
    terms, the log-density of [gamma] under the probit distribution of
    [xi], which the probit cache now serves, and the log-density of
    [xi] under its prior, or [0.0] when [xi] is not sampled: all six
    can be computed again in the state that [log_joint] left. *)
Theorem log_like_is_the_first_term_of_log_joint w v w1 :
  (1 <= maxsize (_probit_cache (self w)))%nat ->
  (1 <= maxsize (_ppi_cache (self w)))%nat ->
  log_joint w = (Val v, w1) ->
  exists a m e f,
    log_marg_like (gamma (self w1)) (gamma0 (self w1)) (lamb (self w1))
      (nu (self w1)) w1 = (Val a, w1) /\
    probit_distribution (xi (self w1)) w1 = (Val m, w1) /\
    Mvn_logpdf m (gamma (self w1)) f1 = Val e /\
    (if sample_xi (self w1) then xi_logpdf (xi (self w1)) else ret f0) w1
      = (Val f, w1) /\
    (sample_xi (self w1) = false -> f = f0) /\
    v = py_sum (a :: prior_terms (self w1) ++ [e; f]).
Proof.
  intros Hc1 Hc2 H.
  destruct (@log_joint_cached w v w1 Hc2 H)
    as (dp & a & m & e & f & Hcore & Hppi & Ha & Hprobit & He & Hf & ->).
  specialize (Hprobit Hc1).
  destruct (core_components Hcore) as (Hst & Hg & Hg0 & Hl & Hn & Hx).
  destruct (static_components Hst) as (HY & Hsx & Hxd & Hgd & Hld & Hnd).
  exists a, m, e, f. unfold prior_terms.
  rewrite Hg, Hg0, Hl, Hn, Hx, Hsx, Hgd, Hld, Hnd.
  split; [|split; [|split; [|split; [|split]]]].
  - unfold log_marg_like.
    rewrite (bind_val _ _ _ (ppi_distribution_hit _ _ _ _ Hppi)).
    unfold bind, get, lift. rewrite HY, Ha. reflexivity.
  - apply probit_distribution_hit, Hprobit.
  - exact He.
  - exact Hf.
  - intros Hfalse. rewrite Hfalse in Hf. unfold ret in Hf. congruence.
  - reflexivity.
Qed.


(* ----------------------------------------------------------------- *)
(** *** Relations that every run respects *)

Section Steps.
Variable R : world -> world -> Prop.

Section CacheSteps.
Hypothesis HR : cache_step R.

Lemma steps_ret {A} (a : A) : steps R (ret a).
Proof. intro w. apply (cs_refl HR). Qed.

Lemma steps_raise {A} e : steps R (@raise _ A e).
Proof. intro w. apply (cs_refl HR). Qed.

Lemma steps_lift {A} (o : outcome A) : steps R (lift o).
Proof. intro w. apply (cs_refl HR). Qed.

Lemma steps_get {A} (f : Probit -> A) : steps R (get f).
Proof. intro w. apply (cs_refl HR). Qed.

Lemma steps_get_rand : steps R get_rand.
Proof. intro w. apply (cs_refl HR). Qed.

Lemma steps_bind {A B} (c : M A) (k : A -> M B) :
  steps R c -> (forall a, steps R (k a)) -> steps R (bind c k).
Proof.
  intros Hc Hk w. unfold bind. specialize (Hc w).
  destruct (c w) as [[a|e] w1]; simpl in *.
  - eapply (cs_trans HR); [exact Hc|apply Hk].
  - exact Hc.
Qed.

Lemma steps_try_except {A} (c h : M A) e :
  steps R c -> steps R h -> steps R (try_except c e h).
Proof.
  intros Hc Hh w. unfold try_except. specialize (Hc w).
  destruct (c w) as [[a|e'] w1]; simpl in *; auto.
  destruct (exn_eqb e e'); simpl; auto.
  eapply (cs_trans HR); [exact Hc|apply Hh].
Qed.

Lemma steps_attempt {A} (c : M A) e : steps R c -> steps R (attempt c e).
Proof.
  intros Hc. unfold attempt. apply steps_try_except.
  - apply steps_bind; auto. intros a. apply steps_ret.
  - apply steps_ret.
Qed.

Lemma steps_if {A} (b : bool) (c c' : M A) :
  steps R c -> steps R c' -> steps R (if b then c else c').
Proof. destruct b; auto. Qed.

Lemma steps_new_Mvn cov a b : steps R (new_Mvn cov a b).
Proof.
  unfold new_Mvn. apply steps_bind.
  - intro w. apply (cs_Mvn HR).
  - intros _. apply steps_lift.
Qed.

Lemma steps_cachedmethod cache set_cache k method :
  (forall w k v c, setitem (cache (self w)) k v = Some c ->
                   R w (with_self (set_cache c) w)) ->
  steps R method ->
  steps R (cachedmethod cache set_cache k method).
Proof.
  intros Hset Hm w. unfold cachedmethod, bind, get, modify, ret. simpl.
  destruct (getitem (cache (self w)) k); simpl; [apply (cs_refl HR)|].
  specialize (Hm w). destruct (method w) as [[v|e] w1]; simpl in *; auto.
  destruct (setitem (cache (self w1)) k v) as [c''|] eqn:Hs; simpl; auto.
  eapply (cs_trans HR); [exact Hm|]. eapply Hset, Hs.
Qed.

Lemma steps_probit_distribution x : steps R (probit_distribution x).
Proof.
  unfold probit_distribution. apply steps_cachedmethod.
  - apply (cs_probit HR).
  - apply steps_bind; [apply steps_get|intros; apply steps_new_Mvn].
Qed.

Lemma steps_ppi_distribution g g0 l : steps R (ppi_distribution g g0 l).
Proof.
  unfold ppi_distribution. apply steps_cachedmethod.
  - apply (cs_ppi HR).
  - apply steps_bind; [apply steps_get|intros s].
    apply steps_if; [apply steps_new_Mvn|apply steps_raise].
Qed.

Lemma steps_log_marg_like g g0 l n : steps R (log_marg_like g g0 l n).
Proof.
  unfold log_marg_like.
  apply steps_bind; [apply steps_ppi_distribution|intros d].
  apply steps_bind; [apply steps_get|intros; apply steps_lift].
Qed.

Lemma steps_xi_logpdf x : steps R (xi_logpdf x).
Proof.
  unfold xi_logpdf. apply steps_bind; [apply steps_get|intros [d|]].
  - apply steps_ret.
  - apply steps_raise.
Qed.

Lemma steps_log_joint : steps R log_joint.
Proof.
  unfold log_joint.
  apply steps_bind; [apply steps_get|intros s].
  apply steps_bind; [apply steps_log_marg_like|intros a].
  apply steps_bind; [apply steps_probit_distribution|intros m].
  apply steps_bind; [apply steps_lift|intros e].
  apply steps_bind; [|intros f; apply steps_ret].
  apply steps_if; [apply steps_xi_logpdf|apply steps_ret].
Qed.

End CacheSteps.

Section UpdateSteps.
Hypothesis HU : update_step R.
Let HR : cache_step R := us_cache HU.

Lemma steps_set_rand g : steps R (set_rand g).
Proof. intro w. apply (us_rand HU). Qed.

Lemma steps_draw {A} (f : rng -> outcome A * rng) : steps R (draw f).
Proof. intro w. apply (us_rand HU). Qed.

Lemma steps_tell ev : steps R (tell ev).
Proof. intro w. apply (us_event HU). Qed.

Lemma steps_run_sampler {A} (f : A -> M pyfloat) (t : qtree rng A) :
  (forall c, steps R (f c)) -> steps R (run_sampler f t).
Proof.
  intros Hf. induction t as [x g|c g k IH|e g]; simpl.
  - apply steps_bind; [exact HR|apply steps_set_rand|intros; apply steps_ret, HR].
  - apply steps_bind; [exact HR|apply steps_set_rand|intros _].
    apply steps_bind; auto.
  - apply steps_bind; [exact HR|apply steps_set_rand|intros; apply steps_raise, HR].
Qed.

Lemma steps_update_gamma : steps R update_gamma.
Proof.
  unfold update_gamma.
  apply steps_bind; [exact HR|apply steps_tell|intros _].
  apply steps_bind; [exact HR|apply steps_get, HR|intros s].
  apply steps_bind; [exact HR|apply steps_probit_distribution, HR|intros d].
  apply steps_bind; [exact HR|apply steps_tell|intros _].
  apply steps_bind; [exact HR|apply steps_get_rand, HR|intros r].
  apply steps_bind; [exact HR| |intros x w; apply (us_gamma HU)].
  apply steps_run_sampler. intros g.
  apply steps_bind; [exact HR|apply steps_get, HR|intros s'].
  apply steps_log_marg_like, HR.
Qed.

Lemma steps_gamma0_slice_fn g0 : steps R (gamma0_slice_fn g0).
Proof.
  unfold gamma0_slice_fn.
  apply steps_bind; [exact HR|apply steps_get, HR|intros s].
  apply steps_bind; [exact HR|apply steps_log_marg_like, HR|intros v].
  apply steps_ret, HR.
Qed.

Lemma steps_update_gamma0 : steps R update_gamma0.
Proof.
  unfold update_gamma0.
  apply steps_bind; [exact HR|apply steps_tell|intros _].
  apply steps_bind; [exact HR|apply steps_get, HR|intros x0].
  apply steps_bind; [exact HR|apply steps_tell|intros _].
  apply steps_bind; [exact HR|apply steps_get_rand, HR|intros r].
  apply steps_bind; [exact HR| |intros x w; apply (us_gamma0 HU)].
  apply steps_run_sampler, steps_gamma0_slice_fn.
Qed.

Lemma steps_lambda_slice_fn l : steps R (lambda_slice_fn l).
Proof.
  unfold lambda_slice_fn. apply steps_if; [exact (steps_ret HR _)|].
  apply steps_bind; [exact HR|apply steps_get, HR|intros s].
  apply steps_bind; [exact HR|apply steps_log_marg_like, HR|intros v].
  apply steps_ret, HR.
Qed.

Lemma steps_update_lambda : steps R update_lambda.
Proof.
  unfold update_lambda.
  apply steps_bind; [exact HR|apply steps_tell|intros _].
  apply steps_bind; [exact HR|apply steps_get, HR|intros x0].
  apply steps_bind; [exact HR|apply steps_tell|intros _].
  apply steps_bind; [exact HR|apply steps_get_rand, HR|intros r].
  apply steps_bind; [exact HR| |intros x w; apply (us_lamb HU)].
  apply steps_run_sampler, steps_lambda_slice_fn.
Qed.

Lemma steps_update_nu : steps R update_nu.
Proof.
  unfold update_nu.
  apply steps_bind; [exact HR|apply steps_tell|intros _].
  apply steps_bind; [exact HR|apply steps_get, HR|intros s].
  apply steps_bind; [exact HR|apply steps_ppi_distribution, HR|intros d].
  apply steps_bind; [exact HR|apply steps_lift, HR|intros m].
  apply steps_bind; [exact HR|apply steps_tell|intros _].
  apply steps_bind; [exact HR|apply steps_draw|intros v w; apply (us_nu HU)].
Qed.

Lemma steps_xi_slice_fn wh x : steps R (xi_slice_fn wh x).
Proof.
  unfold xi_slice_fn. apply steps_if; [exact (steps_ret HR _)|].
  apply steps_bind; [exact HR| |intros [g|]; [|apply steps_ret, HR]].
  - apply steps_attempt; [exact HR|].
    apply steps_bind; [exact HR|apply steps_probit_distribution, HR|intros d].
    apply steps_lift, HR.
  - apply steps_bind; [exact HR|apply steps_get, HR|intros s].
    apply steps_bind; [exact HR|apply steps_log_marg_like, HR|intros v].
    apply steps_bind; [exact HR|apply steps_xi_logpdf, HR|intros p].
    apply steps_ret, HR.
Qed.

Lemma steps_update_xi : steps R update_xi.
Proof.
  unfold update_xi.
  apply steps_bind; [exact HR|apply steps_tell|intros _].
  apply steps_bind; [exact HR|apply steps_get, HR|intros s].
  apply steps_bind; [exact HR|apply steps_probit_distribution, HR|intros d].
  apply steps_bind; [exact HR|apply steps_lift, HR|intros wh].
  apply steps_bind; [exact HR|apply steps_tell|intros _].
  apply steps_bind; [exact HR|apply steps_get_rand, HR|intros r].
  apply steps_bind; [exact HR|apply steps_run_sampler, steps_xi_slice_fn|intros x].
  apply steps_bind; [exact HR|intros w; apply (us_xi HU)|intros _].
  apply steps_bind; [exact HR|apply steps_probit_distribution, HR|intros d'].
  apply steps_bind; [exact HR|apply steps_lift, HR|intros g w; apply (us_gamma HU)].
Qed.

Lemma steps_update_parameters : steps R update_parameters.
Proof.
  unfold update_parameters.
  apply steps_bind; [exact HR|apply steps_tell|intros _].
  apply steps_bind; [exact HR|apply steps_update_gamma|intros _].
  apply steps_bind; [exact HR|apply steps_update_gamma0|intros _].
  apply steps_bind; [exact HR|apply steps_update_lambda|intros _].
  apply steps_bind; [exact HR|apply steps_update_nu|intros _].
  apply steps_bind; [exact HR|apply steps_get, HR|intros b].
  apply steps_if; [apply steps_update_xi|apply steps_ret, HR].
Qed.

Lemma steps_record_sweep detailed t i a b :
  steps R (record_sweep detailed t i a b).
Proof.
  unfold record_sweep.
  apply steps_bind; [exact HR|apply steps_lift, HR|intros lj].
  destruct detailed; [|apply steps_ret, HR].
  apply steps_bind; [exact HR|apply steps_get, HR|intros s].
  repeat (apply steps_bind; [exact HR|apply steps_lift, HR|intro]).
  apply steps_ret, HR.
Qed.

Lemma steps_mcmc_step iters detailed t i :
  steps R (mcmc_step iters detailed t i).
Proof.
  unfold mcmc_step.
  apply steps_bind; [exact HR|apply steps_log_joint, HR|intros lj].
  apply steps_bind; [exact HR|apply steps_get, HR|intros s].
  apply steps_bind; [exact HR|apply steps_log_marg_like, HR|intros ll].
  apply steps_bind; [exact HR|apply steps_tell|intros _].
  apply steps_bind; [exact HR|apply steps_update_parameters|intros _].
  apply steps_if; [apply steps_record_sweep|apply steps_ret, HR].
Qed.

Lemma steps_mcmc_loop iters detailed indices :
  forall t, steps R (mcmc_loop iters detailed indices t).
Proof.
  induction indices as [|i rest IH]; intros t; simpl.
  - apply steps_ret, HR.
  - apply steps_bind; [exact HR|apply steps_mcmc_step|intros; apply IH].
Qed.

Lemma steps_run_mcmc iters burn_in detailed :
  steps R (run_mcmc iters burn_in detailed).
Proof.
  unfold run_mcmc.
  apply steps_bind; [exact HR|apply steps_get, HR|intros p].
  apply steps_bind; [exact HR|apply steps_mcmc_loop|intros t].
  apply steps_if; [apply steps_ret, HR|].
  destruct (Np.argmax _); [|apply steps_raise, HR].
  apply steps_bind; [exact HR|apply steps_lift, HR|intros row].
  apply steps_ret, HR.
Qed.

End UpdateSteps.
End Steps.

(* ----------------------------------------------------------------- *)
(** *** The size of the caches *)

Lemma length_make_room {V} n (d : list (Z * V)) :
  (1 <= n)%nat -> (length (make_room n d) + 1 <= n)%nat.
Proof.
  intros Hn. induction d as [|x d IH]; cbn [make_room]; [simpl; lia|].
  destruct (n <? S (length d) + 1)%nat eqn:Hlt; [exact IH|].
  apply Nat.ltb_ge in Hlt. simpl. lia.
Qed.

Lemma assoc_make_room {V} k n (d : list (Z * V)) :
  assoc k d = None -> assoc k (make_room n d) = None.
Proof.
  induction d as [|[k' v'] d IH]; cbn [make_room]; [auto|].
  intros H. destruct (n <? S (length d) + 1)%nat; [|exact H].
  apply IH. simpl in H. destruct (k =? k')%Z; [discriminate|exact H].
Qed.

Lemma length_store_known {V} k (v v' : V) d :
  assoc k d = Some v' -> length (store k v d) = length d.
Proof.
  induction d as [|[k1 v1] d IH]; simpl; [discriminate|].
  destruct (k =? k1)%Z; simpl; auto.
Qed.

Lemma setitem_within {V} (c c' : Cache V) k v :
  setitem c k v = Some c' ->
  (currsize c <= maxsize c)%nat -> (currsize c' <= maxsize c')%nat.
Proof.
  unfold setitem, currsize.
  destruct (maxsize c <? 1)%nat eqn:Hm; [discriminate|].
  apply Nat.ltb_ge in Hm. intros H Hlen. injection H as <-. simpl.
  destruct (assoc k (data c)) as [v'|] eqn:Ha.
  - rewrite (length_store_known _ _ _ Ha). exact Hlen.
  - rewrite store_fresh by (apply assoc_make_room; exact Ha).
    rewrite length_app. simpl. apply length_make_room. exact Hm.
Qed.

Lemma within_capacity_update_step n m :
  update_step (fun w w' => within_capacity n m w -> within_capacity n m w').
Proof.
  split; [split|..]; auto.
  - intros w k v c Hs (H1 & H2 & H3 & H4).
    pose proof (setitem_maxsize _ _ _ Hs) as Hm.
    pose proof (setitem_within _ _ _ Hs) as Hw.
    unfold within_capacity. simpl. rewrite Hm, H1 in *. auto.
  - intros w k v c Hs (H1 & H2 & H3 & H4).
    pose proof (setitem_maxsize _ _ _ Hs) as Hm.
    pose proof (setitem_within _ _ _ Hs) as Hw.
    unfold within_capacity. simpl. rewrite Hm, H2 in *. auto.
Qed.

(** X7.  The caches never outgrow their capacity.  A constructed model
    has a probit cache of capacity 4 and a PPI cache of capacity 8 with
    no more items than that; and whatever their outcome, a call of
    [log_joint], a sweep of [update_parameters] and a whole run of
    [run_mcmc] keep the capacities and leave no more items than the
    capacities allow. *)
Theorem caches_stay_within_capacity :
  (forall a g w, __init__ a g = Val w -> within_capacity 4 8 w) /\
  (forall n m w, within_capacity n m w ->
     within_capacity n m (snd (log_joint w)) /\
     within_capacity n m (snd (update_parameters w)) /\
     forall iters burn_in detailed,
       within_capacity n m (snd (run_mcmc iters burn_in detailed w))).
Proof.
  split.
  - intros a g w H.
    destruct (init_inversion _ _ H) as (R_ & ls & ns & _ & _ & _ & Hlast).
    pose proof (within_capacity_update_step 4 8) as HU.
    match type of Hlast with
    | ?c ?w0 = _ =>
        assert (Hs : steps (fun w w' => within_capacity 4 8 w ->
                                        within_capacity 4 8 w') c);
        [|specialize (Hs w0); rewrite Hlast in Hs; apply Hs]
    end.
    + apply steps_bind; [exact (us_cache HU)| |intros d].
      * apply steps_probit_distribution, (us_cache HU).
      * apply steps_bind; [exact (us_cache HU)|apply steps_draw, HU|].
        intros v w1. apply (us_gamma HU).
    + unfold within_capacity, attributes_before_gamma, currsize. simpl.
      repeat split; lia.
  - intros n m w Hw.
    pose proof (within_capacity_update_step n m) as HU.
    split; [|split].
    + apply (steps_log_joint (us_cache HU)), Hw.
    + apply (steps_update_parameters HU), Hw.
    + intros iters burn_in detailed. apply (steps_run_mcmc HU), Hw.
Qed.

Lemma constructed_only_cache_step : cache_step constructed_only.
Proof.
  split.
  - intros w. split; [reflexivity|]. exists []. auto.
  - intros w1 w2 w3 (Hr1 & n1 & Ht1 & Hn1) (Hr2 & n2 & Ht2 & Hn2).
    split; [congruence|]. exists (n2 ++ n1). split.
    + rewrite Ht2, Ht1, app_assoc. reflexivity.
    + rewrite forallb_app, Hn1, Hn2. reflexivity.
  - intros cov w. split; [reflexivity|]. exists [Ev_Mvn cov]. auto.
  - intros w k v c _. split; [reflexivity|]. exists []. auto.
  - intros w k v c _. split; [reflexivity|]. exists []. auto.
Qed.

(** X3.  Whatever its outcome, [log_joint] assigns no parameter and no
    other attribute but the two caches, draws nothing from the random
    generator, and enters no update and no sampler: all that the ghost
    trace gains are constructions of [Mvn]. *)
Theorem log_joint_touches_only_the_caches w :
  let w' := snd (log_joint w) in
  core w' = core w /\ constructed_only w w'.
Proof.
  split.
  - apply preserves_log_joint, core_insensitive.
  - apply steps_log_joint, constructed_only_cache_step.
Qed.


(* ----------------------------------------------------------------- *)
(** *** What an update assigns *)

(** X4.  Whatever its outcome, an update assigns only its own
    parameter: [update_gamma] leaves [gamma0], [lamb], [nu] and [xi]
    alone, and so on; [update_xi] assigns [xi] and [gamma].  None of
    them changes the data, the priors or the capacity of a cache. *)
Theorem an_update_assigns_its_own_parameter w :
  but_gamma (snd (update_gamma w)) = but_gamma w /\
  but_gamma0 (snd (update_gamma0 w)) = but_gamma0 w /\
  but_lamb (snd (update_lambda w)) = but_lamb w /\
  but_nu (snd (update_nu w)) = but_nu w /\
  but_xi_gamma (snd (update_xi w)) = but_xi_gamma w.
Proof.
  split; [|split; [|split; [|split]]].
  - apply preserves_update_gamma with (allowed := fun _ => true);
      try reflexivity. apply but_gamma_insensitive.
  - apply preserves_update_gamma0 with (allowed := fun _ => true);
      try reflexivity. apply but_gamma0_insensitive.
  - apply preserves_update_lambda with (allowed := fun _ => true);
      try reflexivity. apply but_lamb_insensitive.
  - apply preserves_update_nu with (allowed := fun _ => true);
      try reflexivity. apply but_nu_insensitive.
  - apply preserves_update_xi with (allowed := fun _ => true);
      try reflexivity. apply but_xi_gamma_insensitive.
Qed.

Lemma unchanged_bind {A B T} (mu : world -> T) (c : M A) (k : A -> M B) :
  preserves mu c -> (forall a, unchanged_on_failure mu (k a)) ->
  unchanged_on_failure mu (bind c k).
Proof.
  intros Hc Hk w e. unfold bind. specialize (Hc w).
  destruct (c w) as [[a|e'] w1]; simpl in *.
  - intros H. rewrite (Hk a w1 e H). exact Hc.
  - intros _. exact Hc.
Qed.

Lemma unchanged_modify {T} (mu : world -> T) f :
  unchanged_on_failure mu (modify f).
Proof. intros w e H. discriminate H. Qed.

Lemma but_xi_insensitive : insensitive but_xi.
Proof.
  split; intros;
  match goal with
  | H : maxsize _ = maxsize _ |- _ =>
      unfold but_xi, static; simpl; rewrite H; reflexivity
  | _ => reflexivity
  end.
Qed.

Ltac unchanged_step Hins :=
  apply unchanged_bind;
  [first [ apply preserves_get | apply preserves_get_rand
         | apply preserves_lift
         | apply preserves_draw, Hins
         | apply preserves_probit_distribution, Hins
         | apply preserves_ppi_distribution, Hins
         | intro; reflexivity ]
  |intro].

(** X5.  An update that raises has assigned nothing: after a failed
    [update_gamma], [update_gamma0], [update_lambda] or [update_nu] the
    five parameters are what they were.  A failed [update_xi] has left
    [gamma], [gamma0], [lamb] and [nu] alone ([xi] is assigned before
    the final re-correlation of [gamma]). *)
Theorem a_failed_update_assigns_nothing w e :
  (fst (update_gamma w) = Exc e -> core (snd (update_gamma w)) = core w) /\
  (fst (update_gamma0 w) = Exc e -> core (snd (update_gamma0 w)) = core w) /\
  (fst (update_lambda w) = Exc e -> core (snd (update_lambda w)) = core w) /\
  (fst (update_nu w) = Exc e -> core (snd (update_nu w)) = core w) /\
  (fst (update_xi w) = Exc e -> but_xi (snd (update_xi w)) = but_xi w).
Proof.
  pose proof core_insensitive as Hc. pose proof but_xi_insensitive as Hx.
  split; [|split; [|split; [|split]]].
  - revert w e. change (unchanged_on_failure core update_gamma).
    unfold update_gamma. repeat unchanged_step Hc.
    apply unchanged_bind; [|intro; apply unchanged_modify].
    apply preserves_run_sampler; [exact Hc|intros g].
    apply preserves_bind; [apply preserves_get|intros s'].
    apply preserves_log_marg_like, Hc.
  - revert w e. change (unchanged_on_failure core update_gamma0).
    unfold update_gamma0. repeat unchanged_step Hc.
    apply unchanged_bind; [|intro; apply unchanged_modify].
    apply preserves_run_sampler; [exact Hc|intros g].
    apply preserves_gamma0_slice_fn, Hc.
  - revert w e. change (unchanged_on_failure core update_lambda).
    unfold update_lambda. repeat unchanged_step Hc.
    apply unchanged_bind; [|intro; apply unchanged_modify].
    apply preserves_run_sampler; [exact Hc|intros g].
    apply preserves_lambda_slice_fn, Hc.
  - revert w e. change (unchanged_on_failure core update_nu).
    unfold update_nu. repeat unchanged_step Hc. apply unchanged_modify.
  - revert w e. change (unchanged_on_failure but_xi update_xi).
    unfold update_xi. repeat unchanged_step Hx.
    apply unchanged_bind; [|intro].
    + apply preserves_run_sampler; [exact Hx|intros g].
      apply preserves_xi_slice_fn, Hx.
    + repeat unchanged_step Hx. apply unchanged_modify.
Qed.


(* ----------------------------------------------------------------- *)
(** *** The order of a sweep *)

Lemma entered_insensitive : insensitive (fun w => entered (trace w)).
Proof. split; intros; reflexivity. Qed.

Lemma entered_event ev w :
  (match ev with Ev_enter _ => false | _ => true end) = true ->
  entered (trace (with_event ev w)) = entered (trace w).
Proof. destruct ev; simpl; intros H; try reflexivity. discriminate H. Qed.

Ltac entered_body :=
  unfold bind at 1; unfold tell at 1; cbn [fst snd];
  match goal with
  | |- entered (trace (snd (?body ?w0))) = _ =>
      assert (Hp : preserves (fun w => entered (trace w)) body);
      [|exact (Hp w0)]
  end;
  frame;
  try (apply preserves_tell with (allowed := fun ev =>
         match ev with Ev_enter _ => false | _ => true end);
       [apply entered_event|reflexivity]);
  try (intro; reflexivity);
  try apply entered_insensitive.

Lemma entered_update_gamma w :
  entered (trace (snd (update_gamma w))) = m_update_gamma :: entered (trace w).
Proof. unfold update_gamma. entered_body. Qed.

Lemma entered_update_gamma0 w :
  entered (trace (snd (update_gamma0 w))) = m_update_gamma0 :: entered (trace w).
Proof.
  unfold update_gamma0. entered_body.
  apply preserves_gamma0_slice_fn, entered_insensitive.
Qed.

Lemma entered_update_lambda w :
  entered (trace (snd (update_lambda w))) = m_update_lambda :: entered (trace w).
Proof.
  unfold update_lambda. entered_body.
  apply preserves_lambda_slice_fn, entered_insensitive.
Qed.

Lemma entered_update_nu w :
  entered (trace (snd (update_nu w))) = m_update_nu :: entered (trace w).
Proof. unfold update_nu. entered_body. Qed.

Lemma entered_update_xi w :
  entered (trace (snd (update_xi w))) = m_update_xi :: entered (trace w).
Proof.
  unfold update_xi. entered_body.
  apply preserves_xi_slice_fn, entered_insensitive.
Qed.


Lemma sample_xi_insensitive : insensitive (fun w => sample_xi (self w)).
Proof. split; intros; reflexivity. Qed.

Lemma sample_xi_updates w :
  sample_xi (self (snd (update_gamma w))) = sample_xi (self w) /\
  sample_xi (self (snd (update_gamma0 w))) = sample_xi (self w) /\
  sample_xi (self (snd (update_lambda w))) = sample_xi (self w) /\
  sample_xi (self (snd (update_nu w))) = sample_xi (self w).
Proof.
  pose proof sample_xi_insensitive as Hi.
  repeat split.
  - apply preserves_update_gamma with (allowed := fun _ => true)
                                      (mu := fun w => sample_xi (self w));
      try reflexivity; exact Hi.
  - apply preserves_update_gamma0 with (allowed := fun _ => true)
                                       (mu := fun w => sample_xi (self w));
      try reflexivity; exact Hi.
  - apply preserves_update_lambda with (allowed := fun _ => true)
                                       (mu := fun w => sample_xi (self w));
      try reflexivity; exact Hi.
  - apply preserves_update_nu with (allowed := fun _ => true)
                                   (mu := fun w => sample_xi (self w));
      try reflexivity; exact Hi.
Qed.

(** X6.  A sweep enters [update_gamma], [update_gamma0],
    [update_lambda], [update_nu] and, when [xi] is sampled,
    [update_xi], each once and in this order.  An update that raises
    ends the sweep: the methods entered are then the first [k] of that
    list, and no later update is entered. *)
Theorem a_sweep_enters_the_updates_in_order w :
  let r := update_parameters w in
  let order := sweep_order (self w) in
  exists k,
    (1 <= k <= length order)%nat /\
    entered (trace (snd r)) = rev (firstn k order) ++ entered (trace w) /\
    (fst r = Val tt -> k = length order).
Proof.
  cbv zeta. destruct (update_parameters w) as [o w'] eqn:H. cbn [fst snd].
  unfold update_parameters, sweep_order in *.
  unfold bind at 1 in H. unfold tell at 1 in H.
  set (w0 := with_event (Ev_enter m_update_parameters) w) in H.
  assert (E0 : entered (trace w0) = m_update_parameters :: entered (trace w))
    by reflexivity.
  assert (S0 : sample_xi (self w0) = sample_xi (self w)) by reflexivity.
  clearbody w0.
  pose proof (entered_update_gamma w0) as E1.
  destruct (sample_xi_updates w0) as (S1 & _).
  unfold bind at 1 in H.
  destruct (update_gamma w0) as [[[]|e] w1]; cbn [fst snd] in *.
  2:{ injection H as <- <-. exists 2%nat. rewrite E1, E0. cbn.
      split; [lia|]. split; [reflexivity|discriminate]. }
  pose proof (entered_update_gamma0 w1) as E2.
  destruct (sample_xi_updates w1) as (_ & S2 & _).
  unfold bind at 1 in H.
  destruct (update_gamma0 w1) as [[[]|e] w2]; cbn [fst snd] in *.
  2:{ injection H as <- <-. exists 3%nat. rewrite E2, E1, E0. cbn.
      split; [lia|]. split; [reflexivity|discriminate]. }
  pose proof (entered_update_lambda w2) as E3.
  destruct (sample_xi_updates w2) as (_ & _ & S3 & _).
  unfold bind at 1 in H.
  destruct (update_lambda w2) as [[[]|e] w3]; cbn [fst snd] in *.
  2:{ injection H as <- <-. exists 4%nat. rewrite E3, E2, E1, E0. cbn.
      split; [lia|]. split; [reflexivity|discriminate]. }
  pose proof (entered_update_nu w3) as E4.
  destruct (sample_xi_updates w3) as (_ & _ & _ & S4).
  unfold bind at 1 in H.
  destruct (update_nu w3) as [[[]|e] w4]; cbn [fst snd] in *.
  2:{ injection H as <- <-. exists 5%nat. rewrite E4, E3, E2, E1, E0. cbn.
      split; [lia|]. split; [reflexivity|discriminate]. }
  unfold bind, get in H. cbn [fst snd] in H.
  assert (S : sample_xi (self w4) = sample_xi (self w)) by congruence.
  rewrite S in H. destruct (sample_xi (self w)).
  - pose proof (entered_update_xi w4) as E5. rewrite H in E5. cbn [snd] in E5.
    exists 6%nat. rewrite E5, E4, E3, E2, E1, E0. cbn.
    split; [lia|]. split; reflexivity.
  - unfold ret in H. injection H as <- <-.
    exists 5%nat. rewrite E4, E3, E2, E1, E0. cbn.
    split; [lia|]. split; reflexivity.
Qed.


(* ----------------------------------------------------------------- *)
(** *** The constructor's divisions *)

Lemma py_div_zero x y : value_equal y f0 -> py_div x y = Exc ZeroDivisionError.
Proof.
  destruct y as [| |q|]; simpl; try contradiction.
  intros H. apply Qeq_bool_iff in H. unfold py_div. rewrite H. reflexivity.
Qed.

Lemma py_div_raises x y e : py_div x y = Exc e -> e = ZeroDivisionError.
Proof.
  unfold py_div. destruct y as [| |q|]; try discriminate.
  destruct (Qeq_bool q 0); congruence.
Qed.

(** X8.  The constructor divides by the rates of the two gamma priors:
    once [Mvn] has accepted [R], a rate of zero in [lambda_params] or in
    [nu_params] ends the constructor with [ZeroDivisionError]; and an
    exception of [Mvn] for [R] leaves the constructor as it is. *)
Theorem a_zero_rate_raises_ZeroDivisionError a g :
  (forall R_,
     Mvn_init (arg_R a) (Some (min_eigenval a)) (Some (jitter a)) = Val R_ ->
     value_equal (snd (lambda_params a)) f0 \/
     value_equal (snd (nu_params a)) f0 ->
     __init__ a g = Exc ZeroDivisionError) /\
  (forall e,
     Mvn_init (arg_R a) (Some (min_eigenval a)) (Some (jitter a)) = Exc e ->
     __init__ a g = Exc e).
Proof.
  split.
  - intros R_ HR Hz. unfold __init__. rewrite HR.
    destruct (Np.shape (arg_X a)) as [N_ P_].
    destruct (nu_params a) as [na nb]. cbn [snd] in Hz.
    assert (Hl : py_div f1 (snd (lambda_params a)) = Exc ZeroDivisionError \/
                 exists ls, py_div f1 (snd (lambda_params a)) = Val ls).
    { destruct (py_div f1 (snd (lambda_params a))) as [ls|e] eqn:Hd; [eauto|].
      left. rewrite (py_div_raises _ _ Hd). reflexivity. }
    destruct (arg_xi a); cbv beta iota zeta;
      (destruct Hl as [Hl|[ls Hl]]; rewrite Hl; [reflexivity|]);
      (destruct Hz as [Hz|Hz];
       [rewrite (py_div_zero f1 _ Hz) in Hl; discriminate Hl|]);
      rewrite (py_div_zero f1 _ Hz); reflexivity.
  - intros e HR. unfold __init__. rewrite HR. reflexivity.
Qed.


(* ----------------------------------------------------------------- *)
(** *** The two covariance arrays *)

Lemma map_nth_seq_0 {A} (l : list A) d :
  map (fun i => nth i l d) (seq 0 (length l)) = l.
Proof.
  induction l as [|x l IH]; simpl; [reflexivity|].
  f_equal. rewrite <- seq_shift, map_map. exact IH.
Qed.

Lemma map_over_seq {A B} (f : A -> B) (l : list A) d :
  map f l = map (fun i => f (nth i l d)) (seq 0 (length l)).
Proof.
  rewrite <- (map_nth_seq_0 l d) at 1. apply map_map.
Qed.

Lemma repeat_over_seq {A} (x : A) n a : repeat x n = map (fun _ => x) (seq a n).
Proof.
  revert a. induction n as [|n IH]; intros a; simpl; [reflexivity|].
  f_equal. apply IH.
Qed.

Lemma zip_with_map {A B C D} (f : B -> C -> D) (g : A -> B) (h : A -> C) l :
  Np.zip_with f (map g l) (map h l) = map (fun x => f (g x) (h x)) l.
Proof.
  induction l as [|x l IH]; simpl; [reflexivity|]. f_equal. exact IH.
Qed.

Lemma add_tabulate n f g :
  Np.add (tabulate n f) (tabulate n g)
  = tabulate n (fun i j => (f i j + g i j)%F).
Proof.
  unfold Np.add, tabulate. rewrite zip_with_map.
  apply map_ext. intros i. apply zip_with_map.
Qed.

Lemma div_scalar_tabulate n f l :
  Np.div_scalar (tabulate n f) l = tabulate n (fun i j => (f i j / l)%F).
Proof.
  unfold Np.div_scalar, tabulate. rewrite map_map.
  apply map_ext. intros i. apply map_map.
Qed.

Lemma scale_tabulate n f x :
  Np.scale x (tabulate n f) = tabulate n (fun i j => (x * f i j)%F).
Proof.
  unfold Np.scale, tabulate. rewrite map_map.
  apply map_ext. intros i. apply map_map.
Qed.

Lemma ones_tabulate n : Np.ones n n = tabulate n (fun _ _ => f1).
Proof.
  unfold Np.ones, tabulate. rewrite (repeat_over_seq _ n 0).
  apply map_ext. intros _. apply repeat_over_seq.
Qed.

Lemma eye_tabulate n :
  Np.eye n = tabulate n (fun i j => if Nat.eqb i j then f1 else f0).
Proof. reflexivity. Qed.

Lemma dot_transpose_tabulate (a : matrix) :
  Np.dot_transpose a
  = tabulate (length a) (fun i j => Np.inner (nth i a []) (nth j a [])).
Proof.
  unfold Np.dot_transpose, tabulate. rewrite (map_over_seq _ a []).
  apply map_ext. intros i. apply (map_over_seq _ a []).
Qed.

Lemma square_as_tabulate n m : is_square n m -> m = tabulate n (entry m).
Proof.
  intros [Hlen Hrows]. unfold tabulate, entry. subst n.
  rewrite <- (map_nth_seq_0 m []) at 1.
  apply map_ext_in. intros i Hi. apply in_seq in Hi.
  assert (Hr : length (nth i m []) = length m).
  { rewrite Forall_forall in Hrows. apply Hrows, nth_In. lia. }
  rewrite <- Hr. symmetry. apply map_nth_seq_0.
Qed.

Lemma square_tabulate n f : is_square n (tabulate n f).
Proof.
  unfold is_square, tabulate. split.
  - rewrite length_map, length_seq. reflexivity.
  - apply Forall_forall. intros r Hr. apply in_map_iff in Hr.
    destruct Hr as (i & <- & _). rewrite length_map, length_seq. reflexivity.
Qed.

Lemma entry_tabulate n f i j :
  entry (tabulate n f) i j
  = if (i <? n)%nat && (j <? n)%nat then f i j else NaN.
Proof.
  unfold entry, tabulate.
  destruct (i <? n)%nat eqn:Hi.
  - apply Nat.ltb_lt in Hi.
    rewrite (nth_indep _ [] (map (f 0%nat) (seq 0 n)))
      by (rewrite length_map, length_seq; exact Hi).
    rewrite (map_nth (fun i => map (f i) (seq 0 n)) (seq 0 n) 0%nat i).
    rewrite seq_nth by exact Hi. cbn [Nat.add].
    destruct (j <? n)%nat eqn:Hj.
    + apply Nat.ltb_lt in Hj.
      rewrite (nth_indep _ NaN (f i 0%nat))
        by (rewrite length_map, length_seq; exact Hj).
      rewrite (map_nth (f i) (seq 0 n) 0%nat j).
      rewrite seq_nth by exact Hj. reflexivity.
    + apply Nat.ltb_ge in Hj. apply nth_overflow.
      rewrite length_map, length_seq. exact Hj.
  - apply Nat.ltb_ge in Hi.
    rewrite (nth_overflow (map (fun i => map (f i) (seq 0 n)) (seq 0 n)) [])
      by (rewrite length_map, length_seq; exact Hi).
    destruct j; reflexivity.
Qed.

Lemma symmetric_tabulate n f :
  (forall i j, f i j = f j i) -> is_symmetric (tabulate n f).
Proof.
  intros Hf i j. rewrite !entry_tabulate, (Hf i j), andb_comm. reflexivity.
Qed.

Lemma fmul_comm x y : (x * y)%F = (y * x)%F.
Proof.
  destruct x as [| |a|], y as [| |b|]; cbn [fmul]; try reflexivity.
  f_equal. apply Qred_complete. apply Qmult_comm.
Qed.

Lemma inner_comm u v : Np.inner u v = Np.inner v u.
Proof.
  unfold Np.inner. f_equal. revert v.
  induction u as [|a u IH]; intros [|b v]; simpl; try reflexivity.
  rewrite fmul_comm. f_equal. apply IH.
Qed.

Lemma ppi_cov_tabulate s (Xm : matrix) l :
  length Xm = N s ->
  ppi_cov s Xm l
  = tabulate (N s) (fun i j =>
      ((Np.inner (nth i Xm []) (nth j Xm []) + f1) / l
       + (if Nat.eqb i j then f1 else f0))%F).
Proof.
  intros H. unfold ppi_cov.
  rewrite dot_transpose_tabulate, H, ones_tabulate, add_tabulate,
    div_scalar_tabulate, eye_tabulate, add_tabulate.
  reflexivity.
Qed.

(** X9.  The covariance that [ppi_distribution] hands to [Mvn], for a
    [gamma] of one entry per column of [X], is an array of [N] rows and
    [N] columns and symmetric, whatever the mask and [lamb] are ([N]
    being the number of rows of [X], as the constructor sets it). *)
Theorem the_ppi_covariance_is_square_and_symmetric s g g0 l :
  N s = fst (Np.shape (X s)) ->
  length g = snd (Np.shape (X s)) ->
  let cov := ppi_cov s (map (Np.compress (Np.gt_scalar g g0)) (X s)) l in
  is_square (N s) cov /\ is_symmetric cov.
Proof.
  intros HN _ cov. subst cov.
  rewrite ppi_cov_tabulate by (rewrite length_map; symmetry; exact HN).
  split; [apply square_tabulate|].
  apply symmetric_tabulate. intros i j.
  rewrite inner_comm, Nat.eqb_sym. reflexivity.
Qed.

(** X10.  The covariance that [probit_distribution] hands to [Mvn] is
    an array of [P] rows and [P] columns, and symmetric, when the
    covariance of [R] is. *)
Theorem the_probit_covariance_is_square_and_symmetric s x :
  is_square (P s) (Mvn_cov (R s)) -> is_symmetric (Mvn_cov (R s)) ->
  is_square (P s) (probit_cov s x) /\ is_symmetric (probit_cov s x).
Proof.
  intros Hsq Hsym. unfold probit_cov.
  rewrite (square_as_tabulate Hsq), scale_tabulate, eye_tabulate,
    scale_tabulate, add_tabulate.
  split; [apply square_tabulate|].
  apply symmetric_tabulate. intros i j.
  rewrite (Hsym i j), Nat.eqb_sym. reflexivity.
Qed.

Lemma compress_none {A} (mask : list bool) (row : list A) :
  forallb negb mask = true -> Np.compress mask row = [].
Proof.
  revert row. induction mask as [|b mask IH]; intros [|x row]; simpl; auto.
  destruct b; simpl; [discriminate|]. auto.
Qed.

(** X11.  When no predictor is included (no entry of [gamma], which
    has one entry per column of [X], exceeds [gamma0]), the masked [X]
    has no column and the covariance of the PPI distribution is
    [ones((N, N)) / lamb + eye(N)]: it does not depend on the entries
    of [X]. *)
Theorem no_predictor_included s g g0 l :
  N s = fst (Np.shape (X s)) ->
  length g = snd (Np.shape (X s)) ->
  forallb negb (Np.gt_scalar g g0) = true ->
  ppi_cov s (map (Np.compress (Np.gt_scalar g g0)) (X s)) l
  = Np.add (Np.div_scalar (Np.ones (N s) (N s)) l) (Np.eye (N s)).
Proof.
  intros HN _ Hmask.
  rewrite ppi_cov_tabulate by (rewrite length_map; symmetry; exact HN).
  rewrite ones_tabulate, div_scalar_tabulate, eye_tabulate, add_tabulate.
  unfold tabulate. apply map_ext. intros i. apply map_ext. intros j.
  assert (Hrow : forall k, nth k (map (Np.compress (Np.gt_scalar g g0)) (X s)) []
                           = []).
  { intros k. destruct (Nat.lt_ge_cases k (length (X s))) as [Hk|Hk].
    - rewrite (nth_indep _ [] (Np.compress (Np.gt_scalar g g0) []))
        by (rewrite length_map; exact Hk).
      rewrite map_nth. apply compress_none, Hmask.
    - apply nth_overflow. rewrite length_map. exact Hk. }
  rewrite !Hrow. reflexivity.
Qed.


(* ----------------------------------------------------------------- *)
(** *** The attribute [check_finite] *)

Lemma oblivious_ret {A} (a : A) : oblivious (ret a).
Proof. intros b w. reflexivity. Qed.

Lemma oblivious_raise {A} e : oblivious (@raise _ A e).
Proof. intros b w. reflexivity. Qed.

Lemma oblivious_lift {A} (o : outcome A) : oblivious (lift o).
Proof. intros b w. reflexivity. Qed.

Lemma oblivious_get {A} (f : Probit -> A) :
  (forall b s, f (set_check_finite b s) = f s) -> oblivious (get f).
Proof. intros H b w. unfold get. simpl. rewrite H. reflexivity. Qed.

Lemma oblivious_get_rand : oblivious get_rand.
Proof. intros b w. reflexivity. Qed.

Lemma oblivious_set_rand g : oblivious (set_rand g).
Proof. intros b w. reflexivity. Qed.

Lemma oblivious_draw {A} (f : rng -> outcome A * rng) : oblivious (draw f).
Proof. intros b w. reflexivity. Qed.

Lemma oblivious_tell ev : oblivious (tell ev).
Proof. intros b w. reflexivity. Qed.

Lemma oblivious_modify f :
  (forall b s, f (set_check_finite b s) = set_check_finite b (f s)) ->
  oblivious (modify f).
Proof. intros H b w. unfold modify, with_self. simpl. rewrite H. reflexivity. Qed.

Lemma oblivious_bind {A B} (c : M A) (k : A -> M B) :
  oblivious c -> (forall a, oblivious (k a)) -> oblivious (bind c k).
Proof.
  intros Hc Hk b w. unfold bind. rewrite Hc.
  destruct (c w) as [[a|e] w1]; simpl; [apply Hk|reflexivity].
Qed.

(** [s = self] followed by code that reads other attributes of [s]. *)
Lemma oblivious_self {B} (k : Probit -> M B) :
  (forall s, oblivious (k s)) ->
  (forall b s, k (set_check_finite b s) = k s) ->
  oblivious (s <- get id ;; k s).
Proof.
  intros Hk Hs b w. unfold bind, get, id. simpl. rewrite Hs. apply Hk.
Qed.

Lemma oblivious_try_except {A} (c h : M A) e :
  oblivious c -> oblivious h -> oblivious (try_except c e h).
Proof.
  intros Hc Hh b w. unfold try_except. rewrite Hc.
  destruct (c w) as [[a|e'] w1]; simpl; [reflexivity|].
  destruct (exn_eqb e e'); [apply Hh|reflexivity].
Qed.

Lemma oblivious_attempt {A} (c : M A) e : oblivious c -> oblivious (attempt c e).
Proof.
  intros Hc. unfold attempt. apply oblivious_try_except.
  - apply oblivious_bind; [exact Hc|intros; apply oblivious_ret].
  - apply oblivious_ret.
Qed.

Lemma oblivious_if {A} (b : bool) (c c' : M A) :
  oblivious c -> oblivious c' -> oblivious (if b then c else c').
Proof. destruct b; auto. Qed.

Lemma oblivious_run_sampler {A} (f : A -> M pyfloat) (t : qtree rng A) :
  (forall c, oblivious (f c)) -> oblivious (run_sampler f t).
Proof.
  intros Hf. induction t as [x g|c g k IH|e g]; simpl.
  - apply oblivious_bind; [apply oblivious_set_rand|intros; apply oblivious_ret].
  - apply oblivious_bind; [apply oblivious_set_rand|intros _].
    apply oblivious_bind; auto.
  - apply oblivious_bind; [apply oblivious_set_rand|intros; apply oblivious_raise].
Qed.

Ltac oblivious_step :=
  match goal with
  | |- oblivious (bind (get id) _) =>
      apply oblivious_self; [intro|intros; reflexivity]
  | |- oblivious (bind _ _) => apply oblivious_bind; [|intro]
  | |- oblivious (ret _) => apply oblivious_ret
  | |- oblivious (raise _) => apply oblivious_raise
  | |- oblivious (lift _) => apply oblivious_lift
  | |- oblivious (get _) => apply oblivious_get; intros; reflexivity
  | |- oblivious get_rand => apply oblivious_get_rand
  | |- oblivious (draw _) => apply oblivious_draw
  | |- oblivious (tell _) => apply oblivious_tell
  | |- oblivious (modify _) => apply oblivious_modify; intros; reflexivity
  | |- oblivious (attempt _ _) => apply oblivious_attempt
  | |- oblivious (run_sampler _ _) => apply oblivious_run_sampler; intro
  | |- oblivious (if _ then _ else _) => apply oblivious_if
  | |- oblivious (match ?x with _ => _ end) => destruct x
  end.

Ltac obliviously := repeat oblivious_step; try assumption.

Lemma oblivious_cachedmethod cache set_cache k method :
  (forall b s, cache (set_check_finite b s) = cache s) ->
  (forall c b s, set_cache c (set_check_finite b s)
                 = set_check_finite b (set_cache c s)) ->
  oblivious method ->
  oblivious (cachedmethod cache set_cache k method).
Proof.
  intros Hc Hs Hm. unfold cachedmethod.
  apply oblivious_bind; [apply oblivious_get, Hc|intros c].
  destruct (getitem c k); [apply oblivious_ret|].
  apply oblivious_bind; [exact Hm|intros v].
  apply oblivious_bind; [apply oblivious_get, Hc|intros c'].
  destruct (setitem c' k v); [|apply oblivious_ret].
  apply oblivious_bind; [apply oblivious_modify, Hs|intros; apply oblivious_ret].
Qed.

Lemma oblivious_probit_distribution x : oblivious (probit_distribution x).
Proof.
  unfold probit_distribution. apply oblivious_cachedmethod;
    try (intros; reflexivity).
  unfold new_Mvn. obliviously.
Qed.

Lemma oblivious_ppi_distribution g g0 l : oblivious (ppi_distribution g g0 l).
Proof.
  unfold ppi_distribution. apply oblivious_cachedmethod;
    try (intros; reflexivity).
  unfold new_Mvn. obliviously.
Qed.

Lemma oblivious_log_marg_like g g0 l n : oblivious (log_marg_like g g0 l n).
Proof.
  unfold log_marg_like. obliviously. apply oblivious_ppi_distribution.
Qed.

Lemma oblivious_xi_logpdf x : oblivious (xi_logpdf x).
Proof. unfold xi_logpdf. obliviously. Qed.

Lemma oblivious_log_joint : oblivious log_joint.
Proof.
  unfold log_joint. obliviously;
    first [apply oblivious_log_marg_like | apply oblivious_probit_distribution
          | apply oblivious_xi_logpdf].
Qed.

Ltac oblivious_known :=
  first [ apply oblivious_log_marg_like | apply oblivious_probit_distribution
        | apply oblivious_ppi_distribution | apply oblivious_xi_logpdf
        | apply oblivious_log_joint ].

Lemma oblivious_update_gamma : oblivious update_gamma.
Proof. unfold update_gamma. obliviously; oblivious_known. Qed.

Lemma oblivious_update_gamma0 : oblivious update_gamma0.
Proof.
  unfold update_gamma0. obliviously. unfold gamma0_slice_fn.
  obliviously; oblivious_known.
Qed.

Lemma oblivious_update_lambda : oblivious update_lambda.
Proof.
  unfold update_lambda. obliviously. unfold lambda_slice_fn.
  obliviously; oblivious_known.
Qed.

Lemma oblivious_update_nu : oblivious update_nu.
Proof. unfold update_nu. obliviously; oblivious_known. Qed.

Lemma oblivious_update_xi : oblivious update_xi.
Proof.
  unfold update_xi. obliviously; try oblivious_known.
  unfold xi_slice_fn. obliviously; oblivious_known.
Qed.

Lemma oblivious_update_parameters : oblivious update_parameters.
Proof.
  unfold update_parameters. obliviously;
    first [ apply oblivious_update_gamma | apply oblivious_update_gamma0
          | apply oblivious_update_lambda | apply oblivious_update_nu
          | apply oblivious_update_xi ].
Qed.

Lemma oblivious_record_sweep detailed t i a b :
  oblivious (record_sweep detailed t i a b).
Proof. unfold record_sweep. obliviously. Qed.

Lemma oblivious_mcmc_step iters detailed t i :
  oblivious (mcmc_step iters detailed t i).
Proof.
  unfold mcmc_step. obliviously;
    first [ oblivious_known | apply oblivious_update_parameters
          | apply oblivious_record_sweep ].
Qed.

Lemma oblivious_mcmc_loop iters detailed indices :
  forall t, oblivious (mcmc_loop iters detailed indices t).
Proof.
  induction indices as [|i rest IH]; intros t; simpl.
  - apply oblivious_ret.
  - apply oblivious_bind; [apply oblivious_mcmc_step|intros; apply IH].
Qed.

Lemma oblivious_run_mcmc iters burn_in detailed :
  oblivious (run_mcmc iters burn_in detailed).
Proof.
  unfold run_mcmc.
  apply oblivious_bind; [apply oblivious_get; intros; reflexivity|intros p].
  apply oblivious_bind; [apply oblivious_mcmc_loop|intros t].
  obliviously.
Qed.


Lemma oblivious_init a g b :
  __init__ (with_check_finite b a) g
  = match __init__ a g with
    | Val w => Val (with_self (set_check_finite b) w)
    | Exc e => Exc e
    end.
Proof.
  unfold __init__. cbn [with_check_finite arg_X arg_Y arg_R target_sparsity
    gamma0_v lambda_params nu_params arg_xi xi_prior_shape arg_check_finite
    min_eigenval jitter].
  destruct (Mvn_init _ _ _) as [R_|e]; [|reflexivity].
  destruct (Np.shape (arg_X a)) as [N_ P_].
  destruct (nu_params a) as [na nb].
  destruct (arg_xi a); cbv beta iota zeta;
    (destruct (py_div f1 (snd (lambda_params a))) as [ls|e]; [|reflexivity]);
    (destruct (py_div f1 nb) as [ns|e]; [|reflexivity]);
    match goal with
    | |- match ?c ?w1 with _ => _ end
         = match match ?c ?w0 with _ => _ end with _ => _ end =>
        assert (Ho : oblivious c);
        [|change w1 with (with_self (set_check_finite b) w0);
          rewrite (Ho b w0); destruct (c w0) as [[u|e] w']; reflexivity]
    end;
    (apply oblivious_bind; [apply oblivious_probit_distribution|intros d];
     apply oblivious_bind; [apply oblivious_draw|intros v];
     apply oblivious_modify; intros; reflexivity).
Qed.

(** X12.  The argument [check_finite] is stored in the attribute of
    that name and read by no method: constructed with another value,
    the model is the same but for the attribute, and [log_joint], a
    sweep and a whole run of [run_mcmc] have the same outcome and
    leave the same state but for the attribute. *)
Theorem check_finite_is_never_read b :
  (forall a g,
     __init__ (with_check_finite b a) g
     = match __init__ a g with
       | Val w => Val (with_self (set_check_finite b) w)
       | Exc e => Exc e
       end) /\
  (forall w,
     let w_ := with_self (set_check_finite b) w in
     log_joint w_
     = (fst (log_joint w), with_self (set_check_finite b) (snd (log_joint w))) /\
     update_parameters w_
     = (fst (update_parameters w),
        with_self (set_check_finite b) (snd (update_parameters w))) /\
     forall iters burn_in detailed,
       run_mcmc iters burn_in detailed w_
       = (fst (run_mcmc iters burn_in detailed w),
          with_self (set_check_finite b) (snd (run_mcmc iters burn_in detailed w)))).
Proof.
  split; [intros a g; apply oblivious_init|].
  intros w w_. split; [apply oblivious_log_joint|].
  split; [apply oblivious_update_parameters|].
  intros iters burn_in detailed. apply oblivious_run_mcmc.
Qed.


(* ----------------------------------------------------------------- *)
(** *** The passes of the loop *)

Lemma record_sweep_world detailed t i a b w :
  snd (record_sweep detailed t i a b w) = w.
Proof.
  unfold record_sweep, bind, lift, get, ret, id.
  destruct (Np.setitem (logjoint_trace t) i a); [|reflexivity].
  destruct detailed; [|reflexivity]. cbn [fst snd].
  destruct (Np.set_row _ _ _ _); [|reflexivity].
  repeat (destruct (Np.setitem _ _ _); [|reflexivity]). reflexivity.
Qed.

Lemma mcmc_step_inversion iters detailed t i w t' w' :
  mcmc_step iters detailed t i w = (Val t', w') ->
  exists lj w1 ll w2,
    log_joint w = (Val lj, w1) /\
    log_marg_like (gamma (self w1)) (gamma0 (self w1)) (lamb (self w1))
      (nu (self w1)) w1 = (Val ll, w2) /\
    update_parameters
      (with_event (Ev_logger_info i iters lj (gamma0 (self w1)) (lamb (self w1))
                     (nu (self w1)) (xi (self w1))) w2) = (Val tt, w').
Proof.
  intros H. unfold mcmc_step in H.
  binv H as lj w1 H1. binv H as s w1' Hs. unfold get, id in Hs.
  injection Hs as <- <-.
  binv H as ll w2 H2. binv H as u w3 Ht. unfold tell in Ht.
  injection Ht as <- <-. binv H as u w4 Hu. destruct u.
  exists lj, w1, ll, w2. split; [exact H1|]. split; [exact H2|].
  rewrite Hu. f_equal.
  destruct (0 <=? i)%Z.
  - pose proof (record_sweep_world detailed t (Z.to_nat i) lj ll w4) as Hw.
    rewrite H in Hw. symmetry. exact Hw.
  - unfold ret in H. congruence.
Qed.

Lemma logged_insensitive : insensitive (fun w => logged (trace w)).
Proof. split; intros; reflexivity. Qed.

Lemma logged_event ev w :
  (match ev with Ev_logger_info _ _ _ _ _ _ _ => false | _ => true end) = true ->
  logged (trace (with_event ev w)) = logged (trace w).
Proof. destruct ev; simpl; intros H; try reflexivity. discriminate H. Qed.

Lemma logged_update_parameters :
  preserves (fun w => logged (trace w)) update_parameters.
Proof.
  pose proof logged_insensitive as Hins.
  pose proof logged_event as Hev.
  set (allowed := fun ev => match ev with
                            | Ev_logger_info _ _ _ _ _ _ _ => false
                            | _ => true
                            end).
  unfold update_parameters.
  apply preserves_bind; [intro w; reflexivity|intros _].
  apply preserves_bind;
    [apply preserves_update_gamma with (allowed := allowed); auto; reflexivity
    |intros _].
  apply preserves_bind;
    [apply preserves_update_gamma0 with (allowed := allowed); auto; reflexivity
    |intros _].
  apply preserves_bind;
    [apply preserves_update_lambda with (allowed := allowed); auto; reflexivity
    |intros _].
  apply preserves_bind;
    [apply preserves_update_nu with (allowed := allowed); auto; reflexivity
    |intros _].
  apply preserves_bind; [apply preserves_get|intros b].
  apply preserves_if; [|apply preserves_ret].
  apply preserves_update_xi with (allowed := allowed); auto; reflexivity.
Qed.

(** A pass that returned has written one progress line and entered
    one sweep. *)
Lemma mcmc_step_counts iters detailed t i w t' w' :
  mcmc_step iters detailed t i w = (Val t', w') ->
  logged (trace w') = i :: logged (trace w) /\
  sweeps_entered w' = S (sweeps_entered w).
Proof.
  intros H. apply mcmc_step_inversion in H.
  destruct H as (lj & w1 & ll & w2 & H1 & H2 & H3).
  split.
  - erewrite (preserved (mu := fun w => logged (trace w)));
      [|apply logged_update_parameters|exact H3].
    cbn [trace with_event logged flat_map app]. f_equal.
    erewrite (preserved (mu := fun w => logged (trace w)));
      [|apply preserves_log_marg_like, logged_insensitive|exact H2].
    eapply (preserved (mu := fun w => logged (trace w)));
      [apply preserves_log_joint, logged_insensitive|exact H1].
  - pose proof (update_parameters_entered
                  (with_event (Ev_logger_info i iters lj (gamma0 (self w1))
                     (lamb (self w1)) (nu (self w1)) (xi (self w1))) w2)) as Hu.
    rewrite H3 in Hu. cbn [snd] in Hu. rewrite Hu. f_equal.
    rewrite sweeps_entered_event by reflexivity.
    erewrite (preserved (mu := sweeps_entered));
      [|apply preserves_log_marg_like, sweeps_entered_insensitive|exact H2].
    eapply (preserved (mu := sweeps_entered));
      [apply preserves_log_joint, sweeps_entered_insensitive|exact H1].
Qed.

Lemma mcmc_loop_counts iters detailed indices :
  forall t w t' w',
    mcmc_loop iters detailed indices t w = (Val t', w') ->
    logged (trace w') = rev indices ++ logged (trace w) /\
    sweeps_entered w' = (sweeps_entered w + length indices)%nat.
Proof.
  induction indices as [|i rest IH]; intros t w t' w' H.
  - simpl in H. unfold ret in H. injection H as _ <-. simpl. split; auto.
  - cbn [mcmc_loop] in H. binv H as t1 w1 H1.
    apply mcmc_step_counts in H1. destruct H1 as [L1 S1].
    destruct (IH _ _ _ _ H) as [L2 S2].
    rewrite L2, L1, S2, S1. simpl. rewrite <- app_assoc. simpl.
    split; [reflexivity|lia].
Qed.

Lemma run_mcmc_counts iters burn_in detailed w r w' :
  run_mcmc iters burn_in detailed w = (Val r, w') ->
  logged (trace w')
  = rev (Np.range (- Z.of_nat burn_in) (Z.of_nat iters)) ++ logged (trace w) /\
  sweeps_entered w' = (sweeps_entered w + (burn_in + iters))%nat.
Proof.
  intros H. unfold run_mcmc in H.
  binv H as p w0 Hp. unfold get in Hp. injection Hp as <- <-.
  binv H as t w1 Hloop.
  assert (Hw : w' = w1).
  { destruct (negb detailed); [unfold ret in H; congruence|].
    destruct (Np.argmax _); [|discriminate H].
    unfold bind, lift, ret in H. destruct (Np.getitem _ _); congruence. }
  subst w1. apply mcmc_loop_counts in Hloop. destruct Hloop as [L S].
  split; [exact L|]. rewrite S. f_equal.
  unfold Np.range. rewrite length_map, length_seq. lia.
Qed.

(** X13.  A run of [run_mcmc] that returns has written one progress
    line per pass, burn-in included, numbered from [-burn_in] up to
    [iters - 1] in this order. *)
Theorem run_mcmc_numbers_its_progress_lines iters burn_in detailed w r w' :
  run_mcmc iters burn_in detailed w = (Val r, w') ->
  rev (logged (trace w'))
  = rev (logged (trace w)) ++ Np.range (- Z.of_nat burn_in) (Z.of_nat iters).
Proof.
  intros H. destruct (run_mcmc_counts _ _ _ _ H) as [L _].
  rewrite L, rev_app_distr, rev_involutive. reflexivity.
Qed.


(* ----------------------------------------------------------------- *)
(** *** [run_mcmc] on Python's integers *)

Lemma run_mcmc_int_of_nat n b detailed w :
  run_mcmc_int (Z.of_nat n) (Z.of_nat b) detailed w = run_mcmc n b detailed w.
Proof.
  unfold run_mcmc_int, run_mcmc.
  replace (Z.of_nat n <? 0)%Z with false by (symmetry; apply Z.ltb_ge; lia).
  rewrite Nat2Z.id. reflexivity.
Qed.

Lemma range_from b n :
  (b <= n)%nat ->
  Np.range (Z.of_nat b) (Z.of_nat n) = map Z.of_nat (seq b (n - b)).
Proof.
  intros H. unfold Np.range.
  replace (Z.to_nat (Z.of_nat n - Z.of_nat b)) with (n - b)%nat by lia.
  rewrite (map_seq_offset (n - b)%nat Z.of_nat b).
  apply map_ext. intros k. lia.
Qed.

Lemma filled_zero_samples n p b :
  (b <= n)%nat ->
  filled n p false (repeat (zero_sample p) b) = initial_traces n p false.
Proof.
  intros H. unfold filled, initial_traces, Np.zeros. f_equal.
  rewrite repeat_length, map_repeat. cbn [s_joint zero_sample].
  rewrite <- repeat_app. f_equal. lia.
Qed.


(** X14.  [run_mcmc] does not check its integers.  A negative [iters]
    is the [ValueError] of [np.zeros], raised before any pass.  A
    negative [burn_in = -b] is accepted: the passes are those with the
    indices [b], ..., [iters - 1], and the first [b] entries of the
    trace keep the [0.0] that [np.zeros] put there.  On integers that
    are not negative it is the run that C7 describes. *)
Theorem run_mcmc_does_not_check_its_integers :
  (forall iters burn_in detailed w,
     (iters < 0)%Z ->
     run_mcmc_int iters burn_in detailed w = (Exc ValueError, w)) /\
  (forall n b detailed w,
     run_mcmc_int (Z.of_nat n) (Z.of_nat b) detailed w = run_mcmc n b detailed w) /\
  (forall n b w xs w',
     (b <= n)%nat ->
     sweeps n (map Z.of_nat (seq b (n - b))) w = (Val xs, w') ->
     run_mcmc_int (Z.of_nat n) (- Z.of_nat b) false w
     = (Val (Plain (Np.zeros b ++ map s_joint xs)), w') /\
     length xs = (n - b)%nat).
Proof.
  split; [|split].
  - intros iters burn_in detailed w H. unfold run_mcmc_int.
    replace (iters <? 0)%Z with true by (symmetry; apply Z.ltb_lt; exact H).
    reflexivity.
  - apply run_mcmc_int_of_nat.
  - intros n b w xs w' Hb H.
    pose proof (@mcmc_loop_kept n (P (self w)) false (n - b)
                  (repeat (zero_sample (P (self w))) b) w xs w' eq_refl) as Hk.
    rewrite repeat_length in Hk.
    destruct Hk as [Hloop Hlen]; [lia|exact H|discriminate|].
    split; [|exact Hlen].
    unfold run_mcmc_int.
    replace (Z.of_nat n <? 0)%Z with false by (symmetry; apply Z.ltb_ge; lia).
    rewrite Nat2Z.id, Z.opp_involutive, (range_from Hb).
    unfold bind at 1. unfold get at 1. cbn [fst snd].
    rewrite <- (filled_zero_samples (P (self w)) Hb).
    rewrite (bind_val _ _ _ Hloop). cbn [negb]. unfold ret, filled.
    cbn [logjoint_trace]. rewrite length_app, repeat_length, Hlen.
    replace (n - (b + (n - b)))%nat with 0%nat by lia.
    rewrite map_app, map_repeat. cbn [s_joint zero_sample Np.zeros repeat].
    rewrite app_nil_r. reflexivity.
Qed.

(* ----------------------------------------------------------------- *)
(** *** The script *)

Lemma init_trace_quiet a g w :
  __init__ a g = Val w ->
  entries m_update_xi (trace w) = 0%nat /\ sweeps_entered w = 0%nat /\
  logged (trace w) = [].
Proof.
  intros H. destruct (init_inversion _ _ H) as (R_ & ls & ns & _ & _ & _ & Hlast).
  set (mu := fun w : world =>
               (entries m_update_xi (trace w), sweeps_entered w, logged (trace w))).
  assert (Hins : insensitive mu) by (split; intros; reflexivity).
  match type of Hlast with
  | ?c ?w0 = _ => assert (Hp : preserves mu c); [|specialize (Hp w0)]
  end.
  { frame. intro w1. reflexivity. }
  rewrite Hlast in Hp. unfold mu in Hp. cbn in Hp.
  injection Hp as H1 H2 H3. auto.
Qed.

(** X15.  The script constructs the model with the defaults of
    [Probit], so with [xi] fixed at 0.999999, and runs [run_mcmc] with
    the options [--burnin] and [--iters] (1000 and 50 when not given).
    When [main] returns for options that are not negative, it has
    entered [burnin + iters] sweeps, never [update_xi], and has written
    the progress lines numbered from [-burnin] to [iters - 1]. *)
Theorem main_runs_the_default_model load_data opts g w' :
  (0 <= opt_iters opts)%Z -> (0 <= opt_burnin opts)%Z ->
  main load_data opts g = Val w' ->
  (forall pattern,
     opt_burnin (default_options pattern) = 1000%Z /\
     opt_iters (default_options pattern) = 50%Z) /\
  exists X_ y R_ w,
    load_data (file_pattern opts) = Val (X_, y, R_) /\
    __init__ (default_args X_ y R_) g = Val w /\
    sample_xi (self w') = false /\ xi (self w') = f0_999999 /\
    entries m_update_xi (trace w') = 0%nat /\
    sweeps_entered w' = Z.to_nat (opt_burnin opts + opt_iters opts) /\
    rev (logged (trace w')) = Np.range (- opt_burnin opts) (opt_iters opts).
Proof.
  intros Hi Hb H. split; [intros; split; reflexivity|].
  unfold main in H.
  destruct (load_data (file_pattern opts)) as [[[X_ y] R_]|e] eqn:Hload;
    [|discriminate H].
  destruct (__init__ (default_args X_ y R_) g) as [w|e] eqn:Hinit;
    [|discriminate H].
  exists X_, y, R_, w. split; [reflexivity|]. split; [exact Hinit|].
  rewrite <- (Z2Nat.id _ Hi), <- (Z2Nat.id _ Hb) in H |- *.
  rewrite run_mcmc_int_of_nat in H.
  destruct (run_mcmc (Z.to_nat (opt_iters opts)) (Z.to_nat (opt_burnin opts))
              false w) as [[r|e] w1] eqn:Hrun; [|discriminate H].
  injection H as <-.
  destruct (init_trace_quiet _ _ Hinit) as (Hx0 & Hs0 & Hl0).
  destruct (init_reading (fun s => (sample_xi s, xi s)) (default_args X_ y R_) g
              (fun _ _ _ => eq_refl) (fun _ _ => eq_refl) Hinit)
    as (R0 & ls & ns & _ & _ & _ & Hr).
  cbn in Hr. injection Hr as Hsx Hxi.
  pose proof (xi_reading_run_mcmc (Z.to_nat (opt_iters opts))
                (Z.to_nat (opt_burnin opts)) false w) as Hxr.
  rewrite Hrun in Hxr. cbn [snd] in Hxr. unfold xi_reading in Hxr.
  rewrite Hsx, Hxi, Hx0 in Hxr.
  destruct (sample_xi (self w1)); [discriminate Hxr|].
  injection Hxr as Hxi1 Hx1.
  destruct (run_mcmc_counts _ _ _ _ Hrun) as [L S].
  rewrite L, Hl0, S, Hs0, app_nil_r, rev_involutive.
  repeat split; auto. lia.
Qed.


(* ----------------------------------------------------------------- *)
(** *** Where the samplers start *)

Lemma drawn_insensitive : insensitive (fun w => drawn (trace w)).
Proof. split; intros; reflexivity. Qed.

Ltac drawn_preserved H :=
  erewrite (preserved (mu := fun w => drawn (trace w))); [| |exact H];
  [|first [ apply preserves_probit_distribution, drawn_insensitive
          | apply preserves_ppi_distribution, drawn_insensitive
          | apply preserves_run_sampler;
            [apply drawn_insensitive|intro; frame; apply drawn_insensitive] ]].

Lemma drawn_update_gamma w w' :
  update_gamma w = (Val tt, w') ->
  drawn (trace w') = Ev_EllipticalSliceSampler (gamma (self w)) :: drawn (trace w).
Proof.
  intros H. unfold update_gamma in H.
  binv H as u w1 Ht. unfold tell in Ht. injection Ht as <- <-.
  binv H as s w1 Hs. unfold get, id in Hs. injection Hs as <- <-.
  binv H as d w1 Hd. binv H as u w2 Ht. unfold tell in Ht.
  injection Ht as <- <-. binv H as r w2 Hr. unfold get_rand in Hr.
  injection Hr as <- <-. binv H as x w2 Hrun. unfold modify in H.
  injection H as <-. cbn [self with_event with_self trace] in *.
  drawn_preserved Hrun. cbn [trace with_event drawn filter]. f_equal.
  drawn_preserved Hd. reflexivity.
Qed.

Lemma drawn_update_gamma0 w w' :
  update_gamma0 w = (Val tt, w') ->
  drawn (trace w') = Ev_SliceSampler (gamma0 (self w)) :: drawn (trace w).
Proof.
  intros H. unfold update_gamma0 in H.
  binv H as u w1 Ht. unfold tell in Ht. injection Ht as <- <-.
  binv H as x0 w1 Hs. unfold get in Hs. injection Hs as <- <-.
  binv H as u w2 Ht. unfold tell in Ht. injection Ht as <- <-.
  binv H as r w2 Hr. unfold get_rand in Hr. injection Hr as <- <-.
  binv H as x w2 Hrun. unfold modify in H. injection H as <-.
  cbn [self with_event with_self trace] in *.
  erewrite (preserved (mu := fun w => drawn (trace w))); [| |exact Hrun].
  - reflexivity.
  - apply preserves_run_sampler; [apply drawn_insensitive|intros c].
    apply preserves_gamma0_slice_fn, drawn_insensitive.
Qed.

Lemma drawn_update_lambda w w' :
  update_lambda w = (Val tt, w') ->
  drawn (trace w') = Ev_SliceSampler (lamb (self w)) :: drawn (trace w).
Proof.
  intros H. unfold update_lambda in H.
  binv H as u w1 Ht. unfold tell in Ht. injection Ht as <- <-.
  binv H as x0 w1 Hs. unfold get in Hs. injection Hs as <- <-.
  binv H as u w2 Ht. unfold tell in Ht. injection Ht as <- <-.
  binv H as r w2 Hr. unfold get_rand in Hr. injection Hr as <- <-.
  binv H as x w2 Hrun. unfold modify in H. injection H as <-.
  cbn [self with_event with_self trace] in *.
  erewrite (preserved (mu := fun w => drawn (trace w))); [| |exact Hrun].
  - reflexivity.
  - apply preserves_run_sampler; [apply drawn_insensitive|intros c].
    apply preserves_lambda_slice_fn, drawn_insensitive.
Qed.

Lemma drawn_update_nu w w' :
  update_nu w = (Val tt, w') ->
  exists scale,
    drawn (trace w')
    = Ev_random_gamma (nu_a (self w) + fhalf * of_nat (N (self w)))%F scale
        :: drawn (trace w).
Proof.
  intros H. unfold update_nu in H.
  binv H as u w1 Ht. unfold tell in Ht. injection Ht as <- <-.
  binv H as s w1 Hs. unfold get, id in Hs. injection Hs as <- <-.
  binv H as d w1 Hd. binv H as m w2 Hm. unfold lift in Hm.
  injection Hm as Hm <-. binv H as u w2 Ht. unfold tell in Ht.
  injection Ht as <- <-. binv H as v w2 Hv. unfold modify in H.
  injection H as <-. unfold draw in Hv. injection Hv as _ <-.
  cbn [self with_event with_self with_rand trace drawn filter] in *.
  eexists. f_equal.
  erewrite (preserved (mu := fun w => drawn (trace w))); [| |exact Hd].
  - reflexivity.
  - apply preserves_ppi_distribution, drawn_insensitive.
Qed.

Lemma drawn_update_xi w w' :
  update_xi w = (Val tt, w') ->
  drawn (trace w') = Ev_SliceSampler (xi (self w)) :: drawn (trace w).
Proof.
  intros H. unfold update_xi in H.
  binv H as u w1 Ht. unfold tell in Ht. injection Ht as <- <-.
  binv H as s w1 Hs. unfold get, id in Hs. injection Hs as <- <-.
  binv H as d w1 Hd. binv H as wh w2 Hwh. unfold lift in Hwh.
  injection Hwh as Hwh <-. binv H as u w2 Ht. unfold tell in Ht.
  injection Ht as <- <-. binv H as r w2 Hr. unfold get_rand in Hr.
  injection Hr as <- <-. binv H as x w2 Hrun.
  binv H as u w3 Hm. unfold modify in Hm. injection Hm as <- <-.
  binv H as d' w3 Hd'. binv H as g w4 Hg. unfold lift in Hg.
  injection Hg as Hg <-. unfold modify in H. injection H as <-.
  cbn [self with_event with_self trace] in *.
  erewrite (preserved (mu := fun w => drawn (trace w))); [| |exact Hd'];
    [|apply preserves_probit_distribution, drawn_insensitive].
  cbn [self with_event with_self trace].
  erewrite (preserved (mu := fun w => drawn (trace w))); [| |exact Hrun];
    [|apply preserves_run_sampler; [apply drawn_insensitive|intros c];
      apply preserves_xi_slice_fn, drawn_insensitive].
  cbn [trace with_event drawn filter]. f_equal.
  erewrite (preserved (mu := fun w => drawn (trace w))); [| |exact Hd];
    [|apply preserves_probit_distribution, drawn_insensitive].
  reflexivity.
Qed.


Tactic Notation "split5" hyp(E) "as" ident(S) ident(A) ident(B) ident(C) ident(D) :=
  pose proof (f_equal (fun t => fst (fst (fst (fst t)))) E) as S;
  pose proof (f_equal (fun t => snd (fst (fst (fst t)))) E) as A;
  pose proof (f_equal (fun t => snd (fst (fst t))) E) as B;
  pose proof (f_equal (fun t => snd (fst t)) E) as C;
  pose proof (f_equal (fun t => snd t) E) as D;
  cbn [fst snd] in S, A, B, C, D; clear E.

Lemma frames_of_updates w :
  but_gamma (snd (update_gamma w)) = but_gamma w /\
  but_gamma0 (snd (update_gamma0 w)) = but_gamma0 w /\
  but_lamb (snd (update_lambda w)) = but_lamb w /\
  but_nu (snd (update_nu w)) = but_nu w.
Proof.
  split; [|split; [|split]].
  - apply preserves_update_gamma with (allowed := fun _ => true);
      try reflexivity. apply but_gamma_insensitive.
  - apply preserves_update_gamma0 with (allowed := fun _ => true);
      try reflexivity. apply but_gamma0_insensitive.
  - apply preserves_update_lambda with (allowed := fun _ => true);
      try reflexivity. apply but_lamb_insensitive.
  - apply preserves_update_nu with (allowed := fun _ => true);
      try reflexivity. apply but_nu_insensitive.
Qed.

(** X16.  A sweep that returns has called, in this order: the
    elliptical slice sampler started at [gamma], the slice sampler
    started at [gamma0], the slice sampler started at [lamb],
    [np.random.gamma] with the shape [nu_a + 0.5 * N], and, when [xi]
    is sampled, the slice sampler started at [xi]; the starting values
    of [gamma0], [lamb] and [xi] are those that the model had before
    the sweep. *)
Theorem a_sweep_starts_each_sampler_at_the_current_value w w' :
  update_parameters w = (Val tt, w') ->
  exists scale,
    rev (drawn (trace w'))
    = rev (drawn (trace w))
      ++ [Ev_EllipticalSliceSampler (gamma (self w));
          Ev_SliceSampler (gamma0 (self w));
          Ev_SliceSampler (lamb (self w));
          Ev_random_gamma (nu_a (self w) + fhalf * of_nat (N (self w)))%F scale]
      ++ (if sample_xi (self w) then [Ev_SliceSampler (xi (self w))] else []).
Proof.
  intros H. unfold update_parameters in H.
  binv H as u w0 Ht. unfold tell in Ht. injection Ht as <- <-.
  set (w0 := with_event (Ev_enter m_update_parameters) w) in *.
  binv H as u w1 H1. destruct u. binv H as u w2 H2. destruct u.
  binv H as u w3 H3. destruct u. binv H as u w4 H4. destruct u.
  binv H as b w5 Hb. unfold get in Hb. injection Hb as <- <-.
  destruct (frames_of_updates w0) as (F1 & _). rewrite H1 in F1.
  destruct (frames_of_updates w1) as (_ & F2 & _). rewrite H2 in F2.
  destruct (frames_of_updates w2) as (_ & _ & F3 & _). rewrite H3 in F3.
  destruct (frames_of_updates w3) as (_ & _ & _ & F4). rewrite H4 in F4.
  cbn [snd] in F1, F2, F3, F4.
  unfold but_gamma in F1. unfold but_gamma0 in F2. unfold but_lamb in F3.
  unfold but_nu in F4.
  split5 F1 as S1 A1 B1 C1 D1. split5 F2 as S2 A2 B2 C2 D2.
  split5 F3 as S3 A3 B3 C3 D3. split5 F4 as S4 A4 B4 C4 D4.
  assert (HN : nu_a (self w3) = nu_a (self w) /\ N (self w3) = N (self w)).
  { assert (Hs : static (self w3) = static (self w0)) by congruence.
    unfold static in Hs. injection Hs as ?. subst w0. simpl in *. auto. }
  destruct HN as [Hna HN].
  assert (Hsx : sample_xi (self w4) = sample_xi (self w)).
  { assert (Hs : static (self w4) = static (self w0)) by congruence.
    unfold static in Hs. injection Hs as ?. subst w0. simpl in *. auto. }
  apply drawn_update_gamma in H1. apply drawn_update_gamma0 in H2.
  apply drawn_update_lambda in H3. apply drawn_update_nu in H4.
  destruct H4 as (scale & H4). exists scale.
  assert (E0 : drawn (trace w0) = drawn (trace w)) by reflexivity.
  assert (G0 : gamma (self w0) = gamma (self w)) by reflexivity.
  assert (G1 : gamma0 (self w1) = gamma0 (self w)) by (rewrite A1; reflexivity).
  assert (G2 : lamb (self w2) = lamb (self w))
    by (rewrite B2, B1; reflexivity).
  assert (G4 : xi (self w4) = xi (self w))
    by (rewrite D4, D3, D2, D1; reflexivity).
  rewrite Hsx in H. destruct (sample_xi (self w)).
  - apply drawn_update_xi in H.
    rewrite H, H4, H3, H2, H1, E0, G0, G1, G2, G4, Hna, HN. cbn [rev].
    rewrite <- !app_assoc. reflexivity.
  - unfold ret in H. injection H as <-.
    rewrite H4, H3, H2, H1, E0, G0, G1, G2, Hna, HN. cbn [rev].
    rewrite <- !app_assoc. reflexivity.
Qed.

(* ================================================================= *)
(** ** The updates and the two caches *)

(* ----------------------------------------------------------------- *)
(** *** The covariances entry by entry *)

Lemma nth_map_compress (mask : list bool) (a : matrix) i :
  nth i (map (Np.compress mask) a) [] = Np.compress mask (nth i a []).
Proof.
  assert (H : Np.compress mask ([] : vec) = []) by (destruct mask; reflexivity).
  rewrite <- H at 1. apply map_nth.
Qed.

Lemma ppi_cov_entries s g g0 l :
  N s = fst (Np.shape (X s)) ->
  ppi_cov s (map (Np.compress (Np.gt_scalar g g0)) (X s)) l
  = ppi_covariance s g g0 l.
Proof.
  intros HN.
  rewrite ppi_cov_tabulate by (rewrite length_map; symmetry; exact HN).
  unfold ppi_covariance, masked_row, tabulate.
  apply map_ext. intros i. apply map_ext. intros j.
  rewrite !nth_map_compress. reflexivity.
Qed.

Lemma probit_cov_entries s x :
  is_square (P s) (Mvn_cov (R s)) -> probit_cov s x = probit_covariance s x.
Proof.
  intros Hsq. unfold probit_cov, probit_covariance.
  rewrite (square_as_tabulate Hsq) at 1.
  rewrite scale_tabulate, eye_tabulate, scale_tabulate, add_tabulate.
  reflexivity.
Qed.

(* ----------------------------------------------------------------- *)
(** *** [update_nu] and the PPI cache *)

Lemma ppi_distribution_rand g g0 l :
  preserves (fun w => rand w) (ppi_distribution g g0 l).
Proof.
  intro w.
  destruct (steps_ppi_distribution constructed_only_cache_step g g0 l w) as [H _].
  exact H.
Qed.

(** A miss in the PPI cache whose construction succeeds. *)
Lemma ppi_distribution_miss g g0 l w d :
  getitem (_ppi_cache (self w))
    (_cache_key [ArgArray g; ArgFloat g0; ArgFloat l]) = None ->
  N (self w) = fst (Np.shape (X (self w))) ->
  length g = snd (Np.shape (X (self w))) ->
  Mvn_init (ppi_covariance (self w) g g0 l) None None = Val d ->
  ppi_distribution g g0 l w = (Val d, snd (ppi_distribution g g0 l w)).
Proof.
  intros Hmiss HN Hlen Hinit.
  pose proof (ppi_distribution_on_miss g g0 l w Hmiss Hlen) as Hfst.
  rewrite (ppi_cov_entries _ g g0 l HN), Hinit in Hfst.
  destruct (ppi_distribution g g0 l w) as [o w']. simpl in *.
  rewrite Hfst. reflexivity.
Qed.

Lemma constructions_cons ev t :
  is_Mvn ev = false -> constructions (ev :: t) = constructions t.
Proof. intros H. unfold constructions. simpl. rewrite H. reflexivity. Qed.


(* ----------------------------------------------------------------- *)
(** *** Two values of [xi] with one key *)

Lemma hash_float_half_two_pow_minus_62 :
  PyHash.hash_float two_pow_minus_62 = PyHash.hash_float fhalf.
Proof. vm_compute. reflexivity. Qed.

Lemma cache_key_half_two_pow_minus_62 :
  _cache_key [ArgFloat two_pow_minus_62] = _cache_key [ArgFloat fhalf].
Proof.
  unfold _cache_key, py_hash_tuple. cbn [map item_hash].
  rewrite hash_float_half_two_pow_minus_62. reflexivity.
Qed.


End Proofs.

End Model.

(* ================================================================= *)
(** ** Concrete runs *)

Module Runs.
Import Cachetools Model Model.Examples.


(** On the model of one predictor with [gamma = [-3/2]]: asked first,
    the threshold -2 gives the covariance [[3]]; asked after the
    threshold -1, it gives the cached covariance [[2]]. *)
Lemma log_marg_like_stale_after_collision_witness :
  fst (log_marg_like [Fin (-3 # 2)] (Fin (-2)) f1 f1 w1) = Val (Fin (-1 # 3)) /\
  fst (log_marg_like [Fin (-3 # 2)] (Fin (-2)) f1 f1
         (snd (ppi_distribution [Fin (-3 # 2)] (Fin (-1)) f1 w1)))
  = Val (Fin (-1 # 2)).
Proof.
  split; [vm_compute; reflexivity|].
  rewrite (@log_marg_like_stale_after_collision Toy.externals w1
             [Fin (-3 # 2)] f1 f1 ([[Fin 2]] : matrix));
    try (vm_compute; reflexivity).
  vm_compute. lia.
Defined.

Lemma gamma0_v_is_the_standard_deviation_witness :
  gamma0_v args_v2 = Fin 2 /\
  norm_var (_gamma0_distribution (self w_v2)) = Fin 4.
Proof.
  split; [reflexivity|].
  refine (proj1 (@gamma0_v_is_the_standard_deviation Toy.externals
                   args_v2 0%nat w_v2 _ _)); vm_compute; reflexivity.
Defined.

Lemma lambda_slice_fn_zero_not_rejected_witness :
  fst (lambda_slice_fn f0 w1) = Exc ValueError.
Proof.
  refine (proj2 (proj2 (proj2
            (@lambda_slice_fn_zero_not_rejected Toy.externals w1))) _ _ _ _);
    vm_compute; reflexivity.
Defined.

Lemma caches_evict_first_stored_witness :
  maxsize (_probit_cache (self w1)) = 4%nat /\
  maxsize (_ppi_cache (self w1)) = 8%nat.
Proof.
  refine (proj1 (@caches_evict_first_stored Toy.externals) args1 0%nat w1 _).
  vm_compute. reflexivity.
Defined.


(** The second call passes the same number written as another
    fraction. *)
Lemma cache_key_reads_bytes_and_numbers_witness :
  let r := probit_distribution f0_999999 w1 in
  probit_distribution (Fin (1999998 # 2000000)) (snd r)
  = (Val (val_or Toy.no_mvn (fst r)), snd r).
Proof.
  intros r.
  refine (proj1 (proj2 (proj2 (@cache_key_reads_bytes_and_numbers Toy.externals)))
            w1 f0_999999 _ _ _ _ _ _).
  - unfold value_equal, f0_999999, Qeq. simpl. reflexivity.
  - vm_compute. lia.
  - vm_compute. reflexivity.
Defined.

(** The arrays [[0.0]] and [[-0.0]] are equal by value and differ in
    their last byte.  Under a byte hash that tells the two byte strings
    apart (the stand-in reads the bytes as a number) they have two
    keys, so a call with the one does not find what a call with the
    other has stored. *)
Lemma equal_values_of_different_bytes :
  ~ (forall u v : list Float64.float64,
       Forall2 value_equal (map Float64.value u) (map Float64.value v) ->
       @key_of_content (Toy.proposing f0) [inl (Float64.tobytes u)]
       = @key_of_content (Toy.proposing f0) [inl (Float64.tobytes v)]).
Proof.
  intros H.
  assert (K := H [Float64.zero false] [Float64.zero true]).
  assert (Hv : Forall2 value_equal (map Float64.value [Float64.zero false])
                 (map Float64.value [Float64.zero true])).
  { repeat constructor. }
  specialize (K Hv). vm_compute in K. discriminate K.
Qed.




Lemma proposing_slice_sampler c : @slice_sampler_contract (Toy.proposing c).
Proof.
  intros x0 g. do 2 eexists. split; [reflexivity|].
  intros v0. exists f0. split.
  - exists 0%Q. split; [reflexivity|apply Qle_refl].
  - cbn [accepts]. intros v.
    destruct (v0 - f0 <=? v)%F eqn:Hle; [|exact I]. auto.
Qed.

Lemma proposing_numbers c :
  is_finite c = true -> @slice_sampler_returns_numbers (Toy.proposing c).
Proof.
  intros Hc x0 g _. simpl. intros v0 v.
  destruct (v0 - f0 <=? v)%F; [exact Hc|exact I].
Qed.

Lemma proposing_elliptical_sampler c : @elliptical_sampler_contract (Toy.proposing c).
Proof. intros d x0 g. simpl. intros _. reflexivity. Qed.

Lemma proposing_Mvn c : @Mvn_contract (Toy.proposing c).
Proof.
  split; simpl.
  - intros d y v _ H. unfold Toy.scaled_maha in H. injection H as <-.
    destruct (Np.inner y y / Toy.first_entry d)%F as [| |q|]; simpl;
      try (exists 0%Q; split; [reflexivity|apply Qle_refl]).
    destruct (Qle_bool 0 q) eqn:Hq.
    + exists q. split; [reflexivity|apply Qle_bool_iff, Hq].
    + exists 0%Q. split; [reflexivity|apply Qle_refl].
  - intros d y n v _ _ H. unfold Toy.toy_logpdf in H. injection H as <-.
    match goal with
    | |- is_finite (if is_finite ?v then _ else _) = true =>
        destruct (is_finite v) eqn:Hf; [exact Hf|reflexivity]
    end.
  - intros d y z H. unfold Toy.scaled_whiten in H.
    destruct (_ =? _)%nat; [|discriminate]. injection H as <-.
    apply length_map.
  - intros d z y H. unfold Toy.scaled_correlate in H.
    destruct (_ =? _)%nat; [|discriminate]. injection H as <-.
    apply length_map.
  - intros d y z H. unfold Toy.scaled_whiten, Toy.scaled_correlate in *.
    destruct (_ =? _)%nat eqn:Hl; [|discriminate]. injection H as <-.
    rewrite length_map, Hl. eauto.
  - intros cov a b d g v g' Hi H. injection Hi as <-. injection H as <- _.
    apply repeat_length.
  - intros cov a b d Hi. congruence.
Qed.

Lemma proposing_library c : @library_contract (Toy.proposing c).
Proof.
  split; simpl.
  - intros a s g v g' Ha Hs H. unfold Toy.toy_gamma in H.
    destruct (_ || _); [discriminate|]. injection H as <- _.
    apply positive_mul; assumption.
  - reflexivity.
  - reflexivity.
Qed.


Lemma log_joint_repeatable_witness :
  log_joint (snd (log_joint w1))
  = (Val (val_or f0 (fst (log_joint w1))), snd (log_joint w1)).
Proof.
  apply (@log_joint_repeatable Toy.externals w1).
  - vm_compute. lia.
  - vm_compute. lia.
  - vm_compute. reflexivity.
Defined.

Lemma log_like_is_the_first_term_of_log_joint_witness :
  let w := snd (log_joint w1) in
  exists a m e f,
    log_marg_like (gamma (self w)) (gamma0 (self w)) (lamb (self w))
      (nu (self w)) w = (Val a, w) /\
    probit_distribution (xi (self w)) w = (Val m, w) /\
    Mvn_logpdf m (gamma (self w)) f1 = Val e /\
    (if sample_xi (self w) then xi_logpdf (xi (self w)) else ret f0) w
      = (Val f, w) /\
    (sample_xi (self w) = false -> f = f0) /\
    val_or f0 (fst (log_joint w1)) = py_sum (a :: prior_terms (self w) ++ [e; f]).
Proof.
  apply (@log_like_is_the_first_term_of_log_joint Toy.externals w1).
  - vm_compute. lia.
  - vm_compute. lia.
  - vm_compute. reflexivity.
Defined.

Lemma a_failed_update_assigns_nothing_witness :
  fst (update_gamma blank) = Exc IndexError /\
  core (snd (update_gamma blank)) = core blank /\
  core (snd (update_nu blank)) = core blank /\
  but_xi (snd (update_xi blank)) = but_xi blank.
Proof.
  destruct (@a_failed_update_assigns_nothing Toy.externals blank IndexError)
    as (Hg & _ & _ & Hn & Hx).
  split; [vm_compute; reflexivity|]. split; [|split].
  - apply Hg. vm_compute. reflexivity.
  - apply Hn. vm_compute. reflexivity.
  - apply Hx. vm_compute. reflexivity.
Defined.

Lemma caches_stay_within_capacity_witness :
  within_capacity 4 8 w1 /\
  within_capacity 4 8 (snd (run_mcmc 2 1 true w1)).
Proof.
  destruct (@caches_stay_within_capacity Toy.externals) as [Hinit Hkeep].
  assert (H : within_capacity 4 8 w1).
  { apply (Hinit args1 0%nat). vm_compute. reflexivity. }
  split; [exact H|]. apply (Hkeep 4%nat 8%nat w1 H).
Defined.

Lemma a_zero_rate_raises_ZeroDivisionError_witness :
  @__init__ Toy.externals args_zero_rate 0%nat = Exc ZeroDivisionError.
Proof.
  apply (proj1 (@a_zero_rate_raises_ZeroDivisionError Toy.externals
                  args_zero_rate 0%nat) Toy.R1).
  - vm_compute. reflexivity.
  - left. unfold value_equal, args_zero_rate, f0. simpl. reflexivity.
Defined.

Lemma the_ppi_covariance_is_square_and_symmetric_witness :
  let cov := ppi_cov (self w1)
               (map (Np.compress (Np.gt_scalar [Fin 3] f0)) (X (self w1))) f1 in
  is_square 1 cov /\ is_symmetric cov.
Proof.
  apply (@the_ppi_covariance_is_square_and_symmetric Toy.externals (self w1)
           [Fin 3] f0 f1).
  - vm_compute. reflexivity.
  - vm_compute. reflexivity.
Defined.

Lemma the_probit_covariance_is_square_and_symmetric_witness :
  is_square 1 (probit_cov (self w1) fhalf) /\ is_symmetric (probit_cov (self w1) fhalf).
Proof.
  apply (@the_probit_covariance_is_square_and_symmetric Toy.externals (self w1)
           fhalf).
  - vm_compute. split; [reflexivity|repeat constructor].
  - intros [|[|i]] [|[|j]]; reflexivity.
Defined.

Lemma no_predictor_included_witness :
  ppi_cov (self w1) (map (Np.compress (Np.gt_scalar [f0] f1)) (X (self w1))) fhalf
  = [[Fin 3]].
Proof.
  rewrite (@no_predictor_included Toy.externals (self w1) [f0] f1 fhalf).
  - vm_compute. reflexivity.
  - vm_compute. reflexivity.
  - vm_compute. reflexivity.
  - vm_compute. reflexivity.
Defined.

Lemma run_mcmc_numbers_its_progress_lines_witness :
  rev (logged (trace (snd (run_mcmc 2 1 false w1)))) = [-1; 0; 1]%Z.
Proof.
  rewrite (@run_mcmc_numbers_its_progress_lines Toy.externals 2 1 false w1
             (val_or (Plain []) (fst (run_mcmc 2 1 false w1)))
             (snd (run_mcmc 2 1 false w1))).
  - vm_compute. reflexivity.
  - vm_compute. reflexivity.
Defined.

Lemma run_mcmc_does_not_check_its_integers_witness :
  run_mcmc_int (-1) 0 false w1 = (Exc ValueError, w1) /\
  fst (run_mcmc_int 2 (-1) false w1) = Val (Plain [f0; Fin (-1 # 2)]).
Proof.
  destruct (@run_mcmc_does_not_check_its_integers Toy.externals)
    as (Hneg & _ & Hburn).
  split; [apply Hneg; lia|].
  destruct (Hburn 2%nat 1%nat w1
              (val_or [] (fst (sweeps 2 [1%Z] w1)))
              (snd (sweeps 2 [1%Z] w1))) as [H _].
  - lia.
  - vm_compute. reflexivity.
  - change (Z.of_nat 2) with 2%Z in H. change (- Z.of_nat 1)%Z with (-1)%Z in H.
    rewrite H. vm_compute. reflexivity.
Defined.

Lemma main_runs_the_default_model_witness :
  let w' := val_or blank (@main Toy.externals load_one options_1_2 0%nat) in
  xi (self w') = f0_999999 /\
  entries m_update_xi (trace w') = 0%nat /\
  sweeps_entered w' = 3%nat /\
  rev (logged (trace w')) = [-1; 0; 1]%Z.
Proof.
  intros w'.
  destruct (@main_runs_the_default_model Toy.externals load_one options_1_2
              0%nat w') as (_ & X_ & y & R_ & w & _ & _ & _ & Hx & He & Hs & Hl).
  - vm_compute. discriminate.
  - vm_compute. discriminate.
  - vm_compute. reflexivity.
  - split; [exact Hx|]. split; [exact He|]. split; [exact Hs|exact Hl].
Defined.

Lemma a_sweep_starts_each_sampler_at_the_current_value_witness :
  exists scale,
    rev (drawn (trace (snd (update_parameters w_sampled))))
    = rev (drawn (trace w_sampled))
      ++ [Ev_EllipticalSliceSampler (gamma (self w_sampled));
          Ev_SliceSampler (gamma0 (self w_sampled));
          Ev_SliceSampler (lamb (self w_sampled));
          Ev_random_gamma (nu_a (self w_sampled)
                           + fhalf * of_nat (N (self w_sampled)))%F scale]
      ++ (if sample_xi (self w_sampled)
          then [Ev_SliceSampler (xi (self w_sampled))] else []).
Proof.
  apply (@a_sweep_starts_each_sampler_at_the_current_value Toy.externals
           w_sampled).
  vm_compute. reflexivity.
Defined.

End Runs.
